(** * PiBenchmark: a shallow embedding of [PiBenchmark.py] and its properties

    The program computes Pi with Machin's formula on Python's [decimal]
    numbers and times repeated computations over a process pool.

    Layout of the development:
    - [Module py]: outcomes of Python code (a value, an exception, or a
      loop that is still running when the fuel ends);
    - [Module decimal]: the fragment of Python's [decimal] module the program
      uses, operation by operation after the reference implementation
      [_pydecimal]: finite numbers, the default context (ROUND_HALF_EVEN,
      Emin = -999999, Emax = 999999, clamp = 0, traps on InvalidOperation,
      DivisionByZero and Overflow) of which the program only ever assigns
      [prec];
    - [Module float]: the binary64 operations of the harness;
    - the program itself: [arctan], [calculate_pi], [main];
    - the definitions that follow the words of the specification;
    - the numbers of the program as real numbers of the standard library,
      against which the value of the result is measured;
    - the theorems. *)

From Stdlib Require Import Reals Lra.
From Stdlib Require Import ZArith Lia List String Ascii Bool.
Import ListNotations.
Open Scope Z_scope.

(* ===================================================================== *)
(** ** Outcomes of Python code *)
(* ===================================================================== *)

Module py.

(** The exceptions the program can meet. *)
Inductive exn : Type :=
| DivisionByZero                (* decimal.DivisionByZero: x / 0, x <> 0 *)
| DivisionUndefined             (* decimal.InvalidOperation: 0 / 0 *)
| ConversionSyntax              (* decimal.InvalidOperation: bad literal *)
| Overflow                      (* decimal.Overflow *)
| ValueError (msg : string)
| OverflowError                 (* int too large to convert to float *)
| ZeroDivisionError             (* float division by zero *)
| SystemExit (code : Z).

(** The last two are not Python outcomes. [OutOfFuel] marks a [while True]
    loop that is still running after the number of iterations the caller
    allowed; [OutOfFragment] marks a value this embedding has no
    representation for (an infinite or NaN [Decimal] literal). *)
Inductive outcome (A : Type) : Type :=
| Return (a : A)
| Raise (e : exn)
| OutOfFuel
| OutOfFragment.

Arguments Return {A} a.
Arguments Raise {A} e.
Arguments OutOfFuel {A}.
Arguments OutOfFragment {A}.

Definition bind {A B} (m : outcome A) (k : A -> outcome B) : outcome B :=
  match m with
  | Return a => k a
  | Raise e => Raise e
  | OutOfFuel => OutOfFuel
  | OutOfFragment => OutOfFragment
  end.

(** Sequencing, for the three layers of the program: plain outcomes, code
    that uses the decimal context, code that uses the whole process. *)
Class Monad (M : Type -> Type) : Type := {
  ret : forall {A}, A -> M A;
  mbind : forall {A B}, M A -> (A -> M B) -> M B
}.

#[export] Instance Monad_outcome : Monad outcome :=
  {| ret := @Return; mbind := @bind |}.

End py.
Import py.

Declare Scope monad_scope.
Notation "x <- m ;; k" := (mbind m (fun x => k))
  (at level 61, m at next level, right associativity) : monad_scope.
Notation "' pat <- m ;; k" := (mbind m (fun x => match x with pat => k end))
  (at level 61, pat pattern, m at next level, right associativity) : monad_scope.
Notation "m ;;; k" := (mbind m (fun _ => k))
  (at level 61, right associativity) : monad_scope.
Open Scope monad_scope.

(* ===================================================================== *)
(** ** Decimal digits of integers *)
(* ===================================================================== *)

Fixpoint ndigits_aux (fuel : nat) (c : Z) : Z :=
  match fuel with
  | O => 1
  | S fuel' => if c <? 10 then 1 else 1 + ndigits_aux fuel' (c / 10)
  end.

(** [len(str(c))] for [c >= 0]. *)
Definition ndigits (c : Z) : Z := ndigits_aux (S (Z.to_nat (Z.log2 c))) c.

(* ===================================================================== *)
(** ** Strings: characters, [str(int)], [int(str)] *)
(* ===================================================================== *)

Module pystr.

Definition code (c : ascii) : Z := Z.of_N (N_of_ascii c).
Definition is_digit (c : ascii) : bool := (48 <=? code c) && (code c <=? 57).
Definition digit_value (c : ascii) : Z := code c - 48.
Definition digit_char (d : Z) : ascii := ascii_of_N (Z.to_N (48 + d)).

(** ASCII white space, as [str.strip()] and [int()] skip it. *)
Definition is_space (c : ascii) : bool :=
  ((9 <=? code c) && (code c <=? 13)) || ((28 <=? code c) && (code c <=? 32)).

Definition lower (c : ascii) : ascii :=
  if (65 <=? code c) && (code c <=? 90) then ascii_of_N (Z.to_N (code c + 32))
  else c.

Fixpoint lstrip (s : list ascii) : list ascii :=
  match s with
  | c :: s' => if is_space c then lstrip s' else s
  | [] => []
  end.

Definition strip (s : list ascii) : list ascii :=
  rev (lstrip (rev (lstrip s))).

(** The longest prefix of digits, and the rest. *)
Fixpoint span_digits (s : list ascii) : list ascii * list ascii :=
  match s with
  | c :: s' =>
    if is_digit c then let '(ds, rest) := span_digits s' in (c :: ds, rest)
    else ([], s)
  | [] => ([], [])
  end.

(** [int(ds)] for a string of digits. *)
Definition int_of_digits (ds : list ascii) : Z :=
  fold_left (fun acc c => 10 * acc + digit_value c) ds 0.

Definition split_sign (s : list ascii) : bool * list ascii :=
  match s with
  | "-"%char :: rest => (true, rest)
  | "+"%char :: rest => (false, rest)
  | _ => (false, s)
  end.

Fixpoint digits_aux (fuel : nat) (c : Z) : list ascii :=
  match fuel with
  | O => []
  | S fuel' =>
    if c <? 10 then [digit_char c]
    else digits_aux fuel' (c / 10) ++ [digit_char (c mod 10)]
  end.

(** [str(value)], also ['%d' % value]. *)
Definition str (value : Z) : string :=
  let ds := digits_aux (S (Z.to_nat (Z.log2 (Z.abs value)))) (Z.abs value) in
  string_of_list_ascii (if value <? 0 then "-"%char :: ds else ds).

(** Digits with single underscores between them, as [int()] accepts:
    the digits, or [None]. *)
Fixpoint grouped_digits (s : list ascii) : option (list ascii) :=
  match s with
  | [] => None
  | c :: s' =>
    if is_digit c then
      match s' with
      | [] => Some [c]
      | "_"%char :: s'' => option_map (cons c) (grouped_digits s'')
      | _ => option_map (cons c) (grouped_digits s')
      end
    else None
  end.

(** [sys.get_int_max_str_digits()], as the interpreter starts. *)
Definition int_max_str_digits : Z := 4300.

(** [int(s)] in base 10 (ASCII digits). The message of the [ValueError]
    quotes the argument; Python's [repr] escapes the argument where this
    writes it as it is. *)
Definition int (s : string) : outcome Z :=
  let '(sign, body) := split_sign (strip (list_ascii_of_string s)) in
  match grouped_digits body with
  | Some ds =>
    if int_max_str_digits <? Z.of_nat (List.length ds) then
      Raise (ValueError
               ("Exceeds the limit (4300 digits) for integer string conversion: value has "
                ++ str (Z.of_nat (List.length ds))
                ++ " digits; use sys.set_int_max_str_digits() to increase the limit"))
    else Return (if sign then - int_of_digits ds else int_of_digits ds)
  | None =>
    Raise (ValueError ("invalid literal for int() with base 10: '" ++ s ++ "'"))
  end.

End pystr.

(* ===================================================================== *)
(** ** The decimal module *)
(* ===================================================================== *)

Module decimal.

(** A finite [Decimal]: [_sign] (true for negative), [_int] (the coefficient,
    a digit string in Python, here the natural number it denotes) and
    [_exp]. Its value is [(-1)^_sign * _int * 10^_exp]. *)
Record Decimal : Type := mkDecimal {
  d_sign : bool;
  d_int : Z;
  d_exp : Z
}.

(** The context. The program assigns [prec] and nothing else, so the other
    attributes are the constants of the default context. *)
Record Context : Type := mkContext { prec : Z }.

Definition DefaultContext : Context := {| prec := 28 |}.
Definition Emax : Z := 999999.
Definition Emin : Z := -999999.
(** The largest precision a context accepts (64-bit builds). *)
Definition MAX_PREC : Z := 999999999999999999.
Definition Etiny (context : Context) : Z := Emin - prec context + 1.
Definition Etop (context : Context) : Z := Emax - prec context + 1.

(** [Decimal(value)] for an [int]. *)
Definition of_int (value : Z) : Decimal :=
  {| d_sign := value <? 0; d_int := Z.abs value; d_exp := 0 |}.

(** The exponent part of a numeric string: empty, or [E], a sign and digits. *)
Definition exponent_part (s : list ascii) : option Z :=
  match s with
  | [] => Some 0
  | e :: rest =>
    if (pystr.code e =? 69) || (pystr.code e =? 101) then
      let '(sign, rest) := pystr.split_sign rest in
      match pystr.span_digits rest with
      | ((_ :: _) as ds, []) =>
        Some (if sign then - pystr.int_of_digits ds else pystr.int_of_digits ds)
      | _ => None
      end
    else None
  end.

(** [Inf], [Infinity], [NaN] and [sNaN] with diagnostic digits, in any
    case: the literals of the special values. *)
Definition is_special_literal (s : list ascii) : bool :=
  let l := map pystr.lower s in
  let name := string_of_list_ascii l in
  (name =? "inf")%string || (name =? "infinity")%string ||
  match l with
  | "n"%char :: "a"%char :: "n"%char :: diag
  | "s"%char :: "n"%char :: "a"%char :: "n"%char :: diag =>
    forallb pystr.is_digit diag
  | _ => false
  end.

(** [Decimal(value)] for a [str]: white space stripped, underscores removed,
    then sign, integer part, fractional part and exponent. A string that is
    no number raises InvalidOperation (ConversionSyntax). The special values
    have no counterpart here. *)
Definition of_string (value : string) : outcome Decimal :=
  let s := filter (fun c => negb (pystr.code c =? 95))
                  (pystr.strip (list_ascii_of_string value)) in
  let '(sign, s) := pystr.split_sign s in
  if is_special_literal s then OutOfFragment
  else
    let '(intpart, s) := pystr.span_digits s in
    let '(fracpart, s) :=
      match s with
      | "."%char :: rest => pystr.span_digits rest
      | _ => ([], s)
      end in
    match intpart ++ fracpart with
    | [] => Raise ConversionSyntax
    | digits =>
      match exponent_part s with
      | Some exp =>
        Return {| d_sign := sign;
                  d_int := pystr.int_of_digits digits;
                  d_exp := exp - Z.of_nat (List.length fracpart) |}
      | None => Raise ConversionSyntax
      end
    end.

Definition is_zero (a : Decimal) : bool := d_int a =? 0.   (* [not self] *)
Definition adjusted (a : Decimal) : Z := d_exp a + ndigits (d_int a) - 1.
Definition copy_abs (a : Decimal) : Decimal :=
  {| d_sign := false; d_int := d_int a; d_exp := d_exp a |}.
Definition copy_negate (a : Decimal) : Decimal :=
  {| d_sign := negb (d_sign a); d_int := d_int a; d_exp := d_exp a |}.

(** [_round_half_up(self, prec)] and [_round_half_even(self, prec)] on the
    coefficient [c]: [keep] digits are kept, [ndigits c - keep] dropped.
    The result is 1 (round away from zero), 0 (exact) or -1. *)
Definition dropped (c keep : Z) : Z := c mod 10 ^ (ndigits c - keep).
Definition kept (c keep : Z) : Z := c / 10 ^ (ndigits c - keep).
Definition half (c keep : Z) : Z := 5 * 10 ^ (ndigits c - keep - 1).

Definition _round_half_up (c keep : Z) : Z :=
  if half c keep <=? dropped c keep then 1
  else if dropped c keep =? 0 then 0
  else -1.

Definition _round_half_even (c keep : Z) : Z :=
  if (dropped c keep =? half c keep) && Z.even (kept c keep) then -1
  else _round_half_up c keep.

(** [_fix(self, context)]: round to the context's precision and exponent
    range. *)
Definition _fix (context : Context) (self : Decimal) : outcome Decimal :=
  if is_zero self then
    let new_exp := Z.min (Z.max (d_exp self) (Etiny context)) Emax in
    Return {| d_sign := d_sign self; d_int := 0; d_exp := new_exp |}
  else
    let exp_min := ndigits (d_int self) + d_exp self - prec context in
    if Etop context <? exp_min then Raise Overflow
    else
      let exp_min := if exp_min <? Etiny context then Etiny context else exp_min in
      if d_exp self <? exp_min then
        let digits := ndigits (d_int self) + d_exp self - exp_min in
        let c := if digits <? 0 then 1 else d_int self in
        let digits := if digits <? 0 then 0 else digits in
        let changed := _round_half_even c digits in
        let coeff := kept c digits in
        let bumped := (0 <? changed) && (prec context <? ndigits (coeff + 1)) in
        let coeff' :=
          if 0 <? changed then
            if bumped then (coeff + 1) / 10 else coeff + 1
          else coeff in
        let exp_min' := if bumped then exp_min + 1 else exp_min in
        if Etop context <? exp_min' then Raise Overflow
        else Return {| d_sign := d_sign self; d_int := coeff'; d_exp := exp_min' |}
      else Return self.

(** [_rescale(self, exp, rounding)]. *)
Definition _rescale (self : Decimal) (exp : Z) : Decimal :=
  if is_zero self then {| d_sign := d_sign self; d_int := 0; d_exp := exp |}
  else if exp <=? d_exp self then
    {| d_sign := d_sign self;
       d_int := d_int self * 10 ^ (d_exp self - exp);
       d_exp := exp |}
  else
    let digits := ndigits (d_int self) + d_exp self - exp in
    let c := if digits <? 0 then 1 else d_int self in
    let digits := if digits <? 0 then 0 else digits in
    let changed := _round_half_even c digits in
    let coeff := kept c digits in
    {| d_sign := d_sign self;
       d_int := if changed =? 1 then coeff + 1 else coeff;
       d_exp := exp |}.

(** [_normalize(op1, op2, prec)]: both operands at one exponent; an operand
    too small to matter is replaced by [10^exp]. Operands are nonzero. *)
Definition _normalize (op1 op2 : Decimal) (prec : Z) : Decimal * Decimal :=
  let swap := d_exp op1 <? d_exp op2 in
  let tmp := if swap then op2 else op1 in
  let other := if swap then op1 else op2 in
  let tmp_len := ndigits (d_int tmp) in
  let other_len := ndigits (d_int other) in
  let exp := d_exp tmp + Z.min (-1) (tmp_len - prec - 2) in
  let other :=
    if other_len + d_exp other - 1 <? exp
    then {| d_sign := d_sign other; d_int := 1; d_exp := exp |}
    else other in
  let tmp :=
    {| d_sign := d_sign tmp;
       d_int := d_int tmp * 10 ^ (d_exp tmp - d_exp other);
       d_exp := d_exp other |} in
  if swap then (other, tmp) else (tmp, other).

(** [self.__add__(other, context)]. *)
Definition __add__ (context : Context) (self other : Decimal) : outcome Decimal :=
  let exp := Z.min (d_exp self) (d_exp other) in
  if is_zero self && is_zero other then
    let sign := d_sign self && d_sign other in
    _fix context {| d_sign := sign; d_int := 0; d_exp := exp |}
  else if is_zero self then
    let exp := Z.max exp (d_exp other - prec context - 1) in
    _fix context (_rescale other exp)
  else if is_zero other then
    let exp := Z.max exp (d_exp self - prec context - 1) in
    _fix context (_rescale self exp)
  else
    let '(op1, op2) := _normalize self other (prec context) in
    if negb (Bool.eqb (d_sign op1) (d_sign op2)) then
      if d_int op1 =? d_int op2 then
        _fix context {| d_sign := false; d_int := 0; d_exp := exp |}
      else
        let '(op1, op2) := if d_int op1 <? d_int op2 then (op2, op1) else (op1, op2) in
        _fix context {| d_sign := d_sign op1;
                        d_int := d_int op1 - d_int op2;
                        d_exp := d_exp op1 |}
    else
      _fix context {| d_sign := d_sign op1;
                      d_int := d_int op1 + d_int op2;
                      d_exp := d_exp op1 |}.

(** [self.__sub__(other, context)]. *)
Definition __sub__ (context : Context) (self other : Decimal) : outcome Decimal :=
  __add__ context self (copy_negate other).

(** [self.__mul__(other, context)]. *)
Definition __mul__ (context : Context) (self other : Decimal) : outcome Decimal :=
  let resultsign := xorb (d_sign self) (d_sign other) in
  let resultexp := d_exp self + d_exp other in
  if is_zero self || is_zero other then
    _fix context {| d_sign := resultsign; d_int := 0; d_exp := resultexp |}
  else
    _fix context {| d_sign := resultsign;
                    d_int := d_int self * d_int other;
                    d_exp := resultexp |}.

(** The loop of [__truediv__] on an exact quotient: drop trailing zeros while
    the exponent is below the ideal one. At most [ideal_exp - exp] rounds. *)
Fixpoint strip_zeros (rounds : nat) (coeff exp ideal_exp : Z) : Z * Z :=
  match rounds with
  | O => (coeff, exp)
  | S rounds' =>
    if (exp <? ideal_exp) && (coeff mod 10 =? 0)
    then strip_zeros rounds' (coeff / 10) (exp + 1) ideal_exp
    else (coeff, exp)
  end.

(** [self.__truediv__(other, context)]. *)
Definition __truediv__ (context : Context) (self other : Decimal) : outcome Decimal :=
  let sign := xorb (d_sign self) (d_sign other) in
  if is_zero other then
    if is_zero self then Raise DivisionUndefined else Raise DivisionByZero
  else if is_zero self then
    _fix context {| d_sign := sign; d_int := 0; d_exp := d_exp self - d_exp other |}
  else
    let shift := ndigits (d_int other) - ndigits (d_int self) + prec context + 1 in
    let exp := d_exp self - d_exp other - shift in
    let num := if 0 <=? shift then d_int self * 10 ^ shift else d_int self in
    let den := if 0 <=? shift then d_int other else d_int other * 10 ^ (- shift) in
    let coeff := num / den in
    let remainder := num mod den in
    let '(coeff, exp) :=
      if negb (remainder =? 0) then
        (if coeff mod 5 =? 0 then coeff + 1 else coeff, exp)
      else
        let ideal_exp := d_exp self - d_exp other in
        strip_zeros (Z.to_nat (ideal_exp - exp)) coeff exp ideal_exp in
    _fix context {| d_sign := sign; d_int := coeff; d_exp := exp |}.

(** [self.__neg__(context)], [self.__pos__(context)], [abs(self)]: each
    rounds its result to the context. *)
Definition __neg__ (context : Context) (self : Decimal) : outcome Decimal :=
  _fix context (if is_zero self then copy_abs self else copy_negate self).

Definition __pos__ (context : Context) (self : Decimal) : outcome Decimal :=
  _fix context (if is_zero self then copy_abs self else self).

Definition __abs__ (context : Context) (self : Decimal) : outcome Decimal :=
  if d_sign self then __neg__ context self else __pos__ context self.

(** [self._cmp(other)]: -1, 0 or 1; exact, no context. *)
Definition sgn (sign : bool) : Z := if sign then -1 else 1.   (* (-1)**sign *)

Definition _cmp (self other : Decimal) : Z :=
  if is_zero self then
    if is_zero other then 0 else - sgn (d_sign other)
  else if is_zero other then sgn (d_sign self)
  else if d_sign self && negb (d_sign other) then -1
  else if negb (d_sign self) && d_sign other then 1
  else
    let self_adjusted := adjusted self in
    let other_adjusted := adjusted other in
    if self_adjusted =? other_adjusted then
      let self_padded := d_int self * 10 ^ Z.max 0 (d_exp self - d_exp other) in
      let other_padded := d_int other * 10 ^ Z.max 0 (d_exp other - d_exp self) in
      if self_padded =? other_padded then 0
      else if self_padded <? other_padded then - sgn (d_sign self)
      else sgn (d_sign self)
    else if other_adjusted <? self_adjusted then sgn (d_sign self)
    else - sgn (d_sign self).

Definition __lt__ (self other : Decimal) : bool := _cmp self other <? 0.

End decimal.

(* ===================================================================== *)
(** ** Python floats: IEEE 754 binary64 *)
(* ===================================================================== *)

Module float.

(** A finite float is [m * 2^e]; several pairs may denote one value, and
    the operations only depend on the value. The operations on finite
    operands are total; an operand that is an infinity leaves the fragment
    (the harness prints such a value at most, it never computes with one). *)
Inductive float : Type :=
| Finite (m e : Z)
| Infinity (negative : bool).

(** Round the positive rational [n / d] to the nearest multiple of [2^e]
    that has at most 53 significant bits, ties to even; [e] is at least
    -1074, the exponent of the subnormal numbers. *)
Definition round_ratio (n d : Z) : Z * Z :=
  let k := Z.log2 n - Z.log2 d in
  let below := n * 2 ^ Z.max 0 (- k) <? d * 2 ^ Z.max 0 k in   (* n/d < 2^k *)
  let e := Z.max (if below then k - 53 else k - 52) (-1074) in
  let num := n * 2 ^ Z.max 0 (- e) in
  let den := d * 2 ^ Z.max 0 e in
  let q := num / den in
  let r := num mod den in
  let m := if (den <? 2 * r) || ((2 * r =? den) && Z.odd q) then q + 1 else q in
  (m, e).

(** The float nearest to [(-1)^negative * n / d], for [n >= 0] and [d > 0]. *)
Definition make (negative : bool) (n d : Z) : float :=
  if n =? 0 then Finite 0 0
  else
    let '(m, e) := round_ratio n d in
    if 2 ^ 1024 <=? m * 2 ^ Z.max 0 e then Infinity negative
    else Finite (if negative then - m else m) e.

(** [float(value)] for an [int], as every mixed operation converts its
    [int] operand. *)
Definition of_int (value : Z) : outcome float :=
  match make (value <? 0) (Z.abs value) 1 with
  | Finite m e => Return (Finite m e)
  | Infinity _ => Raise OverflowError
  end.

Definition mul (a b : float) : outcome float :=
  match a, b with
  | Finite m1 e1, Finite m2 e2 =>
    let e := e1 + e2 in
    Return (make (m1 * m2 <? 0) (Z.abs (m1 * m2) * 2 ^ Z.max 0 e) (2 ^ Z.max 0 (- e)))
  | _, _ => OutOfFragment
  end.



(** [int(x)]: truncation toward zero. *)
Definition to_int (x : float) : outcome Z :=
  match x with
  | Finite m e => Return (if 0 <=? e then m * 2 ^ e else Z.quot m (2 ^ (- e)))
  | Infinity _ => Raise OverflowError
  end.




(** The literals [0.1] and [1000.0]. *)
Definition lit_0_1 : float := Finite 3602879701896397 (-55).


End float.

(* ===================================================================== *)
(** ** Programs over the decimal context *)
(* ===================================================================== *)

(** [getcontext()] is one mutable object per thread; a piece of the program
    is a function of the context it finds to its result and the context it
    leaves. *)
Module prog.
Import decimal.

Definition Prog (A : Type) : Type := Context -> outcome (A * Context).

#[export] Instance Monad_Prog : Monad Prog :=
  {| ret := fun A (a : A) c => Return (a, c);
     mbind := fun A B (m : Prog A) (k : A -> Prog B) c =>
                py.bind (m c) (fun ac => k (fst ac) (snd ac)) |}.

(** An operation of the decimal module called without a context argument:
    it reads [getcontext()]. *)
Definition with_context {A} (f : Context -> outcome A) : Prog A :=
  fun c => py.bind (f c) (fun a => Return (a, c)).

Definition lift {A} (o : outcome A) : Prog A := with_context (fun _ => o).

(** [getcontext().prec = value]: a [ValueError] outside [1, MAX_PREC]. *)
Definition set_prec (value : Z) : Prog unit :=
  fun _ =>
    if (value <? 1) || (MAX_PREC <? value)
    then Raise (ValueError "valid range for prec is [1, MAX_PREC]")
    else Return (tt, {| prec := value |}).

Definition out_of_fuel {A} : Prog A := fun _ => OutOfFuel.

End prog.
Import decimal prog.

Notation "a '+d' b" := (with_context (fun c => __add__ c a b))
  (at level 50, left associativity).
Notation "a '-d' b" := (with_context (fun c => __sub__ c a b))
  (at level 50, left associativity).
Notation "a '*d' b" := (with_context (fun c => __mul__ c a b))
  (at level 40, left associativity).
Notation "a '/d' b" := (with_context (fun c => __truediv__ c a b))
  (at level 40, left associativity).

(* ===================================================================== *)
(** ** The program: Pi by Machin's formula *)
(* ===================================================================== *)

(** The [while True] loop of [arctan]; [fuel] bounds the iterations. *)
Fixpoint arctan_loop (fuel : nat) (scale : Z)
    (x_squared result term divisor : Decimal) : Prog Decimal :=
  match fuel with
  | O => out_of_fuel
  | S fuel' =>
    divisor <- divisor +d of_int 2 ;;
    minus_x_squared <- x_squared *d of_int (-1) ;;
    term <- term *d minus_x_squared ;;
    term_to_add <- term /d divisor ;;
    magnitude <- with_context (fun c => __abs__ c term_to_add) ;;
    threshold <- lift (of_string ("1e-" ++ pystr.str scale)) ;;
    if __lt__ magnitude threshold then ret result
    else
      result <- result +d term_to_add ;;
      arctan_loop fuel' scale x_squared result term divisor
  end.

(** [arctan(x_inv_str, scale)]. *)
Definition arctan (fuel : nat) (x_inv_str : string) (scale : Z) : Prog Decimal :=
  set_prec scale ;;;
  x_inv <- lift (of_string x_inv_str) ;;
  x <- of_int 1 /d x_inv ;;
  x_squared <- x *d x ;;
  arctan_loop fuel scale x_squared x x (of_int 1).

(** [calculate_pi(digits)]. *)
Definition calculate_pi (fuel : nat) (digits : Z) : Prog Decimal :=
  let scale := digits + 10 in
  set_prec scale ;;;
  term1 <- arctan fuel "5" scale ;;
  term2 <- arctan fuel "239" scale ;;
  a <- term1 *d of_int 16 ;;
  b <- term2 *d of_int 4 ;;
  pi <- a -d b ;;
  set_prec digits ;;;
  with_context (fun c => __pos__ c pi).

(* ===================================================================== *)
(** ** The program: the benchmark harness *)
(* ===================================================================== *)

Module harness.

(** The report line: the values the f-string of [main] formats. *)
Record Report : Type := mkReport {
  r_digits : Z;
  r_reps_per_thread : Z;
  r_threads : Z;
  r_total_time_ms : float.float;
  r_calc_per_sec : float.float
}.

(** What [main] reads and writes: the two output streams, the readings
    [time.perf_counter()] gives and how many were taken, the decimal context
    of the main process, and a record of every call of [calculate_pi]: its
    argument and the number of clock readings taken before it (0 before the
    timer starts, 1 in the timed region). *)
Record World : Type := mkWorld {
  stdout : list Report;
  stderr : list string;
  clock : nat -> float.float;
  ticks : nat;
  context : Context;
  calls : list (nat * Z)
}.

Definition IO (A : Type) : Type := World -> outcome A * World.

#[export] Instance Monad_IO : Monad IO :=
  {| ret := fun A (a : A) w => (Return a, w);
     mbind := fun A B (m : IO A) (k : A -> IO B) w =>
                match m w with
                | (Return a, w') => k a w'
                | (Raise e, w') => (Raise e, w')
                | (OutOfFuel, w') => (OutOfFuel, w')
                | (OutOfFragment, w') => (OutOfFragment, w')
                end |}.






Definition record_calls (arguments : list Z) : IO unit :=
  fun w => (Return tt,
            {| stdout := stdout w; stderr := stderr w;
               clock := clock w; ticks := ticks w;
               context := context w;
               calls := calls w ++ map (pair (ticks w)) arguments |}).

(** Code of the main process that uses the decimal context. *)
Definition in_main {A} (p : Prog A) : IO A :=
  fun w =>
    match p (context w) with
    | Return (a, c) =>
      (Return a,
       {| stdout := stdout w; stderr := stderr w;
          clock := clock w; ticks := ticks w;
          context := c; calls := calls w |})
    | Raise e => (Raise e, w)
    | OutOfFuel => (OutOfFuel, w)
    | OutOfFragment => (OutOfFragment, w)
    end.

(** A call of [calculate_pi] in the main process. *)
Definition call_calculate_pi (fuel : nat) (digits : Z) : IO Decimal :=
  record_calls [digits] ;;;
  in_main (calculate_pi fuel digits).


(** [pool.map(calculate_pi, tasks)]. Each task runs in a worker process,
    on the context of that process; the context of the main process is not
    touched. The tasks are run here one after the other on one worker
    context, which starts as a copy of the main one. An exception of a task
    is raised again in the main process. *)
Fixpoint worker_run (fuel : nat) (tasks : list Z) (worker : Context)
    : outcome (list Decimal) :=
  match tasks with
  | [] => Return []
  | digits :: tasks' =>
    ' (pi, worker') <- calculate_pi fuel digits worker ;;
    results <- worker_run fuel tasks' worker' ;;
    ret (pi :: results)
  end.

Definition pool_map (fuel : nat) (tasks : list Z) : IO (list Decimal) :=
  record_calls tasks ;;;
  fun w => (worker_run fuel tasks (context w), w).

(** The [try] block of [main]: the three [int()] calls and the test. *)
Definition parse_arguments (argv : list string) : outcome (Z * Z * Z) :=
  digits <- pystr.int (nth 1%nat argv EmptyString) ;;
  reps_per_thread <- pystr.int (nth 2%nat argv EmptyString) ;;
  num_processes <- pystr.int (nth 3%nat argv EmptyString) ;;
  if (digits <=? 0) || (reps_per_thread <=? 0) || (num_processes <=? 0)
  then Raise (ValueError "Inputs must be positive integers.")
  else ret (digits, reps_per_thread, num_processes).

(** [max(1, int(reps_per_thread * 0.1))]. *)
Definition warm_up_reps (reps_per_thread : Z) : outcome Z :=
  as_float <- float.of_int reps_per_thread ;;
  tenth <- float.mul as_float float.lit_0_1 ;;
  whole <- float.to_int tenth ;;
  ret (Z.max 1 whole).



End harness.
Import (hints) harness.

(* ===================================================================== *)
(** ** The algorithm in the words of the specification *)
(* ===================================================================== *)

(** The specification describes a Decimal Engine whose operations take the
    working precision as an argument, a series evaluator and a Pi
    calculator over it. These definitions follow its sentences; the
    theorems compare them with the program. *)
Module spec.

(** Decimal Engine: the working precision [P] is a parameter of every
    rounding operation. *)
Definition add (P : Z) (a b : Decimal) : outcome Decimal :=
  __add__ {| prec := P |} a b.
Definition subtract (P : Z) (a b : Decimal) : outcome Decimal :=
  __sub__ {| prec := P |} a b.
Definition multiply (P : Z) (a b : Decimal) : outcome Decimal :=
  __mul__ {| prec := P |} a b.
Definition divide (P : Z) (a b : Decimal) : outcome Decimal :=
  __truediv__ {| prec := P |} a b.
(** Re-rounding a value to [P] significant digits. *)
Definition round_to (P : Z) (a : Decimal) : outcome Decimal :=
  __pos__ {| prec := P |} a.
(** [abs], negation and [compare] (less-than) are exact and take no
    precision. *)
Definition abs (a : Decimal) : Decimal := copy_abs a.
Definition negate (a : Decimal) : Decimal := copy_negate a.
Definition less_than (a b : Decimal) : bool := __lt__ a b.
(** [10^(-scale)]. *)
Definition ten_to_minus (scale : Z) : Decimal :=
  {| d_sign := false; d_int := 1; d_exp := - scale |}.

(** "Loop: divisor += 2; term = term × (−x²); termToAdd = term / divisor;
    if |termToAdd| < 10^(−scale), stop without adding it; otherwise
    result += termToAdd and continue." *)
Fixpoint series (fuel : nat) (scale : Z)
    (minus_x_squared term result divisor : Decimal) : outcome Decimal :=
  match fuel with
  | O => OutOfFuel
  | S fuel' =>
    divisor <- add scale divisor (of_int 2) ;;
    term <- multiply scale term minus_x_squared ;;
    termToAdd <- divide scale term divisor ;;
    if less_than (abs termToAdd) (ten_to_minus scale) then ret result
    else
      result <- add scale result termToAdd ;;
      series fuel' scale minus_x_squared term result divisor
  end.

(** "let x = 1/b (Decimal, precision = scale). term initialized to x,
    result initialized to x, divisor initialized to 1." *)
Definition arctanSeries (fuel : nat) (b scale : Z) : outcome Decimal :=
  x <- divide scale (of_int 1) (of_int b) ;;
  x_squared <- multiply scale x x ;;
  series fuel scale (negate x_squared) x x (of_int 1).

(** "scale = digits + 10; t1 = arctanSeries(5, scale),
    t2 = arctanSeries(239, scale); pi = t1×16 − t2×4, still at precision
    scale; re-round pi to exactly digits significant digits." *)
Definition computePi (fuel : nat) (digits : Z) : outcome Decimal :=
  let scale := digits + 10 in
  t1 <- arctanSeries fuel 5 scale ;;
  t2 <- arctanSeries fuel 239 scale ;;
  t1_16 <- multiply scale t1 (of_int 16) ;;
  t2_4 <- multiply scale t2 (of_int 4) ;;
  pi <- subtract scale t1_16 t2_4 ;;
  round_to digits pi.


End spec.

(* ===================================================================== *)
(** ** One iteration of the series loop *)
(* ===================================================================== *)

(** The variables the loop of [arctan] updates. *)
Record loop_state : Type := mkState {
  st_result : Decimal;
  st_term : Decimal;
  st_divisor : Decimal
}.

(** The body of the loop under the context [c], which it only reads: the
    value the loop breaks with, or the variables of the next iteration.
    [arctan_loop_body] relates it to [arctan_loop]. *)
Definition arctan_body (c : Context) (scale : Z) (x_squared : Decimal)
    (st : loop_state) : outcome (Decimal + loop_state) :=
  divisor <- __add__ c (st_divisor st) (of_int 2) ;;
  minus_x_squared <- __mul__ c x_squared (of_int (-1)) ;;
  term <- __mul__ c (st_term st) minus_x_squared ;;
  term_to_add <- __truediv__ c term divisor ;;
  magnitude <- __abs__ c term_to_add ;;
  threshold <- of_string ("1e-" ++ pystr.str scale) ;;
  if __lt__ magnitude threshold then ret (inl (st_result st))
  else
    result <- __add__ c (st_result st) term_to_add ;;
    ret (inr {| st_result := result; st_term := term; st_divisor := divisor |}).

(** The states of the loop: [reaches c scale x_squared st0 j st] when the
    loop started in [st0] enters its iteration number [j] (from 0) in [st]. *)
Inductive reaches (c : Context) (scale : Z) (x_squared : Decimal)
    (st0 : loop_state) : nat -> loop_state -> Prop :=
| reaches_start : reaches c scale x_squared st0 O st0
| reaches_next (j : nat) (st st' : loop_state) :
    reaches c scale x_squared st0 j st ->
    arctan_body c scale x_squared st = Return (inr st') ->
    reaches c scale x_squared st0 (S j) st'.

(** The variables of [arctan] when the loop starts. *)
Definition arctan_start (c : Context) (x_inv : Decimal)
    : outcome (Decimal * loop_state) :=
  x <- __truediv__ c (of_int 1) x_inv ;;
  x_squared <- __mul__ c x x ;;
  ret (x_squared, {| st_result := x; st_term := x; st_divisor := of_int 1 |}).

(* ===================================================================== *)
(** ** Magnitudes and numbers that fit a context *)
(* ===================================================================== *)

(** [c1 * 10^e1 <= c2 * 10^e2], on integers. *)
Definition vle (c1 e1 c2 e2 : Z) : Prop :=
  c1 * 10 ^ (e1 - Z.min e1 e2) <= c2 * 10 ^ (e2 - Z.min e1 e2).

(** [|a| <= |g|]. *)
Definition mag_le (a g : Decimal) : Prop :=
  vle (d_int a) (d_exp a) (d_int g) (d_exp g).

(** A number the context holds as it is: [_fix] returns it unchanged. *)
Definition canonical (context : Context) (a : Decimal) : Prop :=
  0 <= d_int a /\ Etiny context <= d_exp a /\
  (d_int a = 0 -> d_exp a <= Emax) /\
  (d_int a <> 0 -> ndigits (d_int a) <= prec context /\ adjusted a <= Emax).

(** The number [__truediv__] hands to [_fix], for nonzero operands. *)
Definition quotient (context : Context) (a b : Decimal) : Z * Z :=
  let shift := ndigits (d_int b) - ndigits (d_int a) + prec context + 1 in
  let exp := d_exp a - d_exp b - shift in
  let num := if 0 <=? shift then d_int a * 10 ^ shift else d_int a in
  let den := if 0 <=? shift then d_int b else d_int b * 10 ^ (- shift) in
  if negb (num mod den =? 0) then
    (if (num / den) mod 5 =? 0 then num / den + 1 else num / den, exp)
  else
    strip_zeros (Z.to_nat (d_exp a - d_exp b - exp)) (num / den) exp
                (d_exp a - d_exp b).

(** [|a| + |b| <= |g|]. *)
Definition sum_le (a b g : Decimal) : Prop :=
  let k := Z.min (d_exp a) (Z.min (d_exp b) (d_exp g)) in
  d_int a * 10 ^ (d_exp a - k) + d_int b * 10 ^ (d_exp b - k)
    <= d_int g * 10 ^ (d_exp g - k).

(** The digits of a number: all digits, at least one, and they spell it. *)
Definition digit_string (ds : list ascii) (n : Z) : Prop :=
  ds <> [] /\ Forall (fun c => pystr.is_digit c = true) ds /\
  Forall (fun c => pystr.is_space c = false) ds /\
  Forall (fun c => (pystr.code c =? 95) = false) ds /\
  pystr.int_of_digits ds = n.

(* ===================================================================== *)
(** ** The invariant of the series loop *)
(* ===================================================================== *)

(** [c * 10^m], as a [Decimal]. *)
Definition sci (c m : Z) : Decimal := {| d_sign := false; d_int := c; d_exp := m |}.

(** [1 - 10^-(j+1)]: the bound on the partial sums. *)
Definition sum_bound (j : Z) : Decimal := sci (10 ^ (j + 1) - 1) (- (j + 1)).

(** When the loop enters iteration [j] (from 0): the divisor is the integer
    [2j+1], the term is at most [10^-j], the partial sum below 1, and
    the precision has room for [j+1] digits. *)
Definition series_inv (c : Context) (j : Z) (st : loop_state) : Prop :=
  0 <= j /\ j + 1 <= prec c /\
  st_divisor st = sci (2 * j + 1) 0 /\
  canonical c (st_term st) /\ mag_le (st_term st) (sci 1 (- j)) /\
  canonical c (st_result st) /\ mag_le (st_result st) (sum_bound j).

(* ===================================================================== *)
(** ** The process after calls of [calculate_pi] *)
(* ===================================================================== *)

(** The main process after [n] calls of [calculate_pi(digits)] that
    returned: the calls are on record, and from the first call on the
    context holds the precision [digits]. *)
Definition after_calls (digits : Z) (n : nat) (w : harness.World) : harness.World :=
  match n with
  | O => w
  | S _ =>
    {| harness.stdout := harness.stdout w; harness.stderr := harness.stderr w;
       harness.clock := harness.clock w; harness.ticks := harness.ticks w;
       harness.context := {| prec := digits |};
       harness.calls := harness.calls w ++ repeat (harness.ticks w, digits) n |}
  end.

(** A process that has printed nothing and called nothing, with the
    context of a fresh interpreter, whose clock reads 1.0, 2.0, ... *)
Definition fresh_process : harness.World :=
  {| harness.stdout := []; harness.stderr := [];
     harness.clock := fun n => float.Finite (Z.of_nat n + 1) 0;
     harness.ticks := 0;
     harness.context := DefaultContext;
     harness.calls := [] |}.


(* ===================================================================== *)
(** ** Decimal numbers as real numbers *)
(* ===================================================================== *)

(** The real number a finite [Decimal] denotes:
    [(-1)^sign * int * 10^exp]. *)
Definition p10 (k : Z) : R := powerRZ 10 k.
Definition mag_R (a : Decimal) : R := IZR (d_int a) * p10 (d_exp a).
Definition sgn_R (sign : bool) : R := if sign then (-1)%R else 1%R.
Definition to_R (a : Decimal) : R := sgn_R (d_sign a) * mag_R a.

(** The partial sums of the series of the arctangent,
    [x - x^3/3 + ... + (-1)^n x^(2n+1)/(2n+1)], and its terms before the
    division, as real numbers. *)
Definition atan_sum (x : R) (n : nat) : R := sum_f_R0 (tg_alt (Ratan_seq x)) n.
Definition atan_term (x : R) (n : nat) : R := ((-1) ^ n * x ^ (2 * n + 1))%R.

(** The values of the variables when the loop enters iteration [j], with
    [u] the unit of the last but one digit: the term is within [2u] of the
    term of the series, the partial sum within [(3j + 1) u] of the partial
    sum of the series. *)
Definition value_inv (x u : R) (j : nat) (st : loop_state) : Prop :=
  (Rabs (to_R (st_term st) - atan_term x j) <= 2 * u)%R /\
  (Rabs (to_R (st_result st) - atan_sum x j) <= (3 * INR j + 1) * u)%R.

(* ===================================================================== *)
(** * Facts *)
(* ===================================================================== *)

(** ** Powers of ten and digit counts *)

Lemma pow10_pos (k : Z) : 0 <= k -> 0 < 10 ^ k.
Proof. intros. apply Z.pow_pos_nonneg; lia. Qed.

Lemma pow10_nonneg (k : Z) : 0 <= 10 ^ k.
Proof. apply Z.pow_nonneg; lia. Qed.

Lemma pow10_ge_1 (k : Z) : 0 <= k -> 1 <= 10 ^ k.
Proof. intros. pose proof (pow10_pos k); lia. Qed.

Lemma pow10_add (a b : Z) : 0 <= a -> 0 <= b -> 10 ^ (a + b) = 10 ^ a * 10 ^ b.
Proof. intros. apply Z.pow_add_r; lia. Qed.

Lemma pow10_succ (k : Z) : 0 <= k -> 10 ^ (k + 1) = 10 * 10 ^ k.
Proof. intros. rewrite pow10_add by lia. change (10 ^ 1) with 10. lia. Qed.

Lemma pow10_split (a b : Z) : 0 <= b <= a -> 10 ^ a = 10 ^ (a - b) * 10 ^ b.
Proof. intros. rewrite <- pow10_add by lia. f_equal. lia. Qed.

Lemma pow10_le (a b : Z) : a <= b -> 10 ^ a <= 10 ^ b.
Proof. intros. apply Z.pow_le_mono_r; lia. Qed.

Lemma pow10_lt (a b : Z) : 0 <= b -> a < b -> 10 ^ a < 10 ^ b.
Proof. intros. apply Z.pow_lt_mono_r; lia. Qed.

Lemma pow10_lt_inv (a b : Z) : 0 <= a -> 10 ^ a < 10 ^ b -> a < b.
Proof.
  intros Ha H. destruct (Z_lt_le_dec a b) as [|Hle]; [assumption|].
  pose proof (pow10_le b a Hle). lia.
Qed.

Lemma pow10_le_inv (a b : Z) : 0 <= a -> 10 ^ a <= 10 ^ b -> a <= b.
Proof.
  intros Ha H. destruct (Z_le_gt_dec a b) as [|Hgt]; [assumption|].
  assert (b < 0 \/ 0 <= b) as [Hb|Hb] by lia.
  - rewrite (Z.pow_neg_r 10 b Hb) in H. pose proof (pow10_pos a Ha). lia.
  - pose proof (pow10_lt b a Ha ltac:(lia)). lia.
Qed.

Lemma ndigits_aux_pos (fuel : nat) (c : Z) : 1 <= ndigits_aux fuel c.
Proof.
  revert c. induction fuel as [|fuel IH]; intros c; cbn [ndigits_aux]; [lia|].
  destruct (c <? 10); [lia|]. specialize (IH (c / 10)). lia.
Qed.

Lemma ndigits_aux_spec (fuel : nat) (c : Z) :
  0 < c < 2 ^ Z.of_nat fuel ->
  10 ^ (ndigits_aux fuel c - 1) <= c < 10 ^ ndigits_aux fuel c.
Proof.
  revert c. induction fuel as [|fuel IH]; intros c Hc.
  - simpl in Hc. lia.
  - cbn [ndigits_aux]. destruct (Z.ltb_spec c 10) as [Hlt|Hge].
    + change (10 ^ (1 - 1)) with 1. change (10 ^ 1) with 10. lia.
    + assert (Hq : 0 < c / 10 < 2 ^ Z.of_nat fuel).
      { split.
        - apply Z.div_str_pos. lia.
        - apply Z.div_lt_upper_bound; [lia|].
          rewrite Nat2Z.inj_succ, Z.pow_succ_r in Hc by lia. lia. }
      specialize (IH _ Hq).
      pose proof (ndigits_aux_pos fuel (c / 10)) as Hn.
      set (n := ndigits_aux fuel (c / 10)) in *.
      replace (1 + n - 1) with (n - 1 + 1) by lia.
      replace (1 + n) with (n + 1) by lia.
      rewrite !pow10_succ by lia.
      pose proof (Z.div_mod c 10 ltac:(lia)).
      pose proof (Z.mod_pos_bound c 10 ltac:(lia)). lia.
Qed.

Lemma ndigits_pos (c : Z) : 1 <= ndigits c.
Proof. apply ndigits_aux_pos. Qed.

Lemma ndigits_spec (c : Z) :
  0 < c -> 10 ^ (ndigits c - 1) <= c < 10 ^ ndigits c.
Proof.
  intros Hc. apply ndigits_aux_spec. split; [assumption|].
  pose proof (Z.log2_nonneg c).
  rewrite Nat2Z.inj_succ, Z2Nat.id by assumption.
  apply Z.log2_spec. assumption.
Qed.

Lemma ndigits_0 : ndigits 0 = 1.
Proof. reflexivity. Qed.

Lemma ndigits_unique (c k : Z) :
  0 < c -> 10 ^ (k - 1) <= c < 10 ^ k -> ndigits c = k.
Proof.
  intros Hc [Hlo Hhi]. pose proof (ndigits_spec c Hc) as [Hlo' Hhi'].
  pose proof (ndigits_pos c).
  assert (0 <= k).
  { destruct (Z_lt_le_dec k 0) as [Hk|]; [|assumption].
    rewrite Z.pow_neg_r in Hhi by assumption. lia. }
  assert (ndigits c - 1 < k) by (apply pow10_lt_inv; lia).
  assert (k - 1 < ndigits c).
  { destruct (Z_lt_le_dec (k - 1) 0); [lia|]. apply pow10_lt_inv; lia. }
  lia.
Qed.

Lemma ndigits_le (c k : Z) : 1 <= k -> 0 <= c < 10 ^ k -> ndigits c <= k.
Proof.
  intros Hk [Hc Hlt]. destruct (Z.eq_dec c 0) as [->|Hnz].
  - rewrite ndigits_0. assumption.
  - pose proof (ndigits_spec c ltac:(lia)) as [Hlo _].
    assert (ndigits c - 1 < k) by (pose proof (ndigits_pos c); apply pow10_lt_inv; lia).
    lia.
Qed.

Lemma ndigits_ge (c k : Z) : 10 ^ (k - 1) <= c -> 0 < c -> k <= ndigits c.
Proof.
  intros Hlo Hc. pose proof (ndigits_spec c Hc) as [_ Hhi].
  pose proof (ndigits_pos c).
  destruct (Z_lt_le_dec (k - 1) 0); [lia|].
  assert (k - 1 < ndigits c) by (apply pow10_lt_inv; lia). lia.
Qed.

Lemma ndigits_pow10 (k : Z) : 0 <= k -> ndigits (10 ^ k) = k + 1.
Proof.
  intros Hk. apply ndigits_unique.
  - apply pow10_pos; assumption.
  - replace (k + 1 - 1) with k by lia. split; [lia|]. apply pow10_lt; lia.
Qed.

Lemma ndigits_small (c : Z) : 0 <= c < 10 -> ndigits c = 1.
Proof.
  intros Hc. destruct (Z.eq_dec c 0) as [->|]; [reflexivity|].
  apply ndigits_unique; simpl; lia.
Qed.

(** ** The order on magnitudes *)

Lemma vle_at (k c1 e1 c2 e2 : Z) :
  k <= e1 -> k <= e2 ->
  (vle c1 e1 c2 e2 <-> c1 * 10 ^ (e1 - k) <= c2 * 10 ^ (e2 - k)).
Proof.
  intros H1 H2. unfold vle. set (m := Z.min e1 e2).
  assert (Hm : k <= m) by (unfold m; lia).
  assert (m <= e1 /\ m <= e2) as [Hm1 Hm2] by (unfold m; lia).
  replace (e1 - k) with ((e1 - m) + (m - k)) by lia.
  replace (e2 - k) with ((e2 - m) + (m - k)) by lia.
  rewrite !pow10_add by lia.
  pose proof (pow10_pos (m - k) ltac:(lia)) as Hp.
  rewrite !Z.mul_assoc. split; intros H.
  - apply Z.mul_le_mono_nonneg_r; lia.
  - apply Z.mul_le_mono_pos_r in H; assumption.
Qed.

Lemma vle_refl (c e : Z) : vle c e c e.
Proof. unfold vle. lia. Qed.

Lemma vle_trans (c1 e1 c2 e2 c3 e3 : Z) :
  vle c1 e1 c2 e2 -> vle c2 e2 c3 e3 -> vle c1 e1 c3 e3.
Proof.
  intros H12 H23. set (k := Z.min e1 (Z.min e2 e3)).
  apply (vle_at k) in H12; [|unfold k; lia..].
  apply (vle_at k) in H23; [|unfold k; lia..].
  apply (vle_at k); [unfold k; lia..|]. lia.
Qed.

Lemma vle_zero_l (e c2 e2 : Z) : 0 <= c2 -> vle 0 e c2 e2.
Proof.
  intros. unfold vle. pose proof (pow10_nonneg (e2 - Z.min e e2)). nia.
Qed.

(** A nonzero magnitude below another: the other is nonzero and has at
    least the same adjusted exponent. *)
Lemma vle_adjusted (c1 e1 c2 e2 : Z) :
  0 < c1 -> 0 <= c2 -> vle c1 e1 c2 e2 ->
  0 < c2 /\ e1 + ndigits c1 <= e2 + ndigits c2.
Proof.
  intros H1 H2 H. unfold vle in H. set (k := Z.min e1 e2) in *.
  assert (k <= e1 /\ k <= e2) as [Hk1 Hk2] by (unfold k; lia).
  pose proof (pow10_pos (e1 - k) ltac:(lia)) as Hp1.
  pose proof (pow10_pos (e2 - k) ltac:(lia)) as Hp2.
  assert (Hc2 : 0 < c2) by nia.
  split; [assumption|].
  pose proof (ndigits_spec c1 H1) as [Hlo _].
  pose proof (ndigits_spec c2 Hc2) as [_ Hhi].
  pose proof (ndigits_pos c1). pose proof (ndigits_pos c2).
  assert (Hlt : 10 ^ (ndigits c1 - 1 + (e1 - k)) < 10 ^ (ndigits c2 + (e2 - k))).
  { rewrite !pow10_add by lia. nia. }
  apply pow10_lt_inv in Hlt; lia.
Qed.

Lemma mag_le_adjusted (a g : Decimal) :
  0 < d_int a -> 0 <= d_int g -> mag_le a g ->
  0 < d_int g /\ adjusted a <= adjusted g.
Proof.
  intros Ha Hg H. destruct (vle_adjusted _ _ _ _ Ha Hg H). unfold adjusted. lia.
Qed.

(** ** Rounding *)

Lemma kept_bounds (c keep : Z) :
  0 <= c -> 0 < ndigits c - keep ->
  0 <= kept c keep /\
  kept c keep * 10 ^ (ndigits c - keep) <= c
    < (kept c keep + 1) * 10 ^ (ndigits c - keep).
Proof.
  intros Hc Hd. unfold kept. set (p := 10 ^ (ndigits c - keep)).
  assert (Hp : 0 < p) by (apply pow10_pos; lia).
  pose proof (Z.div_mod c p ltac:(lia)).
  pose proof (Z.mod_pos_bound c p Hp).
  pose proof (Z.div_pos c p Hc Hp). nia.
Qed.

Lemma round_up_inexact (c keep : Z) :
  0 < ndigits c - keep -> 0 < _round_half_even c keep ->
  kept c keep * 10 ^ (ndigits c - keep) < c.
Proof.
  intros Hd Hch. unfold kept.
  set (p := 10 ^ (ndigits c - keep)).
  assert (Hp : 0 < p) by (apply pow10_pos; lia).
  assert (Hr : 0 < c mod p).
  { unfold _round_half_even, _round_half_up, dropped, half in Hch. fold p in Hch.
    pose proof (pow10_pos (ndigits c - keep - 1) ltac:(lia)).
    destruct ((c mod p =? 5 * 10 ^ (ndigits c - keep - 1)) && Z.even (kept c keep));
      [lia|].
    destruct (Z.leb_spec (5 * 10 ^ (ndigits c - keep - 1)) (c mod p)); [lia|].
    destruct (c mod p =? 0); lia. }
  pose proof (Z.div_mod c p ltac:(lia)). nia.
Qed.

Lemma Etiny_le_Etop (context : Context) : Etiny context <= Etop context.
Proof. unfold Etiny, Etop, Emin, Emax. lia. Qed.

Lemma Etop_le_Emax (context : Context) : 1 <= prec context -> Etop context <= Emax.
Proof. unfold Etop. lia. Qed.

Lemma canonical_fix (context : Context) (a : Decimal) :
  1 <= prec context -> canonical context a -> _fix context a = Return a.
Proof.
  intros Hp (Hc & He & Hz & Hnz). unfold _fix, is_zero.
  destruct (Z.eqb_spec (d_int a) 0) as [H0|H0].
  - specialize (Hz H0). destruct a as [s c e]; simpl in *. subst c.
    f_equal. f_equal. unfold Etiny, Emin, Emax in *. lia.
  - destruct (Hnz H0) as [Hn Ha]. unfold adjusted in Ha.
    destruct (Z.ltb_spec (Etop context) (ndigits (d_int a) + d_exp a - prec context));
      [unfold Etop in *; lia|].
    destruct (Z.ltb_spec (ndigits (d_int a) + d_exp a - prec context) (Etiny context)).
    + destruct (Z.ltb_spec (d_exp a) (Etiny context)); [lia|reflexivity].
    + destruct (Z.ltb_spec (d_exp a) (ndigits (d_int a) + d_exp a - prec context));
        [lia|reflexivity].
Qed.

(** [_fix] never moves a magnitude above a number the context holds: it
    does not overflow below such a bound, and its result fits the context. *)
Lemma fix_le (context : Context) (a g : Decimal) :
  1 <= prec context -> 0 <= d_int a -> canonical context g -> mag_le a g ->
  exists a', _fix context a = Return a' /\ d_sign a' = d_sign a /\
             canonical context a' /\ mag_le a' g.
Proof.
  intros Hp Hc Hg Hle.
  pose proof Hg as (Hgc & Hge & Hgz & Hgnz).
  pose proof (Etiny_le_Etop context) as Htt.
  pose proof (Etop_le_Emax context Hp) as Hte.
  unfold _fix, is_zero.
  destruct (Z.eqb_spec (d_int a) 0) as [H0|H0].
  { (* zero *)
    eexists; split; [reflexivity|]. split; [reflexivity|]. split.
    - unfold canonical; simpl. repeat split; try lia.
    - unfold mag_le; simpl. apply vle_zero_l; assumption. }
  assert (Hpos : 0 < d_int a) by lia.
  destruct (mag_le_adjusted a g Hpos Hgc Hle) as [Hgpos Hadj].
  destruct (Hgnz ltac:(lia)) as [Hgn Hga].
  set (nd := ndigits (d_int a)) in *.
  pose proof (ndigits_pos (d_int a)) as Hnd. fold nd in Hnd.
  assert (Hadj_a : d_exp a + nd - 1 <= Emax) by (unfold adjusted in *; fold nd in Hadj; lia).
  destruct (Z.ltb_spec (Etop context) (nd + d_exp a - prec context)) as [Hov|Hov];
    [unfold Etop in Hov; lia|].
  set (exp_min := if nd + d_exp a - prec context <? Etiny context
                  then Etiny context else nd + d_exp a - prec context).
  assert (Hem : exp_min = Z.max (nd + d_exp a - prec context) (Etiny context)).
  { unfold exp_min. destruct (Z.ltb_spec (nd + d_exp a - prec context) (Etiny context)); lia. }
  clearbody exp_min.
  destruct (Z.ltb_spec (d_exp a) exp_min) as [Hround|Hkeep].
  2:{ (* already fits *)
    exists a. split; [reflexivity|]. split; [reflexivity|]. split; [|assumption].
    unfold canonical. repeat split; unfold adjusted; fold nd; lia. }
  (* rounding *)
  assert (Hgexp : exp_min <= d_exp g).
  { (* the bound is a multiple of the rounding unit *)
    destruct (Z_le_gt_dec exp_min (d_exp g)) as [|Hgt]; [assumption|exfalso].
    assert (exp_min = nd + d_exp a - prec context) by lia.
    pose proof (vle_adjusted _ _ _ _ Hpos Hgc Hle) as [_ Hx]. fold nd in Hx. lia. }
  destruct (Z.ltb_spec (nd + d_exp a - exp_min) 0) as [Hneg|Hnn].
  { (* fewer than zero digits kept: the result is zero *)
    change (_round_half_even 1 0) with (-1). change (kept 1 0) with 0.
    cbn [Z.ltb Z.compare andb].
    destruct (Z.ltb_spec (Etop context) exp_min); [lia|].
    eexists; split; [reflexivity|]. split; [reflexivity|]. split.
    - unfold canonical; simpl. repeat split; try lia.
    - unfold mag_le; simpl. apply vle_zero_l; assumption. }
  set (digits := nd + d_exp a - exp_min) in *.
  assert (Hd : ndigits (d_int a) - digits = exp_min - d_exp a) by (unfold digits; fold nd; lia).
  pose proof (kept_bounds (d_int a) digits Hc ltac:(lia)) as (Hq0 & Hqlo & Hqhi).
  pose proof (round_up_inexact (d_int a) digits ltac:(lia)) as Hup.
  rewrite Hd in Hqlo, Hqhi, Hup.
  set (q := kept (d_int a) digits) in *.
  set (changed := _round_half_even (d_int a) digits) in *.
  set (p := 10 ^ (exp_min - d_exp a)) in *.
  assert (Hppos : 0 < p) by (apply pow10_pos; lia).
  (* the bound, in units of the rounding position *)
  set (G := d_int g * 10 ^ (d_exp g - exp_min)).
  assert (HG : d_int a <= G * p).
  { apply (vle_at (d_exp a)) in Hle; [|lia..].
    replace (d_exp a - d_exp a) with 0 in Hle by lia.
    replace (d_exp g - d_exp a) with ((d_exp g - exp_min) + (exp_min - d_exp a)) in Hle by lia.
    rewrite pow10_add in Hle by lia. fold p in Hle. unfold G.
    change (10 ^ 0) with 1 in Hle. lia. }
  assert (HqG : q <= G) by nia.
  assert (HqG1 : 0 < changed -> q + 1 <= G).
  { intros Hch. specialize (Hup Hch). nia. }
  (* the kept digits are at most [prec] in number *)
  assert (Hdig : digits <= prec context) by (unfold digits; lia).
  assert (Hqlt : q < 10 ^ digits).
  { pose proof (ndigits_spec (d_int a) Hpos) as [_ Hhi]. fold nd in Hhi.
    replace nd with (digits + (exp_min - d_exp a)) in Hhi by (unfold digits; lia).
    rewrite pow10_add in Hhi by lia. fold p in Hhi. nia. }
  assert (Hqprec : q < 10 ^ prec context).
  { pose proof (pow10_le digits (prec context) Hdig). lia. }
  (* a result [c'] at exponent [e'] with the same value as a rounded
     coefficient at [exp_min] *)
  assert (Hfin : forall c' e',
             0 <= c' -> exp_min <= e' -> c' * 10 ^ (e' - exp_min) <= G ->
             ndigits c' <= prec context ->
             (e' = exp_min \/ (0 < c' /\ ndigits c' = prec context)) ->
             e' <= Etop context /\
             canonical context {| d_sign := d_sign a; d_int := c'; d_exp := e' |} /\
             mag_le {| d_sign := d_sign a; d_int := c'; d_exp := e' |} g).
  { intros c' e' Hc' He' Hval Hn Hz.
    assert (Hm : mag_le {| d_sign := d_sign a; d_int := c'; d_exp := e' |} g).
    { unfold mag_le; simpl. apply (vle_at exp_min); [lia..|]. exact Hval. }
    destruct (Z.eq_dec c' 0) as [->|Hc'nz].
    - split; [lia|]. split; [|assumption].
      unfold canonical; simpl. repeat split; try lia.
    - assert (Hc'pos : 0 < c') by lia.
      pose proof (mag_le_adjusted {| d_sign := d_sign a; d_int := c'; d_exp := e' |}
                    g Hc'pos Hgc Hm) as [_ Hadj'].
      unfold adjusted in Hadj'; simpl in Hadj'.
      pose proof (ndigits_pos c').
      assert (e' <= Etop context).
      { unfold adjusted in Hga. unfold Etop in *. lia. }
      split; [assumption|]. split; [|assumption].
      unfold canonical; simpl. repeat split; try lia.
      unfold adjusted; simpl. unfold adjusted in Hga. lia. }
  destruct (Z.ltb_spec 0 changed) as [Hch|Hch]; cbn [andb].
  - specialize (HqG1 Hch).
    destruct (Z.ltb_spec (prec context) (ndigits (q + 1))) as [Hb|Hb].
    + (* the carry adds a digit: q + 1 = 10^prec *)
      assert (Hq1 : q + 1 = 10 ^ prec context).
      { assert (10 ^ prec context <= q + 1); [|lia].
        destruct (Z_le_gt_dec (10 ^ prec context) (q + 1)); [assumption|].
        pose proof (ndigits_le (q + 1) (prec context) Hp ltac:(lia)). lia. }
      assert (Hdiv : (q + 1) / 10 = 10 ^ (prec context - 1)).
      { rewrite Hq1. rewrite (pow10_split (prec context) 1) by lia.
        change (10 ^ 1) with 10. apply Z.div_mul. lia. }
      rewrite Hdiv.
      pose proof (pow10_pos (prec context - 1) ltac:(lia)).
      destruct (Hfin (10 ^ (prec context - 1)) (exp_min + 1)) as (He' & Hcan & Hm);
        [lia|lia| | | |].
      * replace (exp_min + 1 - exp_min) with 1 by lia. change (10 ^ 1) with 10.
        rewrite (pow10_split (prec context) 1) in Hq1 by lia.
        change (10 ^ 1) with 10 in Hq1. lia.
      * rewrite ndigits_pow10 by lia. lia.
      * right. rewrite ndigits_pow10 by lia. lia.
      * destruct (Z.ltb_spec (Etop context) (exp_min + 1)); [lia|].
        eexists; split; [reflexivity|]. split; [reflexivity|]. split; assumption.
    + destruct (Hfin (q + 1) exp_min) as (He' & Hcan & Hm); [lia|lia| |lia|lia|].
      * replace (exp_min - exp_min) with 0 by lia. change (10 ^ 0) with 1. lia.
      * destruct (Z.ltb_spec (Etop context) exp_min); [lia|].
        eexists; split; [reflexivity|]. split; [reflexivity|]. split; assumption.
  - destruct (Hfin q exp_min) as (He' & Hcan & Hm); [lia|lia| | |lia|].
    + replace (exp_min - exp_min) with 0 by lia. change (10 ^ 0) with 1. lia.
    + apply ndigits_le; lia.
    + destruct (Z.ltb_spec (Etop context) exp_min); [lia|].
      eexists; split; [reflexivity|]. split; [reflexivity|]. split; assumption.
Qed.

(** What [_fix] returns fits the context. *)
Lemma fix_canonical (context : Context) (a a' : Decimal) :
  1 <= prec context -> 0 <= d_int a ->
  _fix context a = Return a' -> canonical context a' /\ d_sign a' = d_sign a.
Proof.
  intros Hp Hc.
  pose proof (Etiny_le_Etop context) as Htt.
  pose proof (Etop_le_Emax context Hp) as Hte.
  unfold _fix, is_zero.
  destruct (Z.eqb_spec (d_int a) 0) as [H0|H0].
  { intros [= <-]. split; [|reflexivity].
    unfold canonical; simpl. repeat split; lia. }
  assert (Hpos : 0 < d_int a) by lia.
  set (nd := ndigits (d_int a)) in *.
  pose proof (ndigits_pos (d_int a)) as Hnd. fold nd in Hnd.
  destruct (Z.ltb_spec (Etop context) (nd + d_exp a - prec context)) as [Hov|Hov];
    [discriminate|].
  set (exp_min := if nd + d_exp a - prec context <? Etiny context
                  then Etiny context else nd + d_exp a - prec context).
  assert (Hem : exp_min = Z.max (nd + d_exp a - prec context) (Etiny context)).
  { unfold exp_min. destruct (Z.ltb_spec (nd + d_exp a - prec context) (Etiny context)); lia. }
  clearbody exp_min.
  assert (Hfin : forall c' e',
             0 <= c' -> Etiny context <= e' <= Etop context ->
             ndigits c' <= prec context ->
             canonical context {| d_sign := d_sign a; d_int := c'; d_exp := e' |}).
  { intros c' e' Hc' He' Hn. unfold canonical, adjusted; simpl.
    unfold Etop in *. repeat split; lia. }
  destruct (Z.ltb_spec (d_exp a) exp_min) as [Hround|Hkeep].
  2:{ intros [= <-]. split; [|reflexivity].
      unfold canonical, adjusted. fold nd. unfold Etop in *. repeat split; lia. }
  destruct (Z.ltb_spec (nd + d_exp a - exp_min) 0) as [Hneg|Hnn].
  { change (_round_half_even 1 0) with (-1). change (kept 1 0) with 0.
    cbn [Z.ltb Z.compare andb].
    destruct (Z.ltb_spec (Etop context) exp_min); [discriminate|].
    intros [= <-]. split; [|reflexivity]. apply Hfin; [lia|lia|].
    rewrite ndigits_0. lia. }
  set (digits := nd + d_exp a - exp_min) in *.
  assert (Hd : ndigits (d_int a) - digits = exp_min - d_exp a) by (unfold digits; fold nd; lia).
  pose proof (kept_bounds (d_int a) digits Hc ltac:(lia)) as (Hq0 & Hqlo & Hqhi).
  rewrite Hd in Hqlo, Hqhi.
  set (q := kept (d_int a) digits) in *.
  set (changed := _round_half_even (d_int a) digits) in *.
  set (p := 10 ^ (exp_min - d_exp a)) in *.
  assert (Hppos : 0 < p) by (apply pow10_pos; lia).
  assert (Hdig : digits <= prec context) by (unfold digits; lia).
  assert (Hqlt : q < 10 ^ digits).
  { pose proof (ndigits_spec (d_int a) Hpos) as [_ Hhi]. fold nd in Hhi.
    replace nd with (digits + (exp_min - d_exp a)) in Hhi by (unfold digits; lia).
    rewrite pow10_add in Hhi by lia. fold p in Hhi. nia. }
  assert (Hqprec : q < 10 ^ prec context).
  { pose proof (pow10_le digits (prec context) Hdig). lia. }
  destruct (Z.ltb_spec 0 changed) as [Hch|Hch]; cbn [andb].
  - destruct (Z.ltb_spec (prec context) (ndigits (q + 1))) as [Hb|Hb].
    + assert (Hq1 : q + 1 = 10 ^ prec context).
      { assert (10 ^ prec context <= q + 1); [|lia].
        destruct (Z_le_gt_dec (10 ^ prec context) (q + 1)); [assumption|].
        pose proof (ndigits_le (q + 1) (prec context) Hp ltac:(lia)). lia. }
      assert (Hdiv : (q + 1) / 10 = 10 ^ (prec context - 1)).
      { rewrite Hq1. rewrite (pow10_split (prec context) 1) by lia.
        change (10 ^ 1) with 10. apply Z.div_mul. lia. }
      rewrite Hdiv.
      destruct (Z.ltb_spec (Etop context) (exp_min + 1)); [discriminate|].
      intros [= <-]. split; [|reflexivity]. apply Hfin.
      * apply pow10_nonneg.
      * lia.
      * rewrite ndigits_pow10 by lia. lia.
    + destruct (Z.ltb_spec (Etop context) exp_min); [discriminate|].
      intros [= <-]. split; [|reflexivity]. apply Hfin; lia.
  - destruct (Z.ltb_spec (Etop context) exp_min); [discriminate|].
    intros [= <-]. split; [|reflexivity]. apply Hfin; [lia|lia|].
    apply ndigits_le; lia.
Qed.

Lemma fix_idempotent (context : Context) (a a' : Decimal) :
  1 <= prec context -> 0 <= d_int a ->
  _fix context a = Return a' -> _fix context a' = Return a'.
Proof.
  intros Hp Hc H. apply canonical_fix; [assumption|].
  apply (fix_canonical context a a'); assumption.
Qed.

(** The sign plays no part in [_fix]. *)
Lemma canonical_sign (context : Context) (a : Decimal) (s : bool) :
  canonical context a ->
  canonical context {| d_sign := s; d_int := d_int a; d_exp := d_exp a |}.
Proof. intros H. exact H. Qed.

(** ** The operations *)

Lemma mul_fix (context : Context) (a b : Decimal) :
  __mul__ context a b =
  _fix context {| d_sign := xorb (d_sign a) (d_sign b);
                  d_int := d_int a * d_int b;
                  d_exp := d_exp a + d_exp b |}.
Proof.
  unfold __mul__, is_zero.
  destruct (Z.eqb_spec (d_int a) 0) as [Ha|Ha]; simpl.
  - rewrite Ha. reflexivity.
  - destruct (Z.eqb_spec (d_int b) 0) as [Hb|Hb]; [|reflexivity].
    rewrite Hb, Z.mul_0_r. reflexivity.
Qed.

Lemma mul_canonical (context : Context) (a b r : Decimal) :
  1 <= prec context -> 0 <= d_int a -> 0 <= d_int b ->
  __mul__ context a b = Return r ->
  canonical context r /\ d_sign r = xorb (d_sign a) (d_sign b).
Proof.
  intros Hp Ha Hb. rewrite mul_fix. intros H.
  apply fix_canonical in H; [exact H|assumption|simpl; nia].
Qed.

Lemma mul_le (context : Context) (a b g : Decimal) :
  1 <= prec context -> 0 <= d_int a -> 0 <= d_int b -> canonical context g ->
  vle (d_int a * d_int b) (d_exp a + d_exp b) (d_int g) (d_exp g) ->
  exists r, __mul__ context a b = Return r /\
            d_sign r = xorb (d_sign a) (d_sign b) /\
            canonical context r /\ mag_le r g.
Proof.
  intros Hp Ha Hb Hg Hle. rewrite mul_fix.
  apply fix_le; [assumption|simpl; nia|assumption|exact Hle].
Qed.

(** The product of two bounds bounds the product. *)
Lemma vle_mul (c1 e1 c2 e2 g1 x1 g2 x2 : Z) :
  0 <= c1 -> 0 <= c2 ->
  vle c1 e1 g1 x1 -> vle c2 e2 g2 x2 ->
  vle (c1 * c2) (e1 + e2) (g1 * g2) (x1 + x2).
Proof.
  intros H1 H2 Hl1 Hl2.
  set (k1 := Z.min e1 x1). set (k2 := Z.min e2 x2).
  assert (k1 <= e1 /\ k1 <= x1 /\ k2 <= e2 /\ k2 <= x2) as (? & ? & ? & ?)
    by (unfold k1, k2; lia).
  clearbody k1 k2.
  apply (vle_at k1) in Hl1; [|lia..].
  apply (vle_at k2) in Hl2; [|lia..].
  apply (vle_at (k1 + k2)); [lia..|].
  replace (e1 + e2 - (k1 + k2)) with ((e1 - k1) + (e2 - k2)) by lia.
  replace (x1 + x2 - (k1 + k2)) with ((x1 - k1) + (x2 - k2)) by lia.
  rewrite !pow10_add by lia.
  pose proof (pow10_nonneg (e1 - k1)). pose proof (pow10_nonneg (e2 - k2)).
  assert (0 <= c1 * 10 ^ (e1 - k1)) by nia.
  assert (0 <= c2 * 10 ^ (e2 - k2)) by nia.
  replace (c1 * c2 * (10 ^ (e1 - k1) * 10 ^ (e2 - k2)))
    with ((c1 * 10 ^ (e1 - k1)) * (c2 * 10 ^ (e2 - k2))) by ring.
  replace (g1 * g2 * (10 ^ (x1 - k1) * 10 ^ (x2 - k2)))
    with ((g1 * 10 ^ (x1 - k1)) * (g2 * 10 ^ (x2 - k2))) by ring.
  apply Z.mul_le_mono_nonneg; lia.
Qed.

(** Comparing two numbers given by digits: a decision procedure for
    concrete bounds. *)
Lemma vle_intro (c1 e1 c2 e2 k : Z) :
  k <= e1 -> k <= e2 -> c1 * 10 ^ (e1 - k) <= c2 * 10 ^ (e2 - k) ->
  vle c1 e1 c2 e2.
Proof. intros H1 H2 H. apply (vle_at k); assumption. Qed.

Lemma ndigits_mul_le (x y : Z) :
  0 < x -> 0 < y -> ndigits (x * y) <= ndigits x + ndigits y.
Proof.
  intros Hx Hy.
  pose proof (ndigits_spec x Hx) as [_ Hx'].
  pose proof (ndigits_spec y Hy) as [_ Hy'].
  pose proof (ndigits_pos x). pose proof (ndigits_pos y).
  apply ndigits_le; [lia|]. rewrite pow10_add by lia. nia.
Qed.

Lemma strip_zeros_spec (rounds : nat) (coeff exp ideal_exp c' e' : Z) :
  0 <= coeff -> strip_zeros rounds coeff exp ideal_exp = (c', e') ->
  0 <= c' /\ exp <= e' /\ c' * 10 ^ (e' - exp) = coeff.
Proof.
  revert coeff exp. induction rounds as [|rounds IH]; intros coeff exp Hc; cbn [strip_zeros].
  - intros [= <- <-]. replace (exp - exp) with 0 by lia. change (10 ^ 0) with 1. lia.
  - destruct (exp <? ideal_exp); cbn [andb].
    2:{ intros [= <- <-]. replace (exp - exp) with 0 by lia. change (10 ^ 0) with 1. lia. }
    destruct (Z.eqb_spec (coeff mod 10) 0) as [Hm|Hm].
    2:{ intros [= <- <-]. replace (exp - exp) with 0 by lia. change (10 ^ 0) with 1. lia. }
    intros H. apply IH in H; [|apply Z.div_pos; lia].
    destruct H as (H1 & H2 & H3). split; [assumption|]. split; [lia|].
    replace (e' - exp) with ((e' - (exp + 1)) + 1) by lia.
    rewrite pow10_succ by lia.
    pose proof (Z.div_mod coeff 10 ltac:(lia)). lia.
Qed.

Lemma truediv_fix (context : Context) (a b : Decimal) :
  d_int a <> 0 -> d_int b <> 0 ->
  __truediv__ context a b =
  _fix context {| d_sign := xorb (d_sign a) (d_sign b);
                  d_int := fst (quotient context a b);
                  d_exp := snd (quotient context a b) |}.
Proof.
  intros Ha Hb. unfold __truediv__, quotient, is_zero.
  destruct (Z.eqb_spec (d_int b) 0); [contradiction|].
  destruct (Z.eqb_spec (d_int a) 0); [contradiction|].
  cbv zeta.
  match goal with |- (let '(_, _) := ?p in _) = _ => destruct p end.
  reflexivity.
Qed.

Lemma quotient_le (context : Context) (a b g : Decimal) :
  1 <= prec context -> 0 < d_int a -> 0 < d_int b -> canonical context g ->
  vle (d_int a) (d_exp a) (d_int g * d_int b) (d_exp g + d_exp b) ->
  0 <= fst (quotient context a b) /\
  vle (fst (quotient context a b)) (snd (quotient context a b)) (d_int g) (d_exp g).
Proof.
  intros Hp Ha Hb Hg Hle.
  pose proof Hg as (Hgc & Hge & Hgz & Hgnz).
  assert (Hgb : 0 <= d_int g * d_int b) by nia.
  destruct (vle_adjusted _ _ _ _ Ha Hgb Hle) as [Hgbpos Hadj].
  assert (Hgpos : 0 < d_int g) by nia.
  destruct (Hgnz ltac:(lia)) as [Hgn _].
  pose proof (ndigits_mul_le _ _ Hgpos Hb) as Hmul.
  unfold quotient.
  set (shift := ndigits (d_int b) - ndigits (d_int a) + prec context + 1) in *.
  set (exp := d_exp a - d_exp b - shift) in *.
  assert (Hexp : exp < d_exp g) by (unfold exp, shift; lia).
  set (num := if 0 <=? shift then d_int a * 10 ^ shift else d_int a).
  set (den := if 0 <=? shift then d_int b else d_int b * 10 ^ (- shift)).
  set (G := d_int g * 10 ^ (d_exp g - exp)).
  assert (Hnd : 0 <= num /\ 0 < den /\ num <= G * den).
  { unfold num, den, G. destruct (Z.leb_spec 0 shift) as [Hs|Hs].
    - pose proof (pow10_pos shift Hs). split; [nia|]. split; [lia|].
      apply (vle_at (d_exp a - shift)) in Hle; [|unfold exp in Hexp; lia..].
      replace (d_exp a - (d_exp a - shift)) with shift in Hle by lia.
      replace (d_exp g + d_exp b - (d_exp a - shift)) with (d_exp g - exp) in Hle
        by (unfold exp; lia).
      lia.
    - pose proof (pow10_pos (- shift) ltac:(lia)). split; [lia|]. split; [nia|].
      apply (vle_at (d_exp a)) in Hle; [|unfold exp in Hexp; lia..].
      replace (d_exp a - d_exp a) with 0 in Hle by lia. change (10 ^ 0) with 1 in Hle.
      replace (d_exp g + d_exp b - d_exp a) with ((d_exp g - exp) + (- shift)) in Hle
        by (unfold exp; lia).
      rewrite pow10_add in Hle by lia. lia. }
  destruct Hnd as (Hnum & Hden & HnG). clearbody num den.
  pose proof (Z.div_mod num den ltac:(lia)) as Hdm.
  pose proof (Z.mod_pos_bound num den Hden) as Hmb.
  assert (Hq0 : 0 <= num / den) by (apply Z.div_pos; lia).
  assert (HqG : num / den <= G) by nia.
  destruct (Z.eqb_spec (num mod den) 0) as [Hex|Hin]; cbn [negb].
  - (* exact *)
    destruct (strip_zeros _ _ _ _) as [c' e'] eqn:Hs.
    apply strip_zeros_spec in Hs; [|assumption].
    destruct Hs as (Hc' & He' & Hv). cbn [fst snd]. split; [assumption|].
    apply (vle_trans _ _ (num / den) exp).
    + apply (vle_intro _ _ _ _ exp); [lia..|].
      replace (exp - exp) with 0 by lia. change (10 ^ 0) with 1. lia.
    + apply (vle_intro _ _ _ _ exp); [lia..|].
      replace (exp - exp) with 0 by lia. change (10 ^ 0) with 1. fold G. lia.
  - (* inexact *)
    assert (HqG1 : num / den + 1 <= G) by nia.
    cbn [fst snd]. destruct (num / den mod 5 =? 0).
    + split; [lia|]. apply (vle_intro _ _ _ _ exp); [lia..|].
      replace (exp - exp) with 0 by lia. change (10 ^ 0) with 1. fold G. lia.
    + split; [lia|]. apply (vle_intro _ _ _ _ exp); [lia..|].
      replace (exp - exp) with 0 by lia. change (10 ^ 0) with 1. fold G. lia.
Qed.

Lemma quotient_nonneg (context : Context) (a b : Decimal) :
  0 < d_int a -> 0 < d_int b -> 0 <= fst (quotient context a b).
Proof.
  intros Ha Hb. unfold quotient.
  set (shift := ndigits (d_int b) - ndigits (d_int a) + prec context + 1).
  set (num := if 0 <=? shift then d_int a * 10 ^ shift else d_int a).
  set (den := if 0 <=? shift then d_int b else d_int b * 10 ^ (- shift)).
  assert (Hnd : 0 <= num /\ 0 < den).
  { unfold num, den. destruct (Z.leb_spec 0 shift) as [Hs|Hs].
    - pose proof (pow10_pos shift Hs). split; [nia|lia].
    - pose proof (pow10_pos (- shift) ltac:(lia)). split; [lia|nia]. }
  destruct Hnd as [Hnum Hden]. clearbody num den.
  assert (Hq0 : 0 <= num / den) by (apply Z.div_pos; lia).
  destruct (negb (num mod den =? 0)).
  - cbn [fst]. destruct (num / den mod 5 =? 0); lia.
  - destruct (strip_zeros _ _ _ _) as [c' e'] eqn:Hs.
    apply strip_zeros_spec in Hs; [|assumption]. cbn [fst]. lia.
Qed.

Lemma truediv_canonical (context : Context) (a b r : Decimal) :
  1 <= prec context -> 0 <= d_int a -> 0 <= d_int b ->
  __truediv__ context a b = Return r ->
  canonical context r /\ d_sign r = xorb (d_sign a) (d_sign b).
Proof.
  intros Hp Ha Hb H.
  destruct (Z.eq_dec (d_int b) 0) as [Hb0|Hb0].
  { unfold __truediv__, is_zero in H. rewrite Hb0 in H. cbn in H.
    destruct (d_int a =? 0); discriminate. }
  destruct (Z.eq_dec (d_int a) 0) as [Ha0|Ha0].
  - unfold __truediv__, is_zero in H.
    destruct (Z.eqb_spec (d_int b) 0); [contradiction|].
    destruct (Z.eqb_spec (d_int a) 0); [|contradiction].
    apply fix_canonical in H; [exact H|assumption|simpl; lia].
  - rewrite truediv_fix in H by assumption.
    apply fix_canonical in H; [exact H|assumption|].
    cbn [d_int]. apply quotient_nonneg; lia.
Qed.

(** A quotient below a bound the context holds: [|a| <= |g| * |b|]. *)
Lemma truediv_le (context : Context) (a b g : Decimal) :
  1 <= prec context -> 0 <= d_int a -> 0 < d_int b -> canonical context g ->
  vle (d_int a) (d_exp a) (d_int g * d_int b) (d_exp g + d_exp b) ->
  exists r, __truediv__ context a b = Return r /\
            d_sign r = xorb (d_sign a) (d_sign b) /\
            canonical context r /\ mag_le r g.
Proof.
  intros Hp Ha Hb Hg Hle.
  destruct (Z.eq_dec (d_int a) 0) as [Ha0|Ha0].
  - unfold __truediv__, is_zero.
    destruct (Z.eqb_spec (d_int b) 0); [lia|].
    destruct (Z.eqb_spec (d_int a) 0); [|contradiction].
    apply fix_le; [assumption|simpl; lia|assumption|].
    unfold mag_le; simpl. apply vle_zero_l. apply Hg.
  - rewrite truediv_fix by lia.
    destruct (quotient_le context a b g) as [Hq Hv]; [assumption|lia|assumption..|].
    apply fix_le; [assumption|exact Hq|assumption|exact Hv].
Qed.

(** Division by zero is an error, whatever the dividend. *)
Lemma truediv_by_zero (context : Context) (a b : Decimal) :
  is_zero b = true ->
  __truediv__ context a b =
  Raise (if is_zero a then DivisionUndefined else DivisionByZero).
Proof.
  intros Hb. unfold __truediv__. rewrite Hb. destruct (is_zero a); reflexivity.
Qed.

(** ** Absolute value and comparison *)

Lemma abs_canonical (context : Context) (a : Decimal) :
  1 <= prec context -> canonical context a ->
  __abs__ context a = Return (copy_abs a).
Proof.
  intros Hp Hc. unfold __abs__, __neg__, __pos__.
  assert (Hca : _fix context (copy_abs a) = Return (copy_abs a))
    by (apply canonical_fix; [assumption|exact Hc]).
  destruct a as [[|] c e]; cbn [d_sign]; destruct (is_zero _); exact Hca.
Qed.

(** A magnitude of at most [10^m] is below [10^n] when [m < n]. *)
Lemma lt_pow10 (a : Decimal) (m n : Z) :
  0 <= d_int a -> m < n ->
  mag_le a {| d_sign := false; d_int := 1; d_exp := m |} ->
  __lt__ (copy_abs a) {| d_sign := false; d_int := 1; d_exp := n |} = true.
Proof.
  intros Ha Hmn Hle. unfold __lt__, _cmp, is_zero, adjusted, copy_abs.
  cbn [d_int d_sign d_exp].
  destruct (Z.eqb_spec (d_int a) 0) as [H0|H0]; [reflexivity|].
  cbn [Z.eqb andb negb].
  assert (Hpos : 0 < d_int a) by lia.
  destruct (mag_le_adjusted a {| d_sign := false; d_int := 1; d_exp := m |}
              Hpos ltac:(simpl; lia) Hle) as [_ Hadj].
  unfold adjusted in Hadj. cbn [d_int d_exp] in Hadj.
  change (ndigits 1) with 1 in *.
  destruct (Z.eqb_spec (d_exp a + ndigits (d_int a) - 1) (n + 1 - 1)); [lia|].
  destruct (Z.ltb_spec (n + 1 - 1) (d_exp a + ndigits (d_int a) - 1)); [lia|].
  reflexivity.
Qed.

(** ** Addition *)

Lemma sum_le_at (k : Z) (a b g : Decimal) :
  k <= d_exp a -> k <= d_exp b -> k <= d_exp g ->
  (sum_le a b g <->
   d_int a * 10 ^ (d_exp a - k) + d_int b * 10 ^ (d_exp b - k)
     <= d_int g * 10 ^ (d_exp g - k)).
Proof.
  intros H1 H2 H3. unfold sum_le.
  set (m := Z.min (d_exp a) (Z.min (d_exp b) (d_exp g))).
  assert (k <= m /\ m <= d_exp a /\ m <= d_exp b /\ m <= d_exp g)
    as (? & ? & ? & ?) by (unfold m; lia).
  clearbody m.
  replace (d_exp a - k) with ((d_exp a - m) + (m - k)) by lia.
  replace (d_exp b - k) with ((d_exp b - m) + (m - k)) by lia.
  replace (d_exp g - k) with ((d_exp g - m) + (m - k)) by lia.
  rewrite !pow10_add by lia.
  pose proof (pow10_pos (m - k) ltac:(lia)) as Hp.
  rewrite !Z.mul_assoc, <- Z.mul_add_distr_r. split; intros Hs.
  - apply Z.mul_le_mono_nonneg_r; lia.
  - apply Z.mul_le_mono_pos_r in Hs; assumption.
Qed.

Lemma vle_mono_l (c c' e g x : Z) :
  c <= c' -> vle c' e g x -> vle c e g x.
Proof.
  intros Hc H. unfold vle in *.
  pose proof (pow10_nonneg (e - Z.min e x)). nia.
Qed.

(** The heart of [_normalize]: [t] is the operand of the larger exponent,
    [o] the other one, which [10^exp] replaces when it is too small to
    matter. *)
Lemma normalize_core (p it et io eo : Z) (g : Decimal) :
  1 <= p -> 0 < it -> 0 < io -> eo <= et ->
  0 <= d_int g -> ndigits (d_int g) <= p ->
  sum_le {| d_sign := false; d_int := it; d_exp := et |}
         {| d_sign := false; d_int := io; d_exp := eo |} g ->
  let exp := et + Z.min (-1) (ndigits it - p - 2) in
  let io' := if ndigits io + eo - 1 <? exp then 1 else io in
  let eo' := if ndigits io + eo - 1 <? exp then exp else eo in
  eo' <= et /\ vle (it * 10 ^ (et - eo') + io') eo' (d_int g) (d_exp g).
Proof.
  intros Hp Ht Ho Hexp Hg Hgn Hs exp io' eo'.
  pose proof (ndigits_pos io) as Hno. pose proof (ndigits_pos it) as Hnt.
  set (k := Z.min eo (d_exp g)).
  assert (k <= eo /\ k <= d_exp g) as [Hk1 Hk2] by (unfold k; lia). clearbody k.
  apply (sum_le_at k) in Hs; cbn [d_int d_exp] in *; [|lia..].
  pose proof (pow10_pos (eo - k) ltac:(lia)) as Hpo.
  pose proof (pow10_pos (et - k) ltac:(lia)) as Hpt.
  unfold io', eo'.
  destruct (Z.ltb_spec (ndigits io + eo - 1) exp) as [Hrep|Hrep].
  - (* the small operand is replaced *)
    assert (Hlt : it * 10 ^ (et - k) < d_int g * 10 ^ (d_exp g - k)) by nia.
    assert (Hex : exp < et) by (unfold exp; lia).
    split; [lia|].
    destruct (Z_le_gt_dec exp (d_exp g)) as [Hge|Hgt].
    + apply (vle_intro _ _ _ _ exp); [lia..|].
      replace (exp - exp) with 0 by lia. change (10 ^ 0) with 1.
      replace (et - k) with ((et - exp) + (exp - k)) in Hlt by lia.
      replace (d_exp g - k) with ((d_exp g - exp) + (exp - k)) in Hlt by lia.
      rewrite !pow10_add in Hlt by lia.
      pose proof (pow10_pos (exp - k) ltac:(lia)).
      assert (it * 10 ^ (et - exp) < d_int g * 10 ^ (d_exp g - exp)) by nia.
      lia.
    + exfalso.
      assert (Hgpos : 0 < d_int g) by nia.
      pose proof (ndigits_spec it Ht) as [Hlo _].
      pose proof (ndigits_spec (d_int g) Hgpos) as [_ Hhi].
      pose proof (ndigits_pos (d_int g)).
      assert (H10 : 10 ^ (ndigits it - 1 + (et - k))
                    < 10 ^ (ndigits (d_int g) + (d_exp g - k))).
      { rewrite !pow10_add by lia. nia. }
      apply pow10_lt_inv in H10; [|lia]. unfold exp in Hgt. lia.
  - split; [lia|].
    apply (vle_intro _ _ _ _ k); [lia..|].
    replace (et - k) with ((et - eo) + (eo - k)) in Hs by lia.
    rewrite pow10_add in Hs by lia. nia.
Qed.

Lemma sum_le_comm (a b g : Decimal) : sum_le a b g -> sum_le b a g.
Proof.
  intros H. set (k := Z.min (d_exp a) (Z.min (d_exp b) (d_exp g))).
  assert (k <= d_exp a /\ k <= d_exp b /\ k <= d_exp g) as (? & ? & ?)
    by (unfold k; lia).
  clearbody k.
  apply (sum_le_at k) in H; [|lia..]. apply (sum_le_at k); [lia..|]. lia.
Qed.

Lemma sum_le_signs (a b g : Decimal) (s1 s2 : bool) :
  sum_le a b g ->
  sum_le {| d_sign := s1; d_int := d_int a; d_exp := d_exp a |}
         {| d_sign := s2; d_int := d_int b; d_exp := d_exp b |} g.
Proof. intros H. exact H. Qed.

Lemma normalize_sum (p : Z) (a b : Decimal) :
  1 <= p -> 0 < d_int a -> 0 < d_int b ->
  d_exp (fst (_normalize a b p)) = d_exp (snd (_normalize a b p)) /\
  d_sign (fst (_normalize a b p)) = d_sign a /\
  d_sign (snd (_normalize a b p)) = d_sign b /\
  0 < d_int (fst (_normalize a b p)) /\
  0 < d_int (snd (_normalize a b p)) /\
  forall g, 0 <= d_int g -> ndigits (d_int g) <= p -> sum_le a b g ->
    vle (d_int (fst (_normalize a b p)) + d_int (snd (_normalize a b p)))
        (d_exp (fst (_normalize a b p))) (d_int g) (d_exp g).
Proof.
  intros Hp Ha Hb. unfold _normalize.
  destruct (Z.ltb_spec (d_exp a) (d_exp b)) as [Hsw|Hsw]; cbv zeta.
  - (* b has the larger exponent *)
    set (exp := d_exp b + Z.min (-1) (ndigits (d_int b) - p - 2)).
    destruct (Z.ltb_spec (ndigits (d_int a) + d_exp a - 1) exp) as [Hrep|Hrep];
      cbn [fst snd d_int d_exp d_sign].
    + pose proof (pow10_pos (d_exp b - exp) ltac:(unfold exp; lia)).
      repeat split; try reflexivity; try nia.
      intros g Hg Hgn Hs.
        pose proof (normalize_core p (d_int b) (d_exp b) (d_int a) (d_exp a) g
                      Hp Hb Ha ltac:(lia) Hg Hgn
                      (sum_le_signs b a g false false (sum_le_comm _ _ _ Hs)))
          as Hcore.
        cbv zeta in Hcore. fold exp in Hcore.
        destruct (Z.ltb_spec (ndigits (d_int a) + d_exp a - 1) exp); [|lia].
        destruct Hcore as [_ Hv]. rewrite Z.add_comm. exact Hv.
    + pose proof (pow10_pos (d_exp b - d_exp a) ltac:(lia)).
      repeat split; try reflexivity; try nia.
      intros g Hg Hgn Hs.
        pose proof (normalize_core p (d_int b) (d_exp b) (d_int a) (d_exp a) g
                      Hp Hb Ha ltac:(lia) Hg Hgn
                      (sum_le_signs b a g false false (sum_le_comm _ _ _ Hs)))
          as Hcore.
        cbv zeta in Hcore. fold exp in Hcore.
        destruct (Z.ltb_spec (ndigits (d_int a) + d_exp a - 1) exp); [lia|].
        destruct Hcore as [_ Hv]. rewrite Z.add_comm. exact Hv.
  - set (exp := d_exp a + Z.min (-1) (ndigits (d_int a) - p - 2)).
    destruct (Z.ltb_spec (ndigits (d_int b) + d_exp b - 1) exp) as [Hrep|Hrep];
      cbn [fst snd d_int d_exp d_sign].
    + pose proof (pow10_pos (d_exp a - exp) ltac:(unfold exp; lia)).
      repeat split; try reflexivity; try nia.
      intros g Hg Hgn Hs.
        pose proof (normalize_core p (d_int a) (d_exp a) (d_int b) (d_exp b) g
                      Hp Ha Hb ltac:(lia) Hg Hgn
                      (sum_le_signs a b g false false Hs)) as Hcore.
        cbv zeta in Hcore. fold exp in Hcore.
        destruct (Z.ltb_spec (ndigits (d_int b) + d_exp b - 1) exp); [|lia].
        destruct Hcore as [_ Hv]. exact Hv.
    + pose proof (pow10_pos (d_exp a - d_exp b) ltac:(lia)).
      repeat split; try reflexivity; try nia.
      intros g Hg Hgn Hs.
        pose proof (normalize_core p (d_int a) (d_exp a) (d_int b) (d_exp b) g
                      Hp Ha Hb ltac:(lia) Hg Hgn
                      (sum_le_signs a b g false false Hs)) as Hcore.
        cbv zeta in Hcore. fold exp in Hcore.
        destruct (Z.ltb_spec (ndigits (d_int b) + d_exp b - 1) exp); [lia|].
        destruct Hcore as [_ Hv]. exact Hv.
Qed.

(** [__add__] rounds a number whose magnitude is at most [|a| + |b|]. *)
Lemma add_fix (context : Context) (a b : Decimal) :
  1 <= prec context -> 0 <= d_int a -> 0 <= d_int b ->
  exists v, __add__ context a b = _fix context v /\ 0 <= d_int v /\
            forall g, canonical context g -> sum_le a b g -> mag_le v g.
Proof.
  intros Hp Ha Hb. unfold __add__, is_zero.
  destruct (Z.eqb_spec (d_int a) 0) as [Ha0|Ha0];
    destruct (Z.eqb_spec (d_int b) 0) as [Hb0|Hb0]; cbn [andb].
  - eexists; split; [reflexivity|]. split; [simpl; lia|].
    intros g Hg _. unfold mag_le; simpl. apply vle_zero_l. apply Hg.
  - (* a is zero *)
    set (exp := Z.max (Z.min (d_exp a) (d_exp b)) (d_exp b - prec context - 1)).
    assert (Hexp : exp <= d_exp b) by (unfold exp; lia). clearbody exp.
    eexists; split; [reflexivity|].
    unfold _rescale, is_zero.
    destruct (Z.eqb_spec (d_int b) 0); [contradiction|].
    destruct (Z.leb_spec exp (d_exp b)); [|lia]. cbn [d_int d_exp].
    pose proof (pow10_pos (d_exp b - exp) ltac:(lia)).
    split; [nia|].
    intros g Hg Hs. unfold mag_le; cbn [d_int d_exp].
    set (k := Z.min exp (Z.min (d_exp a) (d_exp g))).
    assert (k <= exp /\ k <= d_exp a /\ k <= d_exp g) as (? & ? & ?) by (unfold k; lia).
    clearbody k.
    apply (sum_le_at k) in Hs; [|lia..]. rewrite Ha0 in Hs.
    apply (vle_intro _ _ _ _ k); [lia..|].
    replace (d_exp b - k) with ((d_exp b - exp) + (exp - k)) in Hs by lia.
    rewrite pow10_add in Hs by lia. lia.
  - (* b is zero *)
    set (exp := Z.max (Z.min (d_exp a) (d_exp b)) (d_exp a - prec context - 1)).
    assert (Hexp : exp <= d_exp a) by (unfold exp; lia). clearbody exp.
    eexists; split; [reflexivity|].
    unfold _rescale, is_zero.
    destruct (Z.eqb_spec (d_int a) 0); [contradiction|].
    destruct (Z.leb_spec exp (d_exp a)); [|lia]. cbn [d_int d_exp].
    pose proof (pow10_pos (d_exp a - exp) ltac:(lia)).
    split; [nia|].
    intros g Hg Hs. unfold mag_le; cbn [d_int d_exp].
    set (k := Z.min exp (Z.min (d_exp b) (d_exp g))).
    assert (k <= exp /\ k <= d_exp b /\ k <= d_exp g) as (? & ? & ?) by (unfold k; lia).
    clearbody k.
    apply (sum_le_at k) in Hs; [|lia..]. rewrite Hb0 in Hs.
    apply (vle_intro _ _ _ _ k); [lia..|].
    replace (d_exp a - k) with ((d_exp a - exp) + (exp - k)) in Hs by lia.
    rewrite pow10_add in Hs by lia. lia.
  - (* both nonzero *)
    pose proof (normalize_sum (prec context) a b Hp ltac:(lia) ltac:(lia))
      as (He & Hs1 & Hs2 & H1 & H2 & Hsum).
    destruct (_normalize a b (prec context)) as [op1 op2].
    cbn [fst snd] in *.
    assert (Hbound : forall c s, 0 <= c <= d_int op1 + d_int op2 ->
              forall g, canonical context g -> sum_le a b g ->
              mag_le {| d_sign := s; d_int := c; d_exp := d_exp op1 |} g).
    { intros c s Hc g Hg Hs. unfold mag_le; cbn [d_int d_exp].
      apply (vle_mono_l _ (d_int op1 + d_int op2)); [lia|].
      apply Hsum; [apply Hg| |assumption].
      destruct Hg as (Hg0 & _ & _ & Hgnz).
      destruct (Z.eq_dec (d_int g) 0) as [->|Hnz]; [rewrite ndigits_0; lia|].
      apply Hgnz; assumption. }
    destruct (negb (Bool.eqb (d_sign op1) (d_sign op2))).
    + destruct (Z.eqb_spec (d_int op1) (d_int op2)).
      * eexists; split; [reflexivity|]. split; [simpl; lia|].
        intros g Hg _. unfold mag_le; simpl. apply vle_zero_l. apply Hg.
      * destruct (Z.ltb_spec (d_int op1) (d_int op2)).
        -- eexists; split; [reflexivity|]. split; [simpl; lia|].
           rewrite <- He. apply Hbound. lia.
        -- eexists; split; [reflexivity|]. split; [simpl; lia|].
           apply Hbound. lia.
    + eexists; split; [reflexivity|]. split; [simpl; lia|].
      apply Hbound. lia.
Qed.

Lemma add_canonical (context : Context) (a b r : Decimal) :
  1 <= prec context -> 0 <= d_int a -> 0 <= d_int b ->
  __add__ context a b = Return r -> canonical context r.
Proof.
  intros Hp Ha Hb H.
  destruct (add_fix context a b Hp Ha Hb) as (v & Hv & Hv0 & _).
  rewrite Hv in H. apply fix_canonical in H; [apply H|assumption..].
Qed.

Lemma add_le (context : Context) (a b g : Decimal) :
  1 <= prec context -> 0 <= d_int a -> 0 <= d_int b ->
  canonical context g -> sum_le a b g ->
  exists r, __add__ context a b = Return r /\ canonical context r /\ mag_le r g.
Proof.
  intros Hp Ha Hb Hg Hs.
  destruct (add_fix context a b Hp Ha Hb) as (v & Hv & Hv0 & Hle).
  destruct (fix_le context v g Hp Hv0 Hg (Hle g Hg Hs)) as (r & Hr & _ & Hc & Hm).
  exists r. rewrite Hv. auto.
Qed.

Lemma sub_add (context : Context) (a b : Decimal) :
  __sub__ context a b = __add__ context a (copy_negate b).
Proof. reflexivity. Qed.

(** Adding 2 to a positive integer that leaves room for it is exact. *)
Lemma add_two (context : Context) (n : Z) :
  1 <= n -> n + 2 < 10 ^ prec context -> n + 2 < 10 ^ 19 ->
  1 <= prec context ->
  __add__ context {| d_sign := false; d_int := n; d_exp := 0 |} (of_int 2)
  = Return {| d_sign := false; d_int := n + 2; d_exp := 0 |}.
Proof.
  intros Hn Hlt Hsmall Hp. unfold __add__, is_zero, of_int, _normalize.
  cbn [d_int d_exp d_sign Z.abs Z.ltb Z.compare].
  destruct (Z.eqb_spec n 0); [lia|]. cbn [Z.eqb andb].
  change (ndigits 2) with 1.
  pose proof (ndigits_pos n).
  destruct (Z.ltb_spec (1 + 0 - 1) (0 + Z.min (-1) (ndigits n - prec context - 2)));
    [lia|].
  cbn [d_int d_exp d_sign Bool.eqb negb]. change (10 ^ (0 - 0)) with 1.
  rewrite Z.mul_1_r.
  apply canonical_fix; [assumption|].
  unfold canonical, adjusted, Etiny, Emin, Emax; cbn [d_int d_exp].
  assert (ndigits (n + 2) <= prec context) by (apply ndigits_le; lia).
  assert (ndigits (n + 2) <= 19) by (apply ndigits_le; lia).
  pose proof (ndigits_pos (n + 2)).
  repeat split; try lia.
Qed.

(** ** Strings of digits *)

Lemma digit_char_facts (d : Z) :
  0 <= d <= 9 ->
  pystr.is_digit (pystr.digit_char d) = true /\
  pystr.digit_value (pystr.digit_char d) = d /\
  pystr.is_space (pystr.digit_char d) = false /\
  (pystr.code (pystr.digit_char d) =? 95) = false.
Proof.
  intros Hd.
  assert (d = 0 \/ d = 1 \/ d = 2 \/ d = 3 \/ d = 4 \/ d = 5 \/ d = 6 \/ d = 7
          \/ d = 8 \/ d = 9) as H by lia.
  repeat (destruct H as [->|H]; [repeat split; reflexivity|]).
  subst d. repeat split; reflexivity.
Qed.

Lemma int_of_digits_app (ds : list ascii) (c : ascii) :
  pystr.int_of_digits (ds ++ [c])
  = 10 * pystr.int_of_digits ds + pystr.digit_value c.
Proof. unfold pystr.int_of_digits. rewrite fold_left_app. reflexivity. Qed.

Lemma digits_aux_spec (fuel : nat) (n : Z) :
  0 <= n < 2 ^ Z.of_nat fuel -> (0 < fuel)%nat ->
  digit_string (pystr.digits_aux fuel n) n.
Proof.
  revert n. induction fuel as [|fuel IH]; intros n Hn Hf; [lia|].
  cbn [pystr.digits_aux]. destruct (Z.ltb_spec n 10) as [Hlt|Hge].
  - destruct (digit_char_facts n ltac:(lia)) as (H1 & H2 & H3 & H4).
    unfold digit_string. repeat split;
      try (constructor; [assumption|constructor]).
    + discriminate.
    + unfold pystr.int_of_digits. simpl. rewrite H2. lia.
  - assert (Hq : 0 <= n / 10 < 2 ^ Z.of_nat fuel).
    { split.
      - apply Z.div_pos; lia.
      - apply Z.div_lt_upper_bound; [lia|].
        rewrite Nat2Z.inj_succ, Z.pow_succ_r in Hn by lia. lia. }
    assert (Hf' : (0 < fuel)%nat).
    { destruct fuel; [|lia]. simpl in Hq.
      assert (1 <= n / 10) by (apply Z.div_le_lower_bound; lia). lia. }
    destruct (IH _ Hq Hf') as (I1 & I2 & I3 & I4 & I5).
    pose proof (Z.mod_pos_bound n 10 ltac:(lia)) as Hm.
    destruct (digit_char_facts (n mod 10) ltac:(lia)) as (H1 & H2 & H3 & H4).
    unfold digit_string. repeat split.
    + intros Habs. apply app_eq_nil in Habs. destruct Habs; discriminate.
    + apply Forall_app; split; [assumption|constructor; [assumption|constructor]].
    + apply Forall_app; split; [assumption|constructor; [assumption|constructor]].
    + apply Forall_app; split; [assumption|constructor; [assumption|constructor]].
    + rewrite int_of_digits_app, I5, H2.
      pose proof (Z.div_mod n 10 ltac:(lia)). lia.
Qed.

(** [str(n)] for [n >= 0] is the digits of [n]. *)
Lemma str_nonneg (n : Z) :
  0 <= n ->
  exists ds, list_ascii_of_string (pystr.str n) = ds /\ digit_string ds n.
Proof.
  intros Hn. unfold pystr.str.
  destruct (Z.ltb_spec n 0); [lia|].
  rewrite Z.abs_eq by assumption.
  eexists; split; [apply list_ascii_of_string_of_list_ascii|].
  apply digits_aux_spec; [|lia].
  split; [assumption|].
  pose proof (Z.log2_nonneg n).
  rewrite Nat2Z.inj_succ, Z2Nat.id by assumption.
  destruct (Z.eq_dec n 0) as [->|]; [reflexivity|].
  apply Z.log2_spec. lia.
Qed.

Lemma span_digits_all (ds rest : list ascii) :
  Forall (fun c => pystr.is_digit c = true) ds ->
  match rest with [] => True | c :: _ => pystr.is_digit c = false end ->
  pystr.span_digits (ds ++ rest) = (ds, rest).
Proof.
  intros Hds Hrest. induction Hds as [|c ds Hc _ IH]; cbn [app pystr.span_digits].
  - destruct rest as [|c rest]; [reflexivity|].
    cbn [pystr.span_digits]. rewrite Hrest. reflexivity.
  - rewrite Hc, IH. reflexivity.
Qed.

Lemma lstrip_nonspace (c : ascii) (s : list ascii) :
  pystr.is_space c = false -> pystr.lstrip (c :: s) = c :: s.
Proof. intros H. cbn [pystr.lstrip]. rewrite H. reflexivity. Qed.

Lemma strip_nonspace (c : ascii) (s : list ascii) (z : ascii) :
  pystr.is_space c = false -> pystr.is_space z = false ->
  pystr.strip (c :: s ++ [z]) = c :: s ++ [z].
Proof.
  intros Hc Hz. unfold pystr.strip. rewrite lstrip_nonspace by assumption.
  change (c :: s ++ [z]) with ((c :: s) ++ [z]).
  replace (rev ((c :: s) ++ [z])) with (z :: rev (c :: s))
    by (rewrite rev_app_distr; reflexivity).
  rewrite lstrip_nonspace by assumption.
  change (z :: rev (c :: s)) with ([z] ++ rev (c :: s)).
  rewrite rev_app_distr, rev_involutive. reflexivity.
Qed.

Lemma filter_all {A} (f : A -> bool) (l : list A) :
  Forall (fun x => f x = true) l -> filter f l = l.
Proof.
  induction 1 as [|x l Hx _ IH]; cbn [filter]; [reflexivity|].
  rewrite Hx, IH. reflexivity.
Qed.

Lemma digit_string_last (ds : list ascii) (n : Z) :
  digit_string ds n ->
  exists init z, ds = init ++ [z] /\ pystr.is_space z = false.
Proof.
  intros (Hne & _ & Hsp & _).
  destruct (exists_last Hne) as (init & z & ->).
  exists init, z. split; [reflexivity|].
  apply Forall_app in Hsp. destruct Hsp as [_ Hz]. inversion Hz; assumption.
Qed.

Lemma list_ascii_of_string_app (s1 s2 : string) :
  list_ascii_of_string (s1 ++ s2)
  = (list_ascii_of_string s1 ++ list_ascii_of_string s2)%list.
Proof.
  induction s1 as [|c s1 IH]; simpl; [reflexivity|]. rewrite IH. reflexivity.
Qed.

(** [Decimal('1e-%d' % scale)] is [10^(-scale)]. *)
Lemma of_string_threshold (scale : Z) :
  0 <= scale ->
  of_string ("1e-" ++ pystr.str scale)
  = Return {| d_sign := false; d_int := 1; d_exp := - scale |}.
Proof.
  intros Hs. destruct (str_nonneg scale Hs) as (ds & Hds & Hdig).
  destruct (digit_string_last ds scale Hdig) as (init & z & Hinit & Hz).
  destruct Hdig as (Hne & Hd & Hsp & Hus & Hval).
  unfold of_string.
  rewrite list_ascii_of_string_app, Hds.
  change (list_ascii_of_string "1e-") with ["1"; "e"; "-"]%char.
  cbn [app].
  replace (pystr.strip ("1"%char :: "e"%char :: "-"%char :: ds))
    with ("1"%char :: "e"%char :: "-"%char :: ds).
  2:{ rewrite Hinit.
      change ("1"%char :: "e"%char :: "-"%char :: init ++ [z])
        with ("1"%char :: ("e"%char :: "-"%char :: init) ++ [z]).
      symmetry. apply strip_nonspace; [reflexivity|assumption]. }
  rewrite filter_all.
  2:{ repeat (constructor; [reflexivity|]).
      eapply Forall_impl; [|exact Hus]. intros c Hc. cbv beta. rewrite Hc. reflexivity. }
  cbn [pystr.split_sign].
  change (is_special_literal ("1"%char :: "e"%char :: "-"%char :: ds)) with false.
  cbv iota.
  change (pystr.span_digits ("1"%char :: "e"%char :: "-"%char :: ds))
    with (["1"%char], "e"%char :: "-"%char :: ds).
  cbv iota beta. cbn [app].
  unfold exponent_part.
  change ((pystr.code "e" =? 69) || (pystr.code "e" =? 101)) with true.
  cbv iota. cbn [pystr.split_sign].
  rewrite <- (app_nil_r ds) at 1.
  rewrite (span_digits_all ds [] Hd I).
  destruct ds as [|d0 ds']; [contradiction|].
  rewrite Hval. change (pystr.int_of_digits ["1"%char]) with 1.
  cbn [List.length Z.of_nat]. f_equal. f_equal. lia.
Qed.

(** ** The loop, iteration by iteration *)

Lemma bind_with_context {A B} (f : Context -> outcome A) (k : A -> Prog B)
    (c : Context) :
  (x <- with_context f ;; k x) c = py.bind (f c) (fun a => k a c).
Proof.
  cbn [mbind Monad_Prog]. unfold with_context. destruct (f c); reflexivity.
Qed.

Lemma arctan_loop_body (fuel : nat) (scale : Z)
    (x_squared result term divisor : Decimal) (c : Context) :
  arctan_loop (S fuel) scale x_squared result term divisor c =
  py.bind (arctan_body c scale x_squared
             {| st_result := result; st_term := term; st_divisor := divisor |})
    (fun o =>
       match o with
       | inl r => Return (r, c)
       | inr st =>
         arctan_loop fuel scale x_squared
                     (st_result st) (st_term st) (st_divisor st) c
       end).
Proof.
  cbn [arctan_loop]. unfold arctan_body. cbn [st_result st_term st_divisor].
  rewrite bind_with_context. cbn [mbind Monad_outcome].
  destruct (__add__ c divisor (of_int 2)) as [d| | |]; [|reflexivity..].
  cbn [py.bind]. rewrite bind_with_context.
  destruct (__mul__ c x_squared (of_int (-1))) as [m| | |]; [|reflexivity..].
  cbn [py.bind]. rewrite bind_with_context.
  destruct (__mul__ c term m) as [t| | |]; [|reflexivity..].
  cbn [py.bind]. rewrite bind_with_context.
  destruct (__truediv__ c t d) as [tta| | |]; [|reflexivity..].
  cbn [py.bind]. rewrite bind_with_context.
  destruct (__abs__ c tta) as [mag| | |]; [|reflexivity..].
  cbn [py.bind]. unfold lift. rewrite bind_with_context.
  destruct (of_string ("1e-" ++ pystr.str scale)) as [thr| | |]; [|reflexivity..].
  cbn [py.bind]. destruct (__lt__ mag thr); [reflexivity|].
  rewrite bind_with_context. cbn [ret Monad_outcome].
  destruct (__add__ c result tta) as [r| | |]; reflexivity.
Qed.

(** ** Bounds the context holds *)

Lemma linear_lt_pow10 (s : Z) : 1 <= s -> 2 * s + 1 < 10 ^ s.
Proof.
  intros Hs. pattern s. apply Zlt_lower_bound_ind with (z := 1); [|assumption].
  intros x IH Hx. destruct (Z.eq_dec x 1) as [->|Hne]; [reflexivity|].
  specialize (IH (x - 1) ltac:(lia)).
  replace x with ((x - 1) + 1) at 2 by lia. rewrite pow10_succ by lia. lia.
Qed.

Lemma canonical_sci (c : Context) (k m : Z) :
  1 <= prec c <= MAX_PREC -> 1 <= k <= 9 -> Etiny c <= m <= 0 ->
  canonical c (sci k m).
Proof.
  intros Hp Hk Hm. unfold canonical, sci, adjusted; cbn [d_int d_exp].
  rewrite (ndigits_small k) by lia. unfold Emax. repeat split; lia.
Qed.

Lemma canonical_sum_bound (c : Context) (j : Z) :
  0 <= j -> j + 1 <= prec c ->
  canonical c (sum_bound j).
Proof.
  intros Hj Hp. unfold canonical, sum_bound, sci, adjusted; cbn [d_int d_exp].
  pose proof (pow10_pos (j + 1) ltac:(lia)).
  assert (Hn : ndigits (10 ^ (j + 1) - 1) <= j + 1) by (apply ndigits_le; lia).
  pose proof (ndigits_pos (10 ^ (j + 1) - 1)).
  unfold Etiny, Emin, Emax. repeat split; lia.
Qed.

Lemma mul_neg_one (c : Context) (a : Decimal) :
  1 <= prec c -> canonical c a ->
  __mul__ c a (of_int (-1)) = Return (copy_negate a).
Proof.
  intros Hp Ha. rewrite mul_fix. unfold of_int. cbn [d_sign d_int d_exp Z.ltb Z.compare Z.abs].
  rewrite xorb_true_r, Z.mul_1_r, Z.add_0_r.
  apply canonical_fix; [assumption|exact Ha].
Qed.

Lemma mag_le_trans (a b g : Decimal) : mag_le a b -> mag_le b g -> mag_le a g.
Proof. unfold mag_le. apply vle_trans. Qed.

(** A magnitude of at most [k * 10^m], one digit [k], is below [10^n]
    when [m < n]. *)
Lemma lt_small (a : Decimal) (k m n : Z) :
  0 <= d_int a -> 1 <= k <= 9 -> m < n -> mag_le a (sci k m) ->
  __lt__ (copy_abs a) (sci 1 n) = true.
Proof.
  intros Ha Hk Hmn Hle. unfold __lt__, _cmp, is_zero, adjusted, copy_abs, sci.
  cbn [d_int d_sign d_exp].
  destruct (Z.eqb_spec (d_int a) 0) as [H0|H0]; [reflexivity|].
  cbn [Z.eqb andb negb].
  assert (Hpos : 0 < d_int a) by lia.
  destruct (mag_le_adjusted a (sci k m) Hpos ltac:(simpl; lia) Hle) as [_ Hadj].
  unfold adjusted, sci in Hadj. cbn [d_int d_exp] in Hadj.
  rewrite (ndigits_small k) in Hadj by lia.
  change (ndigits 1) with 1.
  destruct (Z.eqb_spec (d_exp a + ndigits (d_int a) - 1) (n + 1 - 1)); [lia|].
  destruct (Z.ltb_spec (n + 1 - 1) (d_exp a + ndigits (d_int a) - 1)); [lia|].
  reflexivity.
Qed.

Lemma sum_le_bounds (a b ga gb g : Decimal) :
  mag_le a ga -> mag_le b gb -> sum_le ga gb g -> sum_le a b g.
Proof.
  intros Ha Hb Hs.
  set (k := Z.min (Z.min (d_exp a) (d_exp b))
                  (Z.min (Z.min (d_exp ga) (d_exp gb)) (d_exp g))).
  assert (k <= d_exp a /\ k <= d_exp b /\ k <= d_exp ga /\ k <= d_exp gb
          /\ k <= d_exp g) as (? & ? & ? & ? & ?) by (unfold k; lia).
  clearbody k. unfold mag_le in *.
  apply (vle_at k) in Ha; [|lia..]. apply (vle_at k) in Hb; [|lia..].
  apply (sum_le_at k) in Hs; [|lia..]. apply (sum_le_at k); [lia..|]. lia.
Qed.

Lemma sum_bound_step (j : Z) :
  0 <= j -> sum_le (sum_bound j) (sci 5 (- (j + 2))) (sum_bound (j + 1)).
Proof.
  intros Hj. apply (sum_le_at (- (j + 2))); unfold sum_bound, sci; cbn [d_int d_exp];
    [lia..|].
  replace (- (j + 1) - - (j + 2)) with 1 by lia.
  replace (- (j + 2) - - (j + 2)) with 0 by lia.
  replace (- (j + 1 + 1) - - (j + 2)) with 0 by lia.
  change (10 ^ 1) with 10. change (10 ^ 0) with 1.
  replace (j + 1 + 1) with ((j + 1) + 1) by lia.
  rewrite (pow10_succ (j + 1)) by lia. lia.
Qed.

Section SeriesLoop.

Variable c : Context.
Variable scale : Z.
Variable x_squared : Decimal.
Hypothesis Hprec : prec c = scale.
Hypothesis Hrange : 1 <= scale <= MAX_PREC.
Hypothesis Hxc : canonical c x_squared.
Hypothesis Hxb : mag_le x_squared (sci 1 (-1)).

(** One iteration from a state that satisfies the invariant: the loop
    breaks with the partial sum, or goes on in a state that satisfies the
    invariant of the next iteration. No operation raises. *)
Lemma body_step (j : Z) (st : loop_state) :
  series_inv c j st ->
  exists o, arctan_body c scale x_squared st = Return o /\
            (o = inl (st_result st) \/
             exists st', o = inr st' /\ series_inv c (j + 1) st').
Proof.
  intros (Hj & Hjp & Hd & Hct & Hmt & Hcr & Hmr).
  assert (Hp1 : 1 <= prec c) by lia.
  assert (HpM : 1 <= prec c <= MAX_PREC) by lia.
  unfold arctan_body. cbn [mbind ret Monad_outcome].
  (* divisor += 2 *)
  rewrite Hd. unfold sci at 1.
  rewrite (add_two c (2 * j + 1)); [|lia| | |lia].
  2:{ pose proof (linear_lt_pow10 (prec c) Hp1). lia. }
  2:{ unfold MAX_PREC in *. change (10 ^ 19) with 10000000000000000000. lia. }
  cbn [py.bind].
  (* term *= x_squared * Decimal(-1) *)
  rewrite (mul_neg_one c x_squared Hp1 Hxc). cbn [py.bind].
  destruct (mul_le c (st_term st) (copy_negate x_squared) (sci 1 (- (j + 1))))
    as (t & Ht & _ & Hctt & Hmtt); [assumption|apply Hct|apply Hxc| | |].
  { apply canonical_sci; [lia|lia|]. unfold Etiny, Emin. lia. }
  { cbn [copy_negate d_int d_exp sci].
    pose proof (vle_mul _ _ _ _ _ _ _ _ (proj1 Hct) (proj1 Hxc) Hmt Hxb) as Hv.
    cbn [sci d_int d_exp] in Hv.
    replace (1 * 1) with 1 in Hv by lia.
    replace (- j + -1) with (- (j + 1)) in Hv by lia. exact Hv. }
  rewrite Ht. cbn [py.bind].
  (* term_to_add = term / divisor *)
  destruct (truediv_le c t {| d_sign := false; d_int := 2 * j + 1 + 2; d_exp := 0 |}
              (sci 5 (- (j + 2)))) as (tta & Htta & _ & Hcta & Hmta);
    [assumption|apply Hctt|cbn [d_int]; lia| | |].
  { apply canonical_sci; [lia|lia|]. unfold Etiny, Emin. lia. }
  { cbn [sci d_int d_exp].
    apply (vle_trans _ _ 1 (- (j + 1))); [exact Hmtt|].
    apply (vle_intro _ _ _ _ (- (j + 2))); [lia..|].
    replace (- (j + 1) - - (j + 2)) with 1 by lia.
    replace (- (j + 2) + 0 - - (j + 2)) with 0 by lia.
    change (10 ^ 1) with 10. change (10 ^ 0) with 1. lia. }
  rewrite Htta. cbn [py.bind].
  (* abs(term_to_add) < Decimal('1e-%d' % scale) *)
  rewrite (abs_canonical c tta Hp1 Hcta). cbn [py.bind].
  rewrite (of_string_threshold scale) by lia. cbn [py.bind].
  destruct (__lt__ (copy_abs tta) _) eqn:Hlt;
    [eexists; split; [reflexivity|left; reflexivity]|].
  assert (Hj2 : j + 2 <= prec c).
  { destruct (Z_le_gt_dec (j + 2) (prec c)) as [|Hgt]; [assumption|exfalso].
    pose proof (lt_small tta 5 (- (j + 2)) (- scale) (proj1 Hcta) ltac:(lia)
                  ltac:(lia) Hmta) as Hlt'.
    unfold sci in Hlt'. rewrite Hlt' in Hlt. discriminate. }
  (* result += term_to_add *)
  destruct (add_le c (st_result st) tta (sum_bound (j + 1)))
    as (r & Hr & Hcrr & Hmrr); [assumption|apply Hcr|apply Hcta| | |].
  { apply canonical_sum_bound; lia. }
  { apply (sum_le_bounds _ _ (sum_bound j) (sci 5 (- (j + 2)))); try assumption.
    apply sum_bound_step; assumption. }
  rewrite Hr. cbn [py.bind].
  eexists; split; [reflexivity|]. right. eexists; split; [reflexivity|].
  unfold series_inv. cbn [st_result st_term st_divisor].
  refine (conj _ (conj _ (conj _ (conj Hctt (conj Hmtt (conj Hcrr Hmrr))))));
    [lia|lia|unfold sci; f_equal; lia].
Qed.

End SeriesLoop.

Lemma canonical_sci_wide (c : Context) (k m : Z) :
  1 <= prec c -> 1 <= k <= 9 -> Etiny c <= m <= Emax ->
  canonical c (sci k m).
Proof.
  intros Hp Hk Hm. unfold canonical, sci, adjusted; cbn [d_int d_exp].
  rewrite (ndigits_small k) by lia. repeat split; lia.
Qed.

Lemma sum_bound_le_one (j : Z) : 0 <= j -> mag_le (sum_bound j) (sci 1 0).
Proof.
  intros Hj. unfold mag_le, sum_bound, sci; cbn [d_int d_exp].
  apply (vle_intro _ _ _ _ (- (j + 1))); [lia..|].
  replace (- (j + 1) - - (j + 1)) with 0 by lia.
  replace (0 - - (j + 1)) with (j + 1) by lia.
  change (10 ^ 0) with 1. lia.
Qed.

Section SeriesRuns.

Variable c : Context.
Variable scale : Z.
Variable x_squared : Decimal.
Hypothesis Hprec : prec c = scale.
Hypothesis Hrange : 1 <= scale <= MAX_PREC.
Hypothesis Hxc : canonical c x_squared.
Hypothesis Hxb : mag_le x_squared (sci 1 (-1)).

(** From a state that satisfies the invariant of iteration [j], the loop
    breaks after at most [scale - j] iterations. *)
Lemma loop_returns (k : nat) :
  forall (j : Z) (st : loop_state) (fuel : nat),
    series_inv c j st -> scale - j <= Z.of_nat k -> (k <= fuel)%nat ->
    exists r,
      arctan_loop fuel scale x_squared
                  (st_result st) (st_term st) (st_divisor st) c
      = Return (r, c) /\
      canonical c r /\ mag_le r (sci 1 0).
Proof.
  induction k as [|k IH]; intros j st fuel Hinv Hk Hfuel.
  - destruct Hinv as (_ & Hjp & _). lia.
  - destruct fuel as [|fuel]; [lia|].
    rewrite arctan_loop_body.
    replace {| st_result := st_result st; st_term := st_term st;
               st_divisor := st_divisor st |} with st by (destruct st; reflexivity).
    destruct (body_step c scale x_squared Hprec Hrange Hxc Hxb j st Hinv)
      as (o & Ho & [->|(st' & -> & Hinv')]); rewrite Ho; cbn [py.bind].
    + exists (st_result st). destruct Hinv as (Hj & _ & _ & _ & _ & Hcr & Hmr).
      split; [reflexivity|]. split; [assumption|].
      apply (mag_le_trans _ (sum_bound j)); [assumption|].
      apply sum_bound_le_one; assumption.
    + apply (IH (j + 1)); [assumption|lia|lia].
Qed.

(** Every state the loop reaches satisfies the invariant of its
    iteration. *)
Lemma reaches_inv (st0 : loop_state) (j : nat) (st : loop_state) :
  series_inv c 0 st0 ->
  reaches c scale x_squared st0 j st ->
  series_inv c (Z.of_nat j) st.
Proof.
  intros H0 Hr. induction Hr as [|j st st' _ IH Hbody]; [exact H0|].
  destruct (body_step c scale x_squared Hprec Hrange Hxc Hxb _ st IH)
    as (o & Ho & [->|(st'' & -> & Hinv')]); rewrite Ho in Hbody.
  - discriminate.
  - injection Hbody as <-. rewrite Nat2Z.inj_succ. exact Hinv'.
Qed.

End SeriesRuns.

(** ** [arctan] and [calculate_pi] as a whole *)

Lemma arctan_unfold (fuel : nat) (x_inv_str : string) (scale : Z) (c : Context) :
  arctan fuel x_inv_str scale c =
  if (scale <? 1) || (MAX_PREC <? scale)
  then Raise (ValueError "valid range for prec is [1, MAX_PREC]")
  else
    py.bind (of_string x_inv_str) (fun x_inv =>
    py.bind (arctan_start {| prec := scale |} x_inv) (fun start =>
    arctan_loop fuel scale (fst start) (st_result (snd start))
                (st_term (snd start)) (st_divisor (snd start))
                {| prec := scale |})).
Proof.
  unfold arctan, arctan_start. cbn [mbind ret Monad_Prog Monad_outcome].
  unfold set_prec, lift, with_context.
  destruct ((scale <? 1) || (MAX_PREC <? scale)); [reflexivity|].
  cbn [py.bind fst snd].
  destruct (of_string x_inv_str) as [x_inv| | |]; [|reflexivity..].
  cbn [py.bind fst snd].
  destruct (__truediv__ _ (of_int 1) x_inv) as [x| | |]; [|reflexivity..].
  cbn [py.bind fst snd].
  destruct (__mul__ _ x x) as [x_squared| | |]; reflexivity.
Qed.

(** For a base of at least 4: [x <= 0.3], [x_squared <= 0.1], and the
    loop starts in a state that satisfies the invariant. *)
Lemma start_inv (c : Context) (b : Z) :
  1 <= prec c <= MAX_PREC -> 4 <= b ->
  exists x x_squared,
    arctan_start c (of_int b)
    = Return (x_squared, {| st_result := x; st_term := x; st_divisor := of_int 1 |})
    /\ canonical c x_squared /\ mag_le x_squared (sci 1 (-1))
    /\ series_inv c 0 {| st_result := x; st_term := x; st_divisor := of_int 1 |}.
Proof.
  intros Hp Hb. unfold arctan_start. cbn [mbind ret Monad_outcome].
  assert (Hb' : d_int (of_int b) = b) by (unfold of_int; cbn [d_int]; lia).
  assert (Ht : Etiny c <= -1) by (unfold Etiny, Emin; lia).
  destruct (truediv_le c (of_int 1) (of_int b) (sci 3 (-1)))
    as (x & Hx & _ & Hcx & Hmx); [lia|simpl; lia|lia| | |].
  { apply canonical_sci; lia. }
  { rewrite Hb'. cbn [of_int sci d_int d_exp Z.abs].
    apply (vle_intro _ _ _ _ (-1)); [lia..|].
    change (10 ^ (0 - -1)) with 10. change (10 ^ (-1 + 0 - -1)) with 1. lia. }
  rewrite Hx. cbn [py.bind].
  destruct (mul_le c x x (sci 1 (-1))) as (xs & Hxs & _ & Hcxs & Hmxs);
    [lia|apply Hcx|apply Hcx| | |].
  { apply canonical_sci; lia. }
  { pose proof (vle_mul _ _ _ _ _ _ _ _ (proj1 Hcx) (proj1 Hcx) Hmx Hmx) as Hv.
    cbn [sci d_int d_exp] in *.
    apply (vle_trans _ _ _ _ _ _ Hv).
    apply (vle_intro _ _ _ _ (-2)); [lia..|]. vm_compute; discriminate. }
  rewrite Hxs. cbn [py.bind].
  exists x, xs. split; [reflexivity|]. split; [assumption|]. split; [assumption|].
  unfold series_inv. cbn [st_result st_term st_divisor].
  refine (conj _ (conj _ (conj _ (conj Hcx (conj _ (conj Hcx _)))))); try lia.
  - reflexivity.
  - apply (mag_le_trans _ (sci 3 (-1))); [assumption|].
    apply (vle_intro _ _ _ _ (-1)); cbn [sci d_int d_exp]; [lia..|]. vm_compute; discriminate.
  - apply (mag_le_trans _ (sci 3 (-1))); [assumption|].
    apply (vle_intro _ _ _ _ (-1)); cbn [sum_bound sci d_int d_exp]; [lia..|].
    vm_compute; discriminate.
Qed.

(** [arctan] returns, for every base of at least 4 and every precision
    the context accepts, once the fuel covers [scale] iterations; its
    result is at most 1 and the context is left at precision [scale]. *)
Lemma arctan_returns (fuel : nat) (x_inv_str : string) (b scale : Z) (c : Context) :
  of_string x_inv_str = Return (of_int b) -> 4 <= b ->
  1 <= scale <= MAX_PREC -> (Z.to_nat scale <= fuel)%nat ->
  exists r, arctan fuel x_inv_str scale c = Return (r, {| prec := scale |}) /\
            canonical {| prec := scale |} r /\ mag_le r (sci 1 0).
Proof.
  intros Hstr Hb Hs Hfuel. rewrite arctan_unfold.
  destruct (Z.ltb_spec scale 1); [lia|].
  destruct (Z.ltb_spec MAX_PREC scale); [lia|]. cbn [orb].
  rewrite Hstr. cbn [py.bind].
  destruct (start_inv {| prec := scale |} b) as (x & xs & Hstart & Hcxs & Hmxs & Hinv);
    [cbn [prec]; lia|assumption|].
  rewrite Hstart. cbn [py.bind fst snd].
  apply (loop_returns {| prec := scale |} scale xs eq_refl Hs Hcxs Hmxs
           (Z.to_nat scale) 0 _ fuel Hinv); lia.
Qed.

Lemma strip_no_space (l : list ascii) :
  Forall (fun c => pystr.is_space c = false) l -> pystr.strip l = l.
Proof.
  intros H.
  assert (Hl : forall l', Forall (fun c => pystr.is_space c = false) l' ->
                          pystr.lstrip l' = l').
  { intros l' H'. destruct H' as [|c l' Hc _]; [reflexivity|].
    apply lstrip_nonspace; assumption. }
  unfold pystr.strip. rewrite (Hl l H), Hl, rev_involutive; [reflexivity|].
  apply Forall_rev. assumption.
Qed.

Lemma digit_not_sign (c : ascii) (l : list ascii) :
  pystr.is_digit c = true ->
  pystr.split_sign (c :: l) = (false, c :: l) /\
  is_special_literal (c :: l) = false.
Proof.
  intros H.
  destruct c as [[] [] [] [] [] [] [] []]; try discriminate H; split; reflexivity.
Qed.

(** [Decimal(str(b))] is [Decimal(b)]. *)
Lemma of_string_str (b : Z) :
  0 <= b -> of_string (pystr.str b) = Return (of_int b).
Proof.
  intros Hb. destruct (str_nonneg b Hb) as (ds & Hds & Hdig).
  destruct Hdig as (Hne & Hd & Hsp & Hus & Hval).
  unfold of_string. rewrite Hds, (strip_no_space ds Hsp).
  rewrite filter_all.
  2:{ eapply Forall_impl; [|exact Hus]. intros c Hc. cbv beta. rewrite Hc. reflexivity. }
  destruct ds as [|d0 ds']; [contradiction|].
  assert (Hd0 : pystr.is_digit d0 = true) by (inversion Hd; assumption).
  destruct (digit_not_sign d0 ds' Hd0) as [Hsign Hspecial].
  rewrite Hsign, Hspecial.
  rewrite <- (app_nil_r (d0 :: ds')) at 1.
  rewrite (span_digits_all (d0 :: ds') [] Hd I).
  cbv iota beta. rewrite app_nil_r.
  cbn [exponent_part List.length Z.of_nat]. rewrite Hval.
  unfold of_int. destruct (Z.ltb_spec b 0); [lia|].
  rewrite Z.abs_eq by assumption. reflexivity.
Qed.

Lemma of_string_5 : of_string "5" = Return (of_int 5).
Proof. reflexivity. Qed.

Lemma of_string_239 : of_string "239" = Return (of_int 239).
Proof. reflexivity. Qed.

(** ** The program against the algorithm of the specification *)

Lemma loop_refines (fuel : nat) (scale : Z) (x_squared : Decimal) :
  1 <= scale -> canonical {| prec := scale |} x_squared ->
  forall result term divisor : Decimal,
    0 <= d_int result -> 0 <= d_int term -> 0 <= d_int divisor ->
    arctan_loop fuel scale x_squared result term divisor {| prec := scale |}
    = py.bind (spec.series fuel scale (spec.negate x_squared) term result divisor)
              (fun r => Return (r, {| prec := scale |})).
Proof.
  intros Hs Hx. set (c := {| prec := scale |}).
  assert (Hp : 1 <= prec c) by exact Hs.
  induction fuel as [|fuel IH]; intros result term divisor Hr Ht Hd; [reflexivity|].
  rewrite arctan_loop_body. unfold arctan_body.
  cbn [spec.series mbind ret Monad_outcome st_result st_term st_divisor].
  unfold spec.add, spec.multiply, spec.divide, spec.less_than, spec.abs,
    spec.ten_to_minus, spec.negate.
  fold c.
  destruct (__add__ c divisor (of_int 2)) as [d'| | |] eqn:Hadd; [|reflexivity..].
  cbn [py.bind].
  assert (H2 : 0 <= d_int (of_int 2)) by (vm_compute; discriminate).
  pose proof (add_canonical c _ _ _ Hp Hd H2 Hadd) as Hcd.
  rewrite (mul_neg_one c x_squared Hp Hx). cbn [py.bind].
  destruct (__mul__ c term (copy_negate x_squared)) as [t'| | |] eqn:Hmul;
    [|reflexivity..].
  cbn [py.bind].
  destruct (mul_canonical c term (copy_negate x_squared) t' Hp Ht (proj1 Hx) Hmul)
    as [Hct _].
  destruct (__truediv__ c t' d') as [tta| | |] eqn:Hdiv; [|reflexivity..].
  cbn [py.bind].
  destruct (truediv_canonical c _ _ _ Hp (proj1 Hct) (proj1 Hcd) Hdiv) as [Hcta _].
  rewrite (abs_canonical c tta Hp Hcta). cbn [py.bind].
  rewrite (of_string_threshold scale) by lia. cbn [py.bind].
  destruct (__lt__ (copy_abs tta) _); [reflexivity|].
  destruct (__add__ c result tta) as [r'| | |] eqn:Hadd'; [|reflexivity..].
  cbn [py.bind st_result st_term st_divisor].
  apply IH.
  - apply (add_canonical c _ _ _ Hp Hr (proj1 Hcta) Hadd').
  - apply Hct.
  - apply Hcd.
Qed.

Lemma arctan_refines (fuel : nat) (x_inv_str : string) (b scale : Z) (c : Context) :
  of_string x_inv_str = Return (of_int b) ->
  1 <= scale <= MAX_PREC ->
  arctan fuel x_inv_str scale c
  = py.bind (spec.arctanSeries fuel b scale)
            (fun r => Return (r, {| prec := scale |})).
Proof.
  intros Hstr Hs. rewrite arctan_unfold.
  destruct (Z.ltb_spec scale 1); [lia|].
  destruct (Z.ltb_spec MAX_PREC scale); [lia|]. cbn [orb].
  rewrite Hstr. cbn [py.bind]. unfold arctan_start, spec.arctanSeries.
  unfold spec.divide, spec.multiply. cbn [mbind ret Monad_outcome].
  set (c' := {| prec := scale |}).
  assert (Hp : 1 <= prec c') by (cbn; lia).
  destruct (__truediv__ c' (of_int 1) (of_int b)) as [x| | |] eqn:Hdiv;
    [|reflexivity..].
  cbn [py.bind].
  assert (H1 : 0 <= d_int (of_int 1)) by (vm_compute; discriminate).
  assert (Hb : 0 <= d_int (of_int b)) by (unfold of_int; cbn [d_int]; lia).
  destruct (truediv_canonical c' _ _ _ Hp H1 Hb Hdiv) as [Hcx _].
  destruct (__mul__ c' x x) as [xs| | |] eqn:Hmul; [|reflexivity..].
  cbn [py.bind fst snd st_result st_term st_divisor].
  destruct (mul_canonical c' _ _ _ Hp (proj1 Hcx) (proj1 Hcx) Hmul) as [Hcxs _].
  apply loop_refines; [lia|exact Hcxs|apply Hcx|apply Hcx|exact H1].
Qed.

Lemma calculate_pi_refines (fuel : nat) (digits : Z) (c : Context) :
  1 <= digits <= MAX_PREC - 10 ->
  calculate_pi fuel digits c
  = py.bind (spec.computePi fuel digits)
            (fun pi => Return (pi, {| prec := digits |})).
Proof.
  intros Hd. unfold calculate_pi, spec.computePi.
  cbn [mbind ret Monad_Prog Monad_outcome]. unfold set_prec at 1.
  destruct (Z.ltb_spec (digits + 10) 1); [lia|].
  destruct (Z.ltb_spec MAX_PREC (digits + 10)); [lia|].
  cbn [orb py.bind fst snd].
  rewrite (arctan_refines fuel "5" 5 (digits + 10) _ of_string_5) by lia.
  destruct (spec.arctanSeries fuel 5 (digits + 10)) as [t1| | |]; [|reflexivity..].
  cbn [py.bind fst snd].
  rewrite (arctan_refines fuel "239" 239 (digits + 10) _ of_string_239) by lia.
  destruct (spec.arctanSeries fuel 239 (digits + 10)) as [t2| | |]; [|reflexivity..].
  cbn [py.bind fst snd].
  unfold with_context, spec.multiply, spec.subtract, spec.round_to.
  destruct (__mul__ _ t1 (of_int 16)) as [a| | |]; [|reflexivity..].
  cbn [py.bind fst snd].
  destruct (__mul__ _ t2 (of_int 4)) as [b| | |]; [|reflexivity..].
  cbn [py.bind fst snd].
  destruct (__sub__ _ a b) as [pi| | |]; [|reflexivity..].
  cbn [py.bind fst snd]. unfold set_prec.
  destruct (Z.ltb_spec digits 1); [lia|].
  destruct (Z.ltb_spec MAX_PREC digits); [lia|].
  cbn [orb py.bind fst snd].
  destruct (__pos__ _ pi); reflexivity.
Qed.

Lemma arctanSeries_returns (fuel : nat) (x_inv_str : string) (b scale : Z) :
  of_string x_inv_str = Return (of_int b) -> 4 <= b ->
  1 <= scale <= MAX_PREC -> (Z.to_nat scale <= fuel)%nat ->
  exists r, spec.arctanSeries fuel b scale = Return r /\
            canonical {| prec := scale |} r /\ mag_le r (sci 1 0).
Proof.
  intros Hstr Hb Hs Hfuel.
  destruct (arctan_returns fuel x_inv_str b scale DefaultContext Hstr Hb Hs Hfuel)
    as (r & Hr & Hc & Hm).
  rewrite (arctan_refines fuel x_inv_str b scale _ Hstr Hs) in Hr.
  destruct (spec.arctanSeries fuel b scale) as [r'| | |]; try discriminate Hr.
  cbn [py.bind] in Hr. injection Hr as ->. exists r. auto.
Qed.

Lemma pos_fix (c : Context) (a : Decimal) :
  __pos__ c a = _fix c {| d_sign := if is_zero a then false else d_sign a;
                          d_int := d_int a; d_exp := d_exp a |}.
Proof.
  unfold __pos__. destruct (is_zero a); [reflexivity|]. destruct a; reflexivity.
Qed.

(** The Pi calculation returns once the fuel covers [digits + 10]
    iterations of each series; its result has at most [digits] digits. *)
Lemma computePi_returns (fuel : nat) (digits : Z) :
  1 <= digits <= MAX_PREC - 10 -> (Z.to_nat (digits + 10) <= fuel)%nat ->
  exists pi, spec.computePi fuel digits = Return pi /\
             canonical {| prec := digits |} pi /\ mag_le pi (sci 3 1).
Proof.
  intros Hd Hfuel. unfold spec.computePi. cbn [mbind ret Monad_outcome].
  set (scale := digits + 10) in *.
  assert (Hs : 1 <= scale <= MAX_PREC) by (unfold scale; lia).
  set (c := {| prec := scale |}).
  assert (Hp : 1 <= prec c) by (unfold c; cbn [prec]; lia).
  assert (Hte : Etiny c <= 0 /\ 1 <= Emax)
    by (unfold Etiny, Emin, Emax, c; cbn [prec]; lia).
  destruct (arctanSeries_returns fuel "5" 5 scale of_string_5 ltac:(lia) Hs Hfuel)
    as (t1 & Ht1 & Hc1 & Hm1).
  destruct (arctanSeries_returns fuel "239" 239 scale of_string_239 ltac:(lia) Hs Hfuel)
    as (t2 & Ht2 & Hc2 & Hm2).
  rewrite Ht1. cbn [py.bind]. rewrite Ht2. cbn [py.bind].
  unfold spec.multiply, spec.subtract, spec.round_to. fold c.
  destruct (mul_le c t1 (of_int 16) (sci 2 1)) as (a & Ha & _ & Hca & Hma);
    [assumption|apply Hc1|vm_compute; discriminate| | |].
  { apply canonical_sci_wide; lia. }
  { pose proof (vle_mul (d_int t1) (d_exp t1) 16 0 1 0 2 1 (proj1 Hc1)
                  ltac:(lia) Hm1) as Hv.
    apply Hv. apply (vle_intro _ _ _ _ 0); [lia..|]. vm_compute; discriminate. }
  rewrite Ha. cbn [py.bind].
  destruct (mul_le c t2 (of_int 4) (sci 4 0)) as (b & Hb & _ & Hcb & Hmb);
    [assumption|apply Hc2|vm_compute; discriminate| | |].
  { apply canonical_sci_wide; lia. }
  { pose proof (vle_mul (d_int t2) (d_exp t2) 4 0 1 0 4 0 (proj1 Hc2)
                  ltac:(lia) Hm2) as Hv.
    apply Hv. apply vle_refl. }
  rewrite Hb. cbn [py.bind]. rewrite sub_add.
  destruct (add_le c a (copy_negate b) (sci 3 1)) as (pi & Hpi & Hcpi & Hmpi);
    [assumption|apply Hca|apply Hcb| | |].
  { apply canonical_sci_wide; lia. }
  { apply (sum_le_bounds _ _ (sci 2 1) (sci 4 0)); [assumption|exact Hmb|].
    apply (sum_le_at 0); cbn [sci d_int d_exp]; [lia..|]. vm_compute; discriminate. }
  rewrite Hpi. cbn [py.bind]. rewrite pos_fix.
  destruct (fix_le {| prec := digits |}
              {| d_sign := if is_zero pi then false else d_sign pi;
                 d_int := d_int pi; d_exp := d_exp pi |} (sci 3 1))
    as (r & Hr & _ & Hcr & Hmr); [cbn [prec]; lia|apply Hcpi| |exact Hmpi|].
  { apply canonical_sci_wide; [cbn [prec]; lia|lia|].
    unfold Etiny, Emin, Emax; cbn [prec]. lia. }
  exists r. auto.
Qed.

Lemma calculate_pi_returns (fuel : nat) (digits : Z) (c : Context) :
  1 <= digits <= MAX_PREC - 10 -> (Z.to_nat (digits + 10) <= fuel)%nat ->
  exists pi, calculate_pi fuel digits c = Return (pi, {| prec := digits |}) /\
             spec.computePi fuel digits = Return pi /\
             canonical {| prec := digits |} pi.
Proof.
  intros Hd Hfuel. rewrite (calculate_pi_refines fuel digits c Hd).
  destruct (computePi_returns fuel digits Hd Hfuel) as (pi & Hpi & Hc & _).
  exists pi. rewrite Hpi. auto.
Qed.

(** ** Binary64 rounding *)

















(** ** The float operations of the harness *)










Lemma warm_up_reps_at_least_1 (reps n : Z) :
  harness.warm_up_reps reps = Return n -> 1 <= n.
Proof.
  unfold harness.warm_up_reps. cbn [mbind ret Monad_outcome].
  destruct (float.of_int reps) as [f| | |]; try discriminate. cbn [py.bind].
  destruct (float.mul f float.lit_0_1) as [t| | |]; try discriminate. cbn [py.bind].
  destruct (float.to_int t) as [i| | |]; try discriminate. cbn [py.bind].
  intros [= <-]. lia.
Qed.

(* ===================================================================== *)
(** ** The harness *)
(* ===================================================================== *)


Lemma io_bind_raise {A B} (m : harness.IO A) (k : A -> harness.IO B)
    (w w' : harness.World) (e : exn) :
  m w = (Raise e, w') -> mbind m k w = (Raise e, w').
Proof. intros H. cbn [mbind harness.Monad_IO]. rewrite H. reflexivity. Qed.

(** A call of [calculate_pi] in the main process returns, is recorded, and
    leaves the precision [digits] behind. *)
Lemma call_calculate_pi_returns (fuel : nat) (digits : Z) (w : harness.World) :
  1 <= digits <= MAX_PREC - 10 -> (Z.to_nat (digits + 10) <= fuel)%nat ->
  exists pi, spec.computePi fuel digits = Return pi /\
             harness.call_calculate_pi fuel digits w
             = (Return pi, after_calls digits 1 w).
Proof.
  intros Hd Hf.
  destruct (calculate_pi_returns fuel digits (harness.context w) Hd Hf)
    as (pi & Hpi & Hspec & _).
  exists pi. split; [assumption|].
  unfold harness.call_calculate_pi.
  cbn [mbind harness.Monad_IO harness.record_calls harness.in_main
       harness.context harness.calls harness.stdout harness.stderr
       harness.clock harness.ticks map].
  unfold harness.in_main.
  cbn [harness.context harness.calls harness.stdout harness.stderr
       harness.clock harness.ticks].
  rewrite Hpi. reflexivity.
Qed.



(** The tasks of the pool: every one returns the same value. *)
Lemma worker_run_returns (fuel : nat) (digits : Z) (n : nat) (worker : Context) :
  1 <= digits <= MAX_PREC - 10 -> (Z.to_nat (digits + 10) <= fuel)%nat ->
  exists pi, spec.computePi fuel digits = Return pi /\
             harness.worker_run fuel (repeat digits n) worker
             = Return (repeat pi n).
Proof.
  intros Hd Hf.
  destruct (computePi_returns fuel digits Hd Hf) as (pi & Hpi & _).
  exists pi. split; [assumption|].
  revert worker. induction n as [|n IH]; intros worker; [reflexivity|].
  cbn [repeat harness.worker_run mbind Monad_outcome].
  rewrite (calculate_pi_refines fuel digits worker Hd), Hpi.
  cbn [py.bind]. rewrite IH. reflexivity.
Qed.

Lemma pool_map_returns (fuel : nat) (digits : Z) (n : nat) (w : harness.World) :
  1 <= digits <= MAX_PREC - 10 -> (Z.to_nat (digits + 10) <= fuel)%nat ->
  exists pi, spec.computePi fuel digits = Return pi /\
    harness.pool_map fuel (repeat digits n) w
    = (Return (repeat pi n),
       {| harness.stdout := harness.stdout w; harness.stderr := harness.stderr w;
          harness.clock := harness.clock w; harness.ticks := harness.ticks w;
          harness.context := harness.context w;
          harness.calls := harness.calls w ++ repeat (harness.ticks w, digits) n |}).
Proof.
  intros Hd Hf.
  destruct (worker_run_returns fuel digits n (harness.context w) Hd Hf)
    as (pi & Hpi & Hrun).
  exists pi. split; [assumption|].
  unfold harness.pool_map.
  cbn [mbind harness.Monad_IO harness.record_calls harness.context].
  rewrite Hrun, map_repeat. reflexivity.
Qed.






(* ===================================================================== *)
(** ** The context the functions leave behind *)
(* ===================================================================== *)

(** The loop only reads the context. *)
Lemma arctan_loop_context (fuel : nat) (scale : Z) (x_squared : Decimal) :
  forall (result term divisor : Decimal) (c : Context) (r : Decimal) (c' : Context),
    arctan_loop fuel scale x_squared result term divisor c = Return (r, c') ->
    c' = c.
Proof.
  induction fuel as [|fuel IH]; intros result term divisor c r c' H;
    [discriminate|].
  rewrite arctan_loop_body in H.
  destruct (arctan_body c scale x_squared _) as [[res|st]| | |];
    cbn [py.bind] in H; try discriminate.
  - injection H as _ <-. reflexivity.
  - exact (IH _ _ _ _ _ _ H).
Qed.

(** Whenever [arctan] returns, the context holds the precision [scale]. *)
Lemma arctan_context (fuel : nat) (x_inv_str : string) (scale : Z)
    (c : Context) (r : Decimal) (c' : Context) :
  arctan fuel x_inv_str scale c = Return (r, c') -> c' = {| prec := scale |}.
Proof.
  rewrite arctan_unfold.
  destruct ((scale <? 1) || (MAX_PREC <? scale)); [discriminate|].
  destruct (of_string x_inv_str) as [x_inv| | |]; cbn [py.bind]; try discriminate.
  destruct (arctan_start _ x_inv) as [[x_squared st]| | |];
    cbn [py.bind fst snd]; try discriminate.
  apply arctan_loop_context.
Qed.

(** Whenever [calculate_pi] returns, the context holds the precision
    [digits]. *)
Lemma calculate_pi_context (fuel : nat) (digits : Z)
    (c : Context) (pi : Decimal) (c' : Context) :
  calculate_pi fuel digits c = Return (pi, c') -> c' = {| prec := digits |}.
Proof.
  unfold calculate_pi. cbn [mbind Monad_Prog]. unfold set_prec at 1.
  destruct ((digits + 10 <? 1) || (MAX_PREC <? digits + 10)); [discriminate|].
  cbn [py.bind fst snd].
  destruct (arctan fuel "5" _ _) as [[t1 c1]| | |];
    cbn [py.bind fst snd]; try discriminate.
  destruct (arctan fuel "239" _ _) as [[t2 c2]| | |];
    cbn [py.bind fst snd]; try discriminate.
  unfold with_context.
  destruct (__mul__ c2 t1 _) as [a| | |]; cbn [py.bind fst snd]; try discriminate.
  destruct (__mul__ c2 t2 _) as [b| | |]; cbn [py.bind fst snd]; try discriminate.
  destruct (__sub__ c2 a b) as [d| | |]; cbn [py.bind fst snd]; try discriminate.
  unfold set_prec.
  destruct ((digits <? 1) || (MAX_PREC <? digits)); cbn [py.bind fst snd];
    [discriminate|].
  destruct (__pos__ _ d) as [p| | |]; cbn [py.bind]; try discriminate.
  intros H. injection H as _ <-. reflexivity.
Qed.

(** The result of [calculate_pi] does not depend on the context it finds:
    its first statement assigns the precision. *)
Lemma calculate_pi_any_context (fuel : nat) (digits : Z) (c1 c2 : Context) :
  calculate_pi fuel digits c1 = calculate_pi fuel digits c2.
Proof. reflexivity. Qed.

Lemma arctan_any_context (fuel : nat) (x_inv_str : string) (scale : Z)
    (c1 c2 : Context) :
  arctan fuel x_inv_str scale c1 = arctan fuel x_inv_str scale c2.
Proof. reflexivity. Qed.

(** The divisor of the division in iteration [j] is the integer [2j + 3]. *)
Lemma divisor_of_iteration (c : Context) (j : Z) (st : loop_state) :
  1 <= prec c <= MAX_PREC -> series_inv c j st ->
  __add__ c (st_divisor st) (of_int 2) = Return (sci (2 * j + 3) 0) /\
  is_zero (sci (2 * j + 3) 0) = false.
Proof.
  intros Hp (Hj & Hjp & Hd & _). rewrite Hd.
  pose proof (linear_lt_pow10 (prec c) ltac:(lia)) as Hlin.
  assert (Hlin' : 2 * MAX_PREC + 1 < 10 ^ 19) by (vm_compute; reflexivity).
  unfold sci at 1.
  rewrite (add_two c (2 * j + 1)) by lia.
  split.
  - unfold sci. do 2 f_equal. lia.
  - unfold is_zero, sci; cbn [d_int]. apply Z.eqb_neq. lia.
Qed.

(* ===================================================================== *)
(** ** The warm-up count as an integer *)
(* ===================================================================== *)




(* ===================================================================== *)
(** * The claims of the specification *)
(* ===================================================================== *)

(** The example of the specification: ten digits of Pi. *)
Example calculate_pi_10_digits :
  calculate_pi 20 10 DefaultContext
  = Return ({| d_sign := false; d_int := 3141592654; d_exp := -9 |},
            {| prec := 10 |}).
Proof. vm_compute. reflexivity. Qed.





(** C4: for the bases 5 and 239 and every [scale >= 1] the loop of
    [arctan] ends: it breaks within [scale] iterations. With that many
    iterations allowed the function returns a value when the context accepts
    the precision and raises the [ValueError] of the assignment of the
    precision otherwise; it never is still running. *)
Theorem arctan_terminates (fuel : nat) (x_inv_str : string) (scale : Z)
    (c : Context) :
  x_inv_str = "5"%string \/ x_inv_str = "239"%string ->
  1 <= scale -> (Z.to_nat scale <= fuel)%nat ->
  (scale <= MAX_PREC ->
   exists r, arctan fuel x_inv_str scale c = Return (r, {| prec := scale |})) /\
  (MAX_PREC < scale ->
   arctan fuel x_inv_str scale c
   = Raise (ValueError "valid range for prec is [1, MAX_PREC]")) /\
  arctan fuel x_inv_str scale c <> OutOfFuel.
Proof.
  intros Hbase Hs Hf.
  assert (Hret : scale <= MAX_PREC ->
                 exists r, arctan fuel x_inv_str scale c
                           = Return (r, {| prec := scale |})).
  { intros Hmax.
    destruct Hbase as [->| ->].
    - destruct (arctan_returns fuel "5" 5 scale c of_string_5) as (r & Hr & _);
        [lia|lia|assumption|]. exists r. exact Hr.
    - destruct (arctan_returns fuel "239" 239 scale c of_string_239)
        as (r & Hr & _); [lia|lia|assumption|]. exists r. exact Hr. }
  assert (Hraise : MAX_PREC < scale ->
                   arctan fuel x_inv_str scale c
                   = Raise (ValueError "valid range for prec is [1, MAX_PREC]")).
  { intros Hmax. rewrite arctan_unfold.
    destruct (Z.ltb_spec scale 1); [lia|].
    destruct (Z.ltb_spec MAX_PREC scale); [reflexivity|lia]. }
  split; [exact Hret|]. split; [exact Hraise|].
  destruct (Z.le_gt_cases scale MAX_PREC) as [Hle|Hgt].
  - destruct (Hret Hle) as (r & ->). discriminate.
  - rewrite (Hraise Hgt). discriminate.
Qed.

Lemma arctan_terminates_239 :
  (20 <= MAX_PREC ->
   exists r, arctan 20 "239" 20 DefaultContext = Return (r, {| prec := 20 |})) /\
  (MAX_PREC < 20 ->
   arctan 20 "239" 20 DefaultContext
   = Raise (ValueError "valid range for prec is [1, MAX_PREC]")) /\
  arctan 20 "239" 20 DefaultContext <> OutOfFuel.
Proof.
  apply (arctan_terminates 20 "239" 20 DefaultContext).
  - right. reflexivity.
  - lia.
  - vm_compute. lia.
Defined.

(** C5, as the code has it: the precision is not an argument of the
    operations. [arctan] and [calculate_pi] assign it to the context of the
    process, every operation reads it there, and the functions do not put
    the former precision back: whenever they return the context holds
    [scale], and [digits]. What holds is that each function assigns the
    precision before its first operation, so that its outcome does not
    depend on the precision it finds. *)
Theorem outcome_independent_of_context_found (fuel : nat) (x_inv_str : string)
    (scale digits : Z) (c1 c2 : Context) :
  arctan fuel x_inv_str scale c1 = arctan fuel x_inv_str scale c2 /\
  calculate_pi fuel digits c1 = calculate_pi fuel digits c2 /\
  (forall r c', arctan fuel x_inv_str scale c1 = Return (r, c') ->
                c' = {| prec := scale |}) /\
  (forall pi c', calculate_pi fuel digits c1 = Return (pi, c') ->
                 c' = {| prec := digits |}).
Proof.
  split; [apply arctan_any_context|].
  split; [apply calculate_pi_any_context|].
  split; intros r c'.
  - apply arctan_context.
  - apply calculate_pi_context.
Qed.

(** C5, the counterexample: [calculate_pi(1)] called in the context of a
    fresh interpreter (28 digits) leaves the precision 1 there, and the
    quotient 1/3 the caller computes afterwards is not the one it computed
    before. *)
Lemma calculate_pi_writes_the_context :
  (exists pi, calculate_pi 20 1 DefaultContext = Return (pi, {| prec := 1 |})) /\
  {| prec := 1 |} <> DefaultContext /\
  (x <- calculate_pi 20 1 ;; of_int 1 /d of_int 3) DefaultContext
  <> (of_int 1 /d of_int 3) DefaultContext.
Proof.
  split; [eexists; vm_compute; reflexivity|].
  split; [discriminate|].
  vm_compute. discriminate.
Qed.

(** C9: dividing by zero is an error the engine defines
    ([DivisionByZero], or [DivisionUndefined] for 0/0), and
    [calculate_pi(digits)] does not meet it: for every [digits >= 1] the
    context accepts, it returns; the strings "5" and "239" denote the
    nonzero numbers 5 and 239, and in every iteration [j] (from 0) the loop
    reaches, the divisor of the division is the odd integer [2j + 3]. *)
Theorem division_by_zero_not_met (fuel : nat) (digits : Z) (c : Context) :
  1 <= digits <= MAX_PREC - 10 -> (Z.to_nat (digits + 10) <= fuel)%nat ->
  (forall (context : Context) (a b : Decimal),
      is_zero b = true ->
      __truediv__ context a b
      = Raise (if is_zero a then DivisionUndefined else DivisionByZero)) /\
  (exists pi, calculate_pi fuel digits c = Return (pi, {| prec := digits |})) /\
  (forall (x_inv_str : string) (b : Z),
      (x_inv_str = "5"%string /\ b = 5) \/ (x_inv_str = "239"%string /\ b = 239) ->
      of_string x_inv_str = Return (of_int b) /\ is_zero (of_int b) = false /\
      exists x_squared st0,
        arctan_start {| prec := digits + 10 |} (of_int b) = Return (x_squared, st0) /\
        forall (j : nat) (st : loop_state),
          reaches {| prec := digits + 10 |} (digits + 10) x_squared st0 j st ->
          __add__ {| prec := digits + 10 |} (st_divisor st) (of_int 2)
          = Return (sci (2 * Z.of_nat j + 3) 0) /\
          is_zero (sci (2 * Z.of_nat j + 3) 0) = false).
Proof.
  intros Hd Hf.
  split; [intros context a b; apply truediv_by_zero|].
  split.
  { destruct (calculate_pi_returns fuel digits c Hd Hf) as (pi & Hpi & _).
    exists pi. exact Hpi. }
  intros x_inv_str b Hbase.
  assert (Hb : of_string x_inv_str = Return (of_int b) /\ 4 <= b).
  { destruct Hbase as [[-> ->]|[-> ->]].
    - split; [exact of_string_5|lia].
    - split; [exact of_string_239|lia]. }
  destruct Hb as [Hstr Hb].
  split; [exact Hstr|].
  split; [unfold is_zero, of_int; cbn [d_int]; apply Z.eqb_neq; lia|].
  assert (Hp : 1 <= prec {| prec := digits + 10 |} <= MAX_PREC) by (cbn [prec]; lia).
  destruct (start_inv {| prec := digits + 10 |} b Hp Hb)
    as (x & x_squared & Hstart & Hxc & Hxb & Hinv).
  exists x_squared, {| st_result := x; st_term := x; st_divisor := of_int 1 |}.
  split; [exact Hstart|].
  intros j st Hreach.
  apply divisor_of_iteration; [exact Hp|].
  apply (reaches_inv {| prec := digits + 10 |} (digits + 10) x_squared
           eq_refl ltac:(cbn [prec] in Hp; exact Hp) Hxc Hxb _ j st Hinv Hreach).
Qed.

Lemma division_by_zero_not_met_10 :
  (forall (context : Context) (a b : Decimal),
      is_zero b = true ->
      __truediv__ context a b
      = Raise (if is_zero a then DivisionUndefined else DivisionByZero)) /\
  (exists pi, calculate_pi 20 10 DefaultContext = Return (pi, {| prec := 10 |})) /\
  (forall (x_inv_str : string) (b : Z),
      (x_inv_str = "5"%string /\ b = 5) \/ (x_inv_str = "239"%string /\ b = 239) ->
      of_string x_inv_str = Return (of_int b) /\ is_zero (of_int b) = false /\
      exists x_squared st0,
        arctan_start {| prec := 10 + 10 |} (of_int b) = Return (x_squared, st0) /\
        forall (j : nat) (st : loop_state),
          reaches {| prec := 10 + 10 |} (10 + 10) x_squared st0 j st ->
          __add__ {| prec := 10 + 10 |} (st_divisor st) (of_int 2)
          = Return (sci (2 * Z.of_nat j + 3) 0) /\
          is_zero (sci (2 * Z.of_nat j + 3) 0) = false).
Proof.
  apply (division_by_zero_not_met 20 10 DefaultContext).
  - unfold MAX_PREC. lia.
  - vm_compute. lia.
Defined.

(** C10: whenever [arctan(x_inv_str, scale)] returns, the context of the
    process holds the precision [scale], and whenever [calculate_pi(digits)]
    returns it holds [digits], whatever it held before; the code of the
    caller that follows runs under that precision. For the arguments of the
    program the functions do return. *)
Theorem precision_left_in_context (fuel : nat) (x_inv_str : string)
    (scale digits : Z) (c : Context) :
  (forall (r : Decimal) (c' : Context),
      arctan fuel x_inv_str scale c = Return (r, c') ->
      c' = {| prec := scale |} /\
      forall (A : Type) (k : Decimal -> Prog A),
        (x <- arctan fuel x_inv_str scale ;; k x) c = k r {| prec := scale |}) /\
  (forall (pi : Decimal) (c' : Context),
      calculate_pi fuel digits c = Return (pi, c') ->
      c' = {| prec := digits |} /\
      forall (A : Type) (k : Decimal -> Prog A),
        (x <- calculate_pi fuel digits ;; k x) c = k pi {| prec := digits |}) /\
  (x_inv_str = "5"%string \/ x_inv_str = "239"%string ->
   1 <= scale <= MAX_PREC -> (Z.to_nat scale <= fuel)%nat ->
   exists r, arctan fuel x_inv_str scale c = Return (r, {| prec := scale |})) /\
  (1 <= digits <= MAX_PREC - 10 -> (Z.to_nat (digits + 10) <= fuel)%nat ->
   exists pi, calculate_pi fuel digits c = Return (pi, {| prec := digits |})).
Proof.
  split; [|split; [|split]].
  - intros r c' H. pose proof (arctan_context _ _ _ _ _ _ H) as ->.
    split; [reflexivity|]. intros A k.
    cbn [mbind Monad_Prog]. rewrite H. reflexivity.
  - intros pi c' H. pose proof (calculate_pi_context _ _ _ _ _ H) as ->.
    split; [reflexivity|]. intros A k.
    cbn [mbind Monad_Prog]. rewrite H. reflexivity.
  - intros Hbase Hs Hf.
    destruct Hbase as [->| ->].
    + destruct (arctan_returns fuel "5" 5 scale c of_string_5) as (r & Hr & _);
        [lia|assumption|assumption|]. exists r. exact Hr.
    + destruct (arctan_returns fuel "239" 239 scale c of_string_239)
        as (r & Hr & _); [lia|assumption|assumption|]. exists r. exact Hr.
  - intros Hd Hf.
    destruct (calculate_pi_returns fuel digits c Hd Hf) as (pi & Hpi & _).
    exists pi. exact Hpi.
Qed.

Lemma precision_left_in_context_10 :
  (exists r, arctan 20 "5" 20 DefaultContext = Return (r, {| prec := 20 |})) /\
  (exists pi, calculate_pi 20 10 DefaultContext = Return (pi, {| prec := 10 |})).
Proof.
  destruct (precision_left_in_context 20 "5" 20 10 DefaultContext)
    as (_ & _ & Harctan & Hpi).
  split.
  - apply Harctan; [left; reflexivity|unfold MAX_PREC; lia|vm_compute; lia].
  - apply Hpi; [unfold MAX_PREC; lia|vm_compute; lia].
Defined.








(* ===================================================================== *)
(** * More properties of the program *)
(* ===================================================================== *)

(** ** The series *)



(** X2: the invariant of the loop of [arctan], for every base [b >= 4] and
    every precision the context accepts: when the loop enters its iteration
    [j] (from 0), [j < scale], the divisor is the integer [2j + 1], the term
    is at most [10^-j] and the partial sum at most [1 - 10^-(j+1)] in
    magnitude, and both fit the precision [scale]. *)
Theorem series_loop_invariant (b scale : Z) :
  4 <= b -> 1 <= scale <= MAX_PREC ->
  exists x_squared st0,
    arctan_start {| prec := scale |} (of_int b) = Return (x_squared, st0) /\
    forall (j : nat) (st : loop_state),
      reaches {| prec := scale |} scale x_squared st0 j st ->
      Z.of_nat j < scale /\
      st_divisor st = sci (2 * Z.of_nat j + 1) 0 /\
      canonical {| prec := scale |} (st_term st) /\
      mag_le (st_term st) (sci 1 (- Z.of_nat j)) /\
      canonical {| prec := scale |} (st_result st) /\
      mag_le (st_result st) (sum_bound (Z.of_nat j)).
Proof.
  intros Hb Hs.
  assert (Hp : 1 <= prec {| prec := scale |} <= MAX_PREC) by (cbn [prec]; lia).
  destruct (start_inv {| prec := scale |} b Hp Hb)
    as (x & x_squared & Hstart & Hxc & Hxb & Hinv).
  exists x_squared, {| st_result := x; st_term := x; st_divisor := of_int 1 |}.
  split; [exact Hstart|].
  intros j st Hreach.
  pose proof (reaches_inv {| prec := scale |} scale x_squared
                eq_refl Hs Hxc Hxb _ j st Hinv Hreach)
    as (Hj & Hjp & Hd & Hct & Hmt & Hcr & Hmr).
  cbn [prec] in Hjp.
  repeat (split; [first [assumption|lia]|]). assumption.
Qed.

Lemma series_loop_invariant_5 :
  exists x_squared st0,
    arctan_start {| prec := 20 |} (of_int 5) = Return (x_squared, st0) /\
    forall (j : nat) (st : loop_state),
      reaches {| prec := 20 |} 20 x_squared st0 j st ->
      Z.of_nat j < 20 /\
      st_divisor st = sci (2 * Z.of_nat j + 1) 0 /\
      canonical {| prec := 20 |} (st_term st) /\
      mag_le (st_term st) (sci 1 (- Z.of_nat j)) /\
      canonical {| prec := 20 |} (st_result st) /\
      mag_le (st_result st) (sum_bound (Z.of_nat j)).
Proof.
  apply (series_loop_invariant 5 20); [lia|unfold MAX_PREC; lia].
Defined.

(** X3: [arctan(str(b), scale)] returns for every base [b >= 4], not only
    for 5 and 239: the loop breaks within [scale] iterations, and the value
    has at most [scale] digits and is at most 1 in magnitude. *)
Theorem arctan_returns_from_base_4 (fuel : nat) (b scale : Z) (c : Context) :
  4 <= b -> 1 <= scale <= MAX_PREC -> (Z.to_nat scale <= fuel)%nat ->
  exists r, arctan fuel (pystr.str b) scale c = Return (r, {| prec := scale |}) /\
            canonical {| prec := scale |} r /\ mag_le r (sci 1 0).
Proof.
  intros Hb Hs Hf.
  apply (arctan_returns fuel (pystr.str b) b scale c); try assumption.
  apply of_string_str. lia.
Qed.

Lemma arctan_returns_from_base_4_at_7 :
  exists r, arctan 30 (pystr.str 7) 30 DefaultContext = Return (r, {| prec := 30 |}) /\
            canonical {| prec := 30 |} r /\ mag_le r (sci 1 0).
Proof.
  apply (arctan_returns_from_base_4 30 7 30 DefaultContext).
  - lia.
  - unfold MAX_PREC. lia.
  - vm_compute. lia.
Defined.



(** The combination [t1 * 16 - t2 * 4] of two numbers of at most 1 returns. *)
Lemma machin_combination_returns (c : Context) (t1 t2 : Decimal) :
  1 <= prec c <= MAX_PREC ->
  canonical c t1 -> mag_le t1 (sci 1 0) ->
  canonical c t2 -> mag_le t2 (sci 1 0) ->
  exists a b pi,
    __mul__ c t1 (of_int 16) = Return a /\
    __mul__ c t2 (of_int 4) = Return b /\
    __sub__ c a b = Return pi /\
    canonical c pi /\ mag_le pi (sci 3 1).
Proof.
  intros Hs Hc1 Hm1 Hc2 Hm2.
  assert (Hp : 1 <= prec c) by lia.
  assert (Hte : Etiny c <= 0 /\ 1 <= Emax)
    by (unfold Etiny, Emin, Emax; lia).
  destruct (mul_le c t1 (of_int 16) (sci 2 1)) as (a & Ha & _ & Hca & Hma);
    [assumption|apply Hc1|vm_compute; discriminate| | |].
  { apply canonical_sci_wide; lia. }
  { pose proof (vle_mul (d_int t1) (d_exp t1) 16 0 1 0 2 1 (proj1 Hc1)
                  ltac:(lia) Hm1) as Hv.
    apply Hv. apply (vle_intro _ _ _ _ 0); [lia..|]. vm_compute; discriminate. }
  destruct (mul_le c t2 (of_int 4) (sci 4 0)) as (b & Hb & _ & Hcb & Hmb);
    [assumption|apply Hc2|vm_compute; discriminate| | |].
  { apply canonical_sci_wide; lia. }
  { pose proof (vle_mul (d_int t2) (d_exp t2) 4 0 1 0 4 0 (proj1 Hc2)
                  ltac:(lia) Hm2) as Hv.
    apply Hv. apply vle_refl. }
  destruct (add_le c a (copy_negate b) (sci 3 1)) as (pi & Hpi & Hcpi & Hmpi);
    [assumption|apply Hca|apply Hcb| | |].
  { apply canonical_sci_wide; lia. }
  { apply (sum_le_bounds _ _ (sci 2 1) (sci 4 0)); [assumption|exact Hmb|].
    apply (sum_le_at 0); cbn [sci d_int d_exp]; [lia..|]. vm_compute; discriminate. }
  exists a, b, pi. rewrite sub_add. auto.
Qed.



(** X6: [x_squared * Decimal(-1)] is [x_squared] with the sign changed and
    nothing else, for the [x_squared] the program computes as [x * x]: the
    multiplication by [-1] does not round, and [term *= x_squared *
    Decimal(-1)] rounds once. *)
Theorem minus_x_squared_is_exact (c : Context) (x x_squared : Decimal) :
  1 <= prec c -> 0 <= d_int x ->
  __mul__ c x x = Return x_squared ->
  __mul__ c x_squared (of_int (-1)) = Return (copy_negate x_squared) /\
  d_sign (copy_negate x_squared) = true.
Proof.
  intros Hp Hx Hmul.
  destruct (mul_canonical c x x x_squared Hp Hx Hx Hmul) as [Hc Hsign].
  split; [apply mul_neg_one; assumption|].
  cbn [copy_negate d_sign]. rewrite Hsign. destruct (d_sign x); reflexivity.
Qed.

Lemma minus_x_squared_is_exact_fifth :
  __mul__ DefaultContext (sci 4 (-2)) (of_int (-1))
  = Return (copy_negate (sci 4 (-2))) /\
  d_sign (copy_negate (sci 4 (-2))) = true.
Proof.
  apply (minus_x_squared_is_exact DefaultContext (sci 2 (-1)) (sci 4 (-2))).
  - vm_compute. discriminate.
  - vm_compute. discriminate.
  - vm_compute. reflexivity.
Defined.

(** The sign of the term after one more iteration. *)
Lemma body_term_sign (c : Context) (scale : Z) (x_squared : Decimal)
    (st st' : loop_state) :
  1 <= prec c -> 0 <= d_int x_squared -> 0 <= d_int (st_term st) ->
  arctan_body c scale x_squared st = Return (inr st') ->
  d_sign (st_term st') = xorb (d_sign (st_term st)) (negb (d_sign x_squared)).
Proof.
  intros Hp Hx Ht. unfold arctan_body. cbn [mbind ret Monad_outcome].
  destruct (__add__ c (st_divisor st) (of_int 2)) as [d| | |];
    cbn [py.bind]; try discriminate.
  destruct (__mul__ c x_squared (of_int (-1))) as [m| | |] eqn:Hm;
    cbn [py.bind]; try discriminate.
  destruct (mul_canonical c x_squared (of_int (-1)) m Hp Hx
              ltac:(vm_compute; discriminate) Hm) as [Hmc Hms].
  destruct (__mul__ c (st_term st) m) as [t| | |] eqn:Hterm;
    cbn [py.bind]; try discriminate.
  destruct (mul_canonical c (st_term st) m t Hp Ht (proj1 Hmc) Hterm)
    as [_ Hts].
  destruct (__truediv__ c t d) as [tta| | |]; cbn [py.bind]; try discriminate.
  destruct (__abs__ c tta) as [mag| | |]; cbn [py.bind]; try discriminate.
  destruct (of_string _) as [thr| | |]; cbn [py.bind]; try discriminate.
  destruct (__lt__ mag thr); [discriminate|].
  destruct (__add__ c (st_result st) tta) as [r| | |];
    cbn [py.bind]; try discriminate.
  intros [= <-]. cbn [st_term]. rewrite Hts, Hms.
  cbn [of_int d_sign Z.ltb Z.compare]. rewrite xorb_true_r. reflexivity.
Qed.

(** X7: the series alternates. For every base [b >= 4], the term the loop
    holds when it enters iteration [j] is positive (or zero) for even [j]
    and carries the minus sign for odd [j]. *)
Theorem terms_alternate_in_sign (b scale : Z) :
  4 <= b -> 1 <= scale <= MAX_PREC ->
  exists x_squared st0,
    arctan_start {| prec := scale |} (of_int b) = Return (x_squared, st0) /\
    forall (j : nat) (st : loop_state),
      reaches {| prec := scale |} scale x_squared st0 j st ->
      d_sign (st_term st) = Nat.odd j.
Proof.
  intros Hb Hs.
  assert (Hp : 1 <= prec {| prec := scale |} <= MAX_PREC) by (cbn [prec]; lia).
  destruct (start_inv {| prec := scale |} b Hp Hb)
    as (x & x_squared & Hstart & Hxc & Hxb & Hinv).
  exists x_squared, {| st_result := x; st_term := x; st_divisor := of_int 1 |}.
  split; [exact Hstart|].
  (* the signs of [x] and of [x * x] *)
  assert (Hsigns : d_sign x = false /\ d_sign x_squared = false).
  { unfold arctan_start in Hstart. cbn [mbind ret Monad_outcome] in Hstart.
    destruct (__truediv__ _ (of_int 1) (of_int b)) as [x'| | |] eqn:Hdiv;
      cbn [py.bind] in Hstart; try discriminate.
    destruct (truediv_canonical {| prec := scale |} (of_int 1) (of_int b) x' (proj1 Hp)
                ltac:(vm_compute; discriminate)
                ltac:(unfold of_int; cbn [d_int]; lia) Hdiv) as [Hxc' Hxs].
    destruct (__mul__ _ x' x') as [x2| | |] eqn:Hmul;
      cbn [py.bind] in Hstart; try discriminate.
    destruct (mul_canonical _ _ _ x2 (proj1 Hp) (proj1 Hxc') (proj1 Hxc') Hmul)
      as [_ Hx2s].
    injection Hstart as <- <-.
    split.
    - rewrite Hxs. unfold of_int; cbn [d_sign].
      destruct (Z.ltb_spec b 0); [lia|reflexivity].
    - rewrite Hx2s. destruct (d_sign x'); reflexivity. }
  destruct Hsigns as [Hxs Hx2s].
  intros j st Hreach.
  induction Hreach as [|j st st' Hreach IH Hbody].
  - exact Hxs.
  - pose proof (reaches_inv {| prec := scale |} scale x_squared
                  eq_refl Hs Hxc Hxb _ j st Hinv Hreach)
      as (_ & _ & _ & Hct & _).
    rewrite (body_term_sign _ scale x_squared st st' (proj1 Hp)
               (proj1 Hxc) (proj1 Hct) Hbody).
    rewrite IH, Hx2s, Nat.odd_succ, <- Nat.negb_odd.
    destruct (Nat.odd j); reflexivity.
Qed.

Lemma terms_alternate_in_sign_5 :
  exists x_squared st0,
    arctan_start {| prec := 20 |} (of_int 5) = Return (x_squared, st0) /\
    forall (j : nat) (st : loop_state),
      reaches {| prec := 20 |} 20 x_squared st0 j st ->
      d_sign (st_term st) = Nat.odd j.
Proof.
  apply (terms_alternate_in_sign 5 20); [lia|unfold MAX_PREC; lia].
Defined.

(** ** The harness *)






(** The digits of a number below [10^k] are at most [k]. *)
Lemma digits_aux_length (fuel : nat) :
  forall n k : Z,
    1 <= k -> 0 <= n < 10 ^ k ->
    Z.of_nat (List.length (pystr.digits_aux fuel n)) <= k.
Proof.
  induction fuel as [|fuel IH]; intros n k Hk Hn; [cbn; lia|].
  cbn [pystr.digits_aux]. destruct (Z.ltb_spec n 10) as [Hlt|Hge].
  - cbn. lia.
  - rewrite length_app, Nat2Z.inj_add. cbn [List.length Z.of_nat Pos.of_succ_nat].
    assert (Hk2 : 2 <= k).
    { destruct (Z.eq_dec k 1) as [->|]; [|lia]. change (10 ^ 1) with 10 in Hn. lia. }
    assert (Hq : 0 <= n / 10 < 10 ^ (k - 1)).
    { split; [apply Z.div_pos; lia|].
      apply Z.div_lt_upper_bound; [lia|].
      rewrite <- pow10_succ by lia. replace (k - 1 + 1) with k by lia. lia. }
    specialize (IH (n / 10) (k - 1) ltac:(lia) Hq). lia.
Qed.

(** A string of digits has no underscores to skip. *)
Lemma grouped_digits_all (ds : list ascii) :
  ds <> [] -> Forall (fun c => pystr.is_digit c = true) ds ->
  pystr.grouped_digits ds = Some ds.
Proof.
  induction ds as [|c ds IH]; intros Hne Hd; [contradiction|].
  inversion Hd as [|? ? Hc Hds]; subst.
  cbn [pystr.grouped_digits]. rewrite Hc.
  destruct ds as [|c' ds']; [reflexivity|].
  assert (Hrec : pystr.grouped_digits (c' :: ds') = Some (c' :: ds'))
    by (apply IH; [discriminate|assumption]).
  inversion Hds as [|? ? Hc' _]; subst.
  destruct c' as [[] [] [] [] [] [] [] []]; try discriminate Hc';
    rewrite Hrec; reflexivity.
Qed.

(** [int(str(n)) = n], up to the number of digits [int()] accepts. *)
Lemma int_str (n : Z) :
  0 <= n < 10 ^ 4300 -> pystr.int (pystr.str n) = Return n.
Proof.
  intros [Hn Hlt].
  destruct (str_nonneg n Hn) as (ds & Hds & Hdig).
  assert (Hlen : Z.of_nat (List.length ds) <= 4300).
  { rewrite <- Hds. unfold pystr.str.
    destruct (Z.ltb_spec n 0); [lia|]. rewrite Z.abs_eq by assumption.
    rewrite list_ascii_of_string_of_list_ascii.
    apply digits_aux_length; lia. }
  destruct Hdig as (Hne & Hd & Hsp & Hus & Hval).
  unfold pystr.int. rewrite Hds, (strip_no_space ds Hsp).
  destruct ds as [|d0 ds']; [contradiction|].
  assert (Hd0 : pystr.is_digit d0 = true) by (inversion Hd; assumption).
  destruct (digit_not_sign d0 ds' Hd0) as [Hsign _].
  rewrite Hsign, (grouped_digits_all (d0 :: ds') Hne Hd).
  unfold pystr.int_max_str_digits.
  destruct (Z.ltb_spec 4300 (Z.of_nat (List.length (d0 :: ds')))); [lia|].
  rewrite Hval. reflexivity.
Qed.

(** X10: the numbers of the report line are arguments again. For positive
    [digits], [repsPerThread] and [threads] of at most 4300 digits, the
    [try] block of [main] reads the strings [str(digits)],
    [str(repsPerThread)], [str(threads)] back as the three numbers. *)
Theorem printed_numbers_parse_back (prog : string) (digits reps workers : Z) :
  0 < digits < 10 ^ 4300 -> 0 < reps < 10 ^ 4300 -> 0 < workers < 10 ^ 4300 ->
  harness.parse_arguments
    [prog; pystr.str digits; pystr.str reps; pystr.str workers]
  = Return (digits, reps, workers).
Proof.
  intros Hd Hr Hn. unfold harness.parse_arguments.
  cbn [nth mbind ret Monad_outcome].
  rewrite (int_str digits), (int_str reps), (int_str workers) by lia.
  cbn [py.bind].
  destruct (Z.leb_spec digits 0); [lia|].
  destruct (Z.leb_spec reps 0); [lia|].
  destruct (Z.leb_spec workers 0); [lia|]. reflexivity.
Qed.

Lemma printed_numbers_parse_back_example :
  harness.parse_arguments
    ["pi_benchmark.py"%string; pystr.str 5000; pystr.str 1000; pystr.str 8]
  = Return (5000, 1000, 8).
Proof.
  assert (H : forall n, 0 < n < 10 ^ 4 -> 0 < n < 10 ^ 4300).
  { intros n [H0 H1]. split; [assumption|].
    apply Z.lt_trans with (10 ^ 4); [assumption|].
    apply Z.pow_lt_mono_r; lia. }
  apply (printed_numbers_parse_back "pi_benchmark.py" 5000 1000 8);
    apply H; lia.
Defined.

(** X11: the tasks are the same computation. On a [digits] the context
    accepts, every task of [pool.map(calculate_pi, tasks)] returns the value
    a call in the main process returns, the value of [computePi(digits)],
    whatever precision the main process or the worker had before; and the
    number of results is the number of tasks. *)
Theorem pool_results_are_equal (fuel : nat) (digits : Z) (n : nat)
    (w : harness.World) :
  1 <= digits <= MAX_PREC - 10 -> (Z.to_nat (digits + 10) <= fuel)%nat ->
  exists pi,
    spec.computePi fuel digits = Return pi /\
    fst (harness.call_calculate_pi fuel digits w) = Return pi /\
    fst (harness.pool_map fuel (repeat digits n) w) = Return (repeat pi n) /\
    (forall worker : Context,
        harness.worker_run fuel (repeat digits n) worker = Return (repeat pi n)) /\
    List.length (repeat pi n) = n.
Proof.
  intros Hd Hf.
  destruct (call_calculate_pi_returns fuel digits w Hd Hf) as (pi & Hpi & Hcall).
  exists pi. split; [exact Hpi|].
  split; [rewrite Hcall; reflexivity|].
  split.
  - destruct (pool_map_returns fuel digits n w Hd Hf) as (pi' & Hpi' & Hpool).
    rewrite Hpool. cbn [fst]. rewrite Hpi in Hpi'. injection Hpi' as ->.
    reflexivity.
  - split; [|apply repeat_length].
    intros worker.
    destruct (worker_run_returns fuel digits n worker Hd Hf) as (pi' & Hpi' & Hrun).
    rewrite Hrun. rewrite Hpi in Hpi'. injection Hpi' as ->. reflexivity.
Qed.

Lemma pool_results_are_equal_20 :
  exists pi,
    spec.computePi 110 100 = Return pi /\
    fst (harness.call_calculate_pi 110 100 fresh_process) = Return pi /\
    fst (harness.pool_map 110 (repeat 100 20) fresh_process)
    = Return (repeat pi 20) /\
    (forall worker : Context,
        harness.worker_run 110 (repeat 100 20) worker = Return (repeat pi 20)) /\
    List.length (repeat pi 20) = 20%nat.
Proof.
  apply (pool_results_are_equal 110 100 20 fresh_process).
  - unfold MAX_PREC. lia.
  - vm_compute. lia.
Defined.

(* ===================================================================== *)
(** * The value of the result *)
(* ===================================================================== *)

(** The numbers of the program as real numbers: every operation returns
    the exact result moved by a rounding error that is bounded here, and
    the loop of [arctan] follows the series of the arctangent of the
    standard library's real numbers within these errors. *)

(** ** Powers of ten and magnitudes as real numbers *)

Lemma p10_pos (k : Z) : (0 < p10 k)%R.
Proof. apply powerRZ_lt. lra. Qed.

Lemma p10_add (a b : Z) : p10 (a + b) = (p10 a * p10 b)%R.
Proof. apply powerRZ_add. lra. Qed.

Lemma p10_IZR (k : Z) : 0 <= k -> IZR (10 ^ k) = p10 k.
Proof.
  intros Hk. unfold p10. rewrite <- (Z2Nat.id k Hk).
  rewrite <- pow_IZR, <- pow_powerRZ. reflexivity.
Qed.

Lemma p10_0 : p10 0 = 1%R.
Proof. reflexivity. Qed.

Lemma p10_ge_1 (k : Z) : 0 <= k -> (1 <= p10 k)%R.
Proof.
  intros Hk. rewrite <- p10_IZR by assumption. apply IZR_le.
  pose proof (pow10_pos k Hk). lia.
Qed.

Lemma p10_le (a b : Z) : a <= b -> (p10 a <= p10 b)%R.
Proof.
  intros H. replace b with (a + (b - a)) by lia. rewrite p10_add.
  pose proof (p10_pos a). pose proof (p10_ge_1 (b - a) ltac:(lia)). nra.
Qed.

Lemma p10_succ (a : Z) : p10 (a + 1) = (10 * p10 a)%R.
Proof. rewrite p10_add. change (p10 1) with (10 * 1)%R. ring. Qed.

Lemma p10_lt (a b : Z) : a < b -> (p10 a < p10 b)%R.
Proof.
  intros H. apply Rlt_le_trans with (p10 (a + 1)).
  - rewrite p10_succ. pose proof (p10_pos a). lra.
  - apply p10_le. lia.
Qed.

Lemma p10_lt_inv (a b : Z) : (p10 a < p10 b)%R -> a < b.
Proof.
  intros H. destruct (Z_lt_le_dec a b) as [|Hle]; [assumption|].
  apply p10_le in Hle. lra.
Qed.

Lemma p10_le_inv (a b : Z) : (p10 a <= p10 b)%R -> a <= b.
Proof.
  intros H. destruct (Z_le_gt_dec a b) as [|Hgt]; [assumption|].
  apply Z.gt_lt, p10_lt in Hgt. lra.
Qed.

(** A coefficient at a lower exponent. *)
Lemma scaled (c e k : Z) :
  k <= e -> (IZR c * p10 e = IZR (c * 10 ^ (e - k)) * p10 k)%R.
Proof.
  intros H. rewrite mult_IZR, p10_IZR by lia.
  replace e with ((e - k) + k) at 1 by lia. rewrite p10_add. ring.
Qed.

Lemma vle_R (c1 e1 c2 e2 : Z) :
  vle c1 e1 c2 e2 <-> (IZR c1 * p10 e1 <= IZR c2 * p10 e2)%R.
Proof.
  unfold vle. set (k := Z.min e1 e2).
  assert (k <= e1 /\ k <= e2) as [H1 H2] by (unfold k; lia). clearbody k.
  rewrite (scaled c1 e1 k H1), (scaled c2 e2 k H2).
  pose proof (p10_pos k) as Hk.
  split; intros H.
  - apply Rmult_le_compat_r; [lra|]. apply IZR_le. exact H.
  - apply le_IZR. apply Rmult_le_reg_r with (p10 k); assumption.
Qed.

Lemma mag_le_R (a g : Decimal) : mag_le a g <-> (mag_R a <= mag_R g)%R.
Proof. apply vle_R. Qed.

Lemma mag_R_nonneg (a : Decimal) : 0 <= d_int a -> (0 <= mag_R a)%R.
Proof.
  intros H. unfold mag_R. apply Rmult_le_pos; [apply IZR_le; assumption|].
  apply Rlt_le, p10_pos.
Qed.

Lemma Rabs_to_R (a : Decimal) : 0 <= d_int a -> Rabs (to_R a) = mag_R a.
Proof.
  intros H. pose proof (mag_R_nonneg a H). unfold to_R, sgn_R.
  destruct (d_sign a).
  - replace (-1 * mag_R a)%R with (- mag_R a)%R by ring.
    rewrite Rabs_Ropp. apply Rabs_pos_eq. assumption.
  - rewrite Rmult_1_l. apply Rabs_pos_eq. assumption.
Qed.

Lemma sgn_R_xorb (s1 s2 : bool) : sgn_R (xorb s1 s2) = (sgn_R s1 * sgn_R s2)%R.
Proof. destruct s1, s2; unfold sgn_R; cbn; ring. Qed.

Lemma Rabs_sgn_R (s : bool) (x : R) : Rabs (sgn_R s * x) = Rabs x.
Proof.
  destruct s; unfold sgn_R.
  - replace (-1 * x)%R with (- x)%R by ring. apply Rabs_Ropp.
  - rewrite Rmult_1_l. reflexivity.
Qed.

(** The magnitude of a number of [n] digits. *)
Lemma mag_R_digits (a : Decimal) :
  0 < d_int a ->
  (p10 (adjusted a) <= mag_R a < p10 (adjusted a + 1))%R.
Proof.
  intros H. unfold adjusted, mag_R.
  pose proof (ndigits_spec (d_int a) H) as [Hlo Hhi].
  pose proof (ndigits_pos (d_int a)) as Hn.
  pose proof (p10_pos (d_exp a)) as He.
  apply IZR_le in Hlo. apply IZR_lt in Hhi.
  rewrite p10_IZR in Hlo, Hhi by lia.
  replace (d_exp a + ndigits (d_int a) - 1 + 1)
    with (ndigits (d_int a) + d_exp a) by lia.
  replace (d_exp a + ndigits (d_int a) - 1)
    with ((ndigits (d_int a) - 1) + d_exp a) by lia.
  rewrite !p10_add. split.
  - apply Rmult_le_compat_r; lra.
  - apply Rmult_lt_compat_r; lra.
Qed.

(** Rounding a coefficient to [keep] digits moves it by at most half a
    unit of the last digit kept. *)
Lemma round_half_even_error (c keep : Z) :
  0 <= c -> 0 < ndigits c - keep ->
  2 * Z.abs ((if 0 <? _round_half_even c keep then kept c keep + 1 else kept c keep)
             * 10 ^ (ndigits c - keep) - c)
  <= 10 ^ (ndigits c - keep).
Proof.
  intros Hc Ht. unfold _round_half_even, _round_half_up, dropped, half, kept.
  set (t := ndigits c - keep) in *.
  replace (t) with ((t - 1) + 1) at 1 2 3 4 5 6 7 8 9 by lia.
  assert (Hs : 10 ^ t = 10 * 10 ^ (t - 1)).
  { replace t with ((t - 1) + 1) at 1 by lia. rewrite pow10_succ by lia. ring. }
  pose proof (pow10_pos (t - 1) ltac:(lia)) as HP.
  replace (t - 1 + 1) with t by lia.
  rewrite Hs. set (P := 10 ^ (t - 1)) in *.
  pose proof (Z.div_mod c (10 * P) ltac:(lia)) as Hdm.
  pose proof (Z.mod_pos_bound c (10 * P) ltac:(lia)) as Hmod.
  set (q := c / (10 * P)) in *. set (r := c mod (10 * P)) in *.
  destruct (Z.eqb_spec r (5 * P)) as [Hhalf|Hhalf]; cbn [andb].
  - destruct (Z.even q).
    + cbn [Z.ltb Z.compare]. lia.
    + destruct (Z.leb_spec (5 * P) r); [|lia]. cbn [Z.ltb Z.compare]. lia.
  - destruct (Z.leb_spec (5 * P) r).
    + cbn [Z.ltb Z.compare]. lia.
    + destruct (Z.eqb_spec r 0); cbn [Z.ltb Z.compare]; lia.
Qed.

(** [_fix] moves a number by at most half a unit of its last digit. *)
Lemma fix_error (c : Context) (a a' : Decimal) :
  1 <= prec c -> 0 < d_int a -> _fix c a = Return a' ->
  d_sign a' = d_sign a /\ 0 <= d_int a' /\
  (a' = a \/
   (d_exp a < Z.max (ndigits (d_int a) + d_exp a - prec c) (Etiny c) /\
    d_exp a <= d_exp a' /\
    2 * Z.abs (d_int a' * 10 ^ (d_exp a' - d_exp a) - d_int a)
    <= 10 ^ (Z.max (ndigits (d_int a) + d_exp a - prec c) (Etiny c) - d_exp a))).
Proof.
  intros Hp Hpos.
  unfold _fix, is_zero.
  destruct (Z.eqb_spec (d_int a) 0) as [H0|H0]; [lia|].
  set (nd := ndigits (d_int a)) in *.
  pose proof (ndigits_pos (d_int a)) as Hnd. fold nd in Hnd.
  destruct (Z.ltb_spec (Etop c) (nd + d_exp a - prec c)) as [Hov|Hov];
    [discriminate|].
  set (exp_min := if nd + d_exp a - prec c <? Etiny c
                  then Etiny c else nd + d_exp a - prec c).
  assert (Hem : exp_min = Z.max (nd + d_exp a - prec c) (Etiny c)).
  { unfold exp_min. destruct (Z.ltb_spec (nd + d_exp a - prec c) (Etiny c)); lia. }
  rewrite <- Hem. clearbody exp_min.
  destruct (Z.ltb_spec (d_exp a) exp_min) as [Hround|Hkeep].
  2:{ intros [= <-]. split; [reflexivity|]. split; [lia|]. left. reflexivity. }
  destruct (Z.ltb_spec (nd + d_exp a - exp_min) 0) as [Hneg|Hnn].
  { change (_round_half_even 1 0) with (-1). change (kept 1 0) with 0.
    cbn [Z.ltb Z.compare andb].
    destruct (Z.ltb_spec (Etop c) exp_min); [discriminate|].
    intros [= <-]. cbn [d_sign d_int d_exp].
    split; [reflexivity|]. split; [lia|]. right.
    split; [assumption|]. split; [lia|].
    pose proof (ndigits_spec (d_int a) Hpos) as [_ Hhi]. fold nd in Hhi.
    assert (Hle : 10 ^ nd <= 10 ^ (exp_min - d_exp a - 1)) by (apply pow10_le; lia).
    assert (Hs : 10 ^ (exp_min - d_exp a) = 10 * 10 ^ (exp_min - d_exp a - 1)).
    { replace (exp_min - d_exp a) with ((exp_min - d_exp a - 1) + 1) at 1 by lia.
      rewrite pow10_succ by lia. ring. }
    rewrite Hs. lia. }
  set (digits := nd + d_exp a - exp_min) in *.
  assert (Hd : ndigits (d_int a) - digits = exp_min - d_exp a)
    by (unfold digits; fold nd; lia).
  pose proof (round_half_even_error (d_int a) digits ltac:(lia) ltac:(lia)) as Herr.
  pose proof (kept_bounds (d_int a) digits ltac:(lia) ltac:(lia)) as (Hq0 & Hqlo & Hqhi).
  rewrite Hd in Herr, Hqlo, Hqhi.
  set (q := kept (d_int a) digits) in *.
  set (changed := _round_half_even (d_int a) digits) in *.
  set (p := 10 ^ (exp_min - d_exp a)) in *.
  assert (Hppos : 0 < p) by (apply pow10_pos; lia).
  assert (Hdig : digits <= prec c) by (unfold digits; lia).
  assert (Hqlt : q < 10 ^ digits).
  { pose proof (ndigits_spec (d_int a) Hpos) as [_ Hhi]. fold nd in Hhi.
    replace nd with (digits + (exp_min - d_exp a)) in Hhi by (unfold digits; lia).
    rewrite pow10_add in Hhi by lia. fold p in Hhi. nia. }
  assert (Hqprec : q < 10 ^ prec c).
  { pose proof (pow10_le digits (prec c) Hdig). lia. }
  destruct (Z.ltb_spec 0 changed) as [Hch|Hch]; cbn [andb].
  - destruct (Z.ltb_spec (prec c) (ndigits (q + 1))) as [Hb|Hb].
    + assert (Hq1 : q + 1 = 10 ^ prec c).
      { assert (10 ^ prec c <= q + 1); [|lia].
        destruct (Z_le_gt_dec (10 ^ prec c) (q + 1)); [assumption|].
        pose proof (ndigits_le (q + 1) (prec c) Hp ltac:(lia)). lia. }
      assert (Hdiv : (q + 1) / 10 = 10 ^ (prec c - 1)).
      { rewrite Hq1. rewrite (pow10_split (prec c) 1) by lia.
        change (10 ^ 1) with 10. apply Z.div_mul. lia. }
      rewrite Hdiv.
      destruct (Z.ltb_spec (Etop c) (exp_min + 1)); [discriminate|].
      intros [= <-]. cbn [d_sign d_int d_exp].
      split; [reflexivity|]. split; [apply pow10_nonneg|]. right.
      split; [assumption|]. split; [lia|].
      replace (exp_min + 1 - d_exp a) with ((exp_min - d_exp a) + 1) by lia.
      rewrite pow10_succ by lia. fold p.
      assert (Hq10 : 10 ^ (prec c - 1) * 10 = q + 1).
      { rewrite Hq1, Z.mul_comm, <- pow10_succ by lia. f_equal. lia. }
      replace (10 ^ (prec c - 1) * (10 * p)) with ((10 ^ (prec c - 1) * 10) * p) by ring.
      rewrite Hq10. exact Herr.
    + destruct (Z.ltb_spec (Etop c) exp_min); [discriminate|].
      intros [= <-]. cbn [d_sign d_int d_exp].
      split; [reflexivity|]. split; [lia|]. right.
      split; [assumption|]. split; [lia|]. exact Herr.
  - destruct (Z.ltb_spec (Etop c) exp_min); [discriminate|].
    intros [= <-]. cbn [d_sign d_int d_exp].
    split; [reflexivity|]. split; [lia|]. right.
    split; [assumption|]. split; [lia|]. exact Herr.
Qed.

(** The same on the values: a number below [10^K] moves by at most
    [10^(K - prec) / 2]. *)
Lemma fix_value (c : Context) (a a' : Decimal) (K : Z) :
  1 <= prec c -> 0 <= d_int a -> _fix c a = Return a' ->
  (mag_R a < p10 K)%R -> Etiny c <= K - prec c ->
  d_sign a' = d_sign a /\ 0 <= d_int a' /\
  (Rabs (mag_R a' - mag_R a) <= / 2 * p10 (K - prec c))%R.
Proof.
  intros Hp Ha Hfix Hmag Het.
  pose proof (p10_pos (K - prec c)) as Hpk.
  destruct (Z.eq_dec (d_int a) 0) as [H0|H0].
  { unfold _fix, is_zero in Hfix. rewrite H0 in Hfix. cbn in Hfix.
    injection Hfix as <-. cbn [d_sign d_int].
    split; [reflexivity|]. split; [lia|].
    unfold mag_R; cbn [d_int d_exp]. rewrite H0, !Rmult_0_l, Rminus_0_r, Rabs_R0.
    lra. }
  destruct (fix_error c a a' Hp ltac:(lia) Hfix) as (Hs & Hi & [->|(Hlt & He & Herr)]).
  { split; [reflexivity|]. split; [assumption|].
    rewrite Rminus_diag, Rabs_R0. lra. }
  split; [assumption|]. split; [assumption|].
  set (exp_min := Z.max (ndigits (d_int a) + d_exp a - prec c) (Etiny c)) in *.
  (* the exponent of the rounding is at most K - prec *)
  assert (Hexp : exp_min <= K - prec c).
  { pose proof (mag_R_digits a ltac:(lia)) as [Hlo _].
    assert (Hadj : adjusted a < K) by (apply p10_lt_inv; lra).
    unfold adjusted in Hadj. unfold exp_min. lia. }
  unfold mag_R.
  rewrite (scaled (d_int a') (d_exp a') (d_exp a) He).
  rewrite <- Rmult_minus_distr_r, <- minus_IZR.
  rewrite Rabs_mult, (Rabs_pos_eq (p10 (d_exp a))) by (apply Rlt_le, p10_pos).
  rewrite <- abs_IZR.
  apply IZR_le in Herr. rewrite mult_IZR, p10_IZR in Herr by lia.
  pose proof (p10_pos (d_exp a)) as Hpe.
  pose proof (p10_le exp_min (K - prec c) Hexp) as Hmono.
  replace exp_min with ((exp_min - d_exp a) + d_exp a) in Hmono at 1 by lia.
  rewrite p10_add in Hmono.
  set (X := IZR (Z.abs (d_int a' * 10 ^ (d_exp a' - d_exp a) - d_int a))) in *.
  set (Y := p10 (exp_min - d_exp a)) in *.
  assert (X * p10 (d_exp a) <= / 2 * Y * p10 (d_exp a))%R.
  { apply Rmult_le_compat_r; lra. }
  lra.
Qed.

Lemma Rabs_bounds (x a : R) : (Rabs x <= a -> - a <= x <= a)%R.
Proof. unfold Rabs. destruct (Rcase_abs x); lra. Qed.

Lemma to_R_diff_same_sign (s : bool) (m1 m2 : R) :
  Rabs (sgn_R s * m1 - sgn_R s * m2) = Rabs (m1 - m2).
Proof. rewrite <- Rmult_minus_distr_l. apply Rabs_sgn_R. Qed.

(** [__mul__]: the product, moved by at most [10^(K - prec) / 2]. *)
Lemma mul_value (c : Context) (a b r : Decimal) (K : Z) :
  1 <= prec c -> 0 <= d_int a -> 0 <= d_int b ->
  __mul__ c a b = Return r ->
  (mag_R a * mag_R b < p10 K)%R -> Etiny c <= K - prec c ->
  0 <= d_int r /\
  (Rabs (to_R r - to_R a * to_R b) <= / 2 * p10 (K - prec c))%R.
Proof.
  intros Hp Ha Hb Hmul Hmag Het. rewrite mul_fix in Hmul.
  set (v := {| d_sign := xorb (d_sign a) (d_sign b);
               d_int := d_int a * d_int b; d_exp := d_exp a + d_exp b |}) in *.
  assert (Hv : mag_R v = (mag_R a * mag_R b)%R).
  { unfold mag_R, v; cbn [d_int d_exp]. rewrite mult_IZR, p10_add. ring. }
  destruct (fix_value c v r K Hp ltac:(unfold v; cbn [d_int]; nia) Hmul
              ltac:(rewrite Hv; exact Hmag) Het) as (Hs & Hr & Herr).
  split; [assumption|].
  unfold to_R at 1. rewrite Hs. unfold v at 1; cbn [d_sign].
  replace (to_R a * to_R b)%R
    with (sgn_R (xorb (d_sign a) (d_sign b)) * (mag_R a * mag_R b))%R
    by (rewrite sgn_R_xorb; unfold to_R; ring).
  rewrite to_R_diff_same_sign, <- Hv. exact Herr.
Qed.

(** The comparison with the threshold is exact. *)
Lemma lt_threshold (a : Decimal) (n : Z) :
  0 <= d_int a -> __lt__ (copy_abs a) (sci 1 n) = true ->
  (mag_R a < p10 n)%R.
Proof.
  intros Ha. unfold __lt__, _cmp, is_zero, copy_abs, sci, adjusted.
  cbn [d_sign d_int d_exp andb negb sgn].
  destruct (Z.eqb_spec (d_int a) 0) as [H0|H0].
  { intros _. unfold mag_R. rewrite H0, Rmult_0_l. apply p10_pos. }
  change (1 =? 0) with false. cbv iota.
  change (ndigits 1) with 1.
  pose proof (mag_R_digits a ltac:(lia)) as [_ Hhi]. unfold adjusted in Hhi.
  pose proof (ndigits_pos (d_int a)) as Hnd.
  destruct (Z.eqb_spec (d_exp a + ndigits (d_int a) - 1) (n + 1 - 1)) as [He|He].
  - rewrite (Z.max_l 0 (d_exp a - n)), (Z.max_r 0 (n - d_exp a)) by lia.
    change (10 ^ 0) with 1. rewrite Z.mul_1_r, Z.mul_1_l.
    destruct (Z.eqb_spec (d_int a) (10 ^ (n - d_exp a))); [discriminate|].
    destruct (Z.ltb_spec (d_int a) (10 ^ (n - d_exp a))) as [Hlt|]; [|discriminate].
    intros _. unfold mag_R.
    apply IZR_lt in Hlt. rewrite p10_IZR in Hlt by lia.
    replace n with ((n - d_exp a) + d_exp a) at 1 by lia. rewrite p10_add.
    apply Rmult_lt_compat_r; [apply p10_pos|assumption].
  - destruct (Z.ltb_spec (n + 1 - 1) (d_exp a + ndigits (d_int a) - 1)); [discriminate|].
    intros _. apply Rlt_le_trans with (1 := Hhi). apply p10_le. lia.
Qed.

(** The coefficient and exponent [__truediv__] hands to [_fix] denote the
    quotient up to one unit of the last digit. *)
Lemma quotient_value (c : Context) (a b : Decimal) :
  1 <= prec c -> 0 < d_int a -> 0 < d_int b ->
  0 <= fst (quotient c a b) /\
  (Rabs (IZR (fst (quotient c a b)) * p10 (snd (quotient c a b))
         - mag_R a / mag_R b)
   <= p10 (adjusted a - adjusted b - prec c - 1))%R.
Proof.
  intros Hp Ha Hb.
  split; [apply quotient_nonneg; assumption|].
  unfold quotient.
  set (shift := ndigits (d_int b) - ndigits (d_int a) + prec c + 1).
  set (exp := d_exp a - d_exp b - shift).
  assert (Hexp : adjusted a - adjusted b - prec c - 1 = exp)
    by (unfold adjusted, exp, shift; lia).
  rewrite Hexp.
  set (num := if 0 <=? shift then d_int a * 10 ^ shift else d_int a).
  set (den := if 0 <=? shift then d_int b else d_int b * 10 ^ (- shift)).
  assert (Hden : 0 < den).
  { unfold den. destruct (Z.leb_spec 0 shift); [assumption|].
    apply Z.mul_pos_pos; [assumption|apply pow10_pos; lia]. }
  assert (Hnum : 0 <= num).
  { unfold num. destruct (Z.leb_spec 0 shift); [|lia].
    apply Z.mul_nonneg_nonneg; [lia|apply pow10_nonneg]. }
  pose proof (p10_pos exp) as Hpe.
  pose proof (p10_pos (d_exp a)) as Hpa.
  pose proof (p10_pos (d_exp b)) as Hpb.
  assert (HIb : (0 < IZR (d_int b))%R) by (apply IZR_lt; assumption).
  assert (HIden : (0 < IZR den)%R) by (apply IZR_lt; assumption).
  (* the exact quotient *)
  assert (HQ : (mag_R a / mag_R b = IZR num / IZR den * p10 exp)%R).
  { unfold mag_R, num, den, exp.
    destruct (Z.leb_spec 0 shift) as [Hs|Hs].
    - rewrite mult_IZR, p10_IZR by assumption.
      replace (d_exp a) with ((d_exp a - d_exp b - shift) + shift + d_exp b) at 1 by lia.
      rewrite !p10_add. pose proof (p10_pos shift).
      pose proof (p10_pos (d_exp a - d_exp b - shift)). field. lra.
    - rewrite mult_IZR, p10_IZR by lia.
      replace (d_exp a - d_exp b - shift) with ((d_exp a - d_exp b) + - shift) by lia.
      replace (d_exp a) with ((d_exp a - d_exp b) + d_exp b) at 1 by lia.
      rewrite !p10_add. pose proof (p10_pos (- shift)).
      pose proof (p10_pos (d_exp a - d_exp b)). field. lra. }
  rewrite HQ.
  pose proof (Z.div_mod num den ltac:(lia)) as Hdm.
  pose proof (Z.mod_pos_bound num den Hden) as Hmod.
  set (q := num / den) in *. set (r := num mod den) in *.
  assert (Hq0 : 0 <= q) by (apply Z.div_pos; assumption).
  assert (HQn : (IZR q <= IZR num / IZR den < IZR q + 1)%R).
  { assert (H1 : (IZR q * IZR den <= IZR num)%R)
      by (rewrite <- mult_IZR; apply IZR_le; lia).
    assert (H2 : (IZR num < (IZR q + 1) * IZR den)%R)
      by (rewrite <- plus_IZR, <- mult_IZR; apply IZR_lt; nia).
    split.
    - apply Rmult_le_reg_r with (IZR den); [assumption|].
      unfold Rdiv. rewrite Rmult_assoc, Rinv_l, Rmult_1_r by lra. assumption.
    - apply Rmult_lt_reg_r with (IZR den); [assumption|].
      unfold Rdiv. rewrite Rmult_assoc, Rinv_l, Rmult_1_r by lra. assumption. }
  destruct (Z.eqb_spec r 0) as [Hr|Hr]; cbn [negb].
  - (* exact *)
    destruct (strip_zeros _ q exp (d_exp a - d_exp b)) as [c' e'] eqn:Hstrip.
    destruct (strip_zeros_spec _ _ _ _ _ _ Hq0 Hstrip) as (Hc' & He' & Hval).
    cbn [fst snd].
    rewrite (scaled c' e' exp He'), Hval.
    assert (HQe : (IZR num / IZR den = IZR q)%R).
    { replace num with (den * q) by lia. rewrite mult_IZR. field. lra. }
    rewrite HQe, Rminus_diag, Rabs_R0. lra.
  - cbn [fst snd].
    rewrite <- Rmult_minus_distr_r, Rabs_mult, (Rabs_pos_eq (p10 exp)) by lra.
    rewrite <- (Rmult_1_l (p10 exp)) at 2.
    apply Rmult_le_compat_r; [lra|].
    destruct (q mod 5 =? 0).
    + rewrite plus_IZR. apply Rabs_le. lra.
    + apply Rabs_le. lra.
Qed.

(** [__truediv__]: the quotient, moved by at most [10^(K + 1 - prec)]. *)
Lemma truediv_value (c : Context) (a b r : Decimal) (K : Z) :
  1 <= prec c -> 0 <= d_int a -> 0 < d_int b ->
  __truediv__ c a b = Return r ->
  (mag_R a < p10 K * mag_R b)%R -> Etiny c <= K + 1 - prec c ->
  0 <= d_int r /\
  (Rabs (to_R r - to_R a / to_R b) <= p10 (K + 1 - prec c))%R.
Proof.
  intros Hp Ha Hb Hdiv Hmag Het.
  pose proof (p10_pos (K + 1 - prec c)) as Hpk.
  assert (Hmb : (0 < mag_R b)%R).
  { unfold mag_R. apply Rmult_lt_0_compat; [apply IZR_lt; assumption|apply p10_pos]. }
  destruct (Z.eq_dec (d_int a) 0) as [Ha0|Ha0].
  { unfold __truediv__, is_zero in Hdiv.
    destruct (Z.eqb_spec (d_int b) 0); [lia|].
    rewrite Ha0 in Hdiv. cbn [Z.eqb] in Hdiv.
    unfold _fix, is_zero in Hdiv. cbn [d_int Z.eqb] in Hdiv.
    injection Hdiv as <-. cbn [d_int]. split; [lia|].
    unfold to_R, mag_R; cbn [d_int d_exp]. rewrite Ha0.
    unfold Rdiv. rewrite !Rmult_0_l, !Rmult_0_r, !Rmult_0_l, Rminus_diag, Rabs_R0.
    lra. }
  rewrite truediv_fix in Hdiv by lia.
  destruct (quotient_value c a b Hp ltac:(lia) Hb) as (Hq0 & Hqerr).
  set (qc := fst (quotient c a b)) in *. set (qe := snd (quotient c a b)) in *.
  set (v := {| d_sign := xorb (d_sign a) (d_sign b); d_int := qc; d_exp := qe |}) in *.
  change (IZR qc * p10 qe)%R with (mag_R v) in Hqerr.
  (* the quotient is below 10^K, its last digit below 10^(K - prec - 1) *)
  assert (HQ : (mag_R a / mag_R b < p10 K)%R).
  { apply Rmult_lt_reg_r with (mag_R b); [assumption|].
    unfold Rdiv. rewrite Rmult_assoc, Rinv_l, Rmult_1_r by lra. assumption. }
  assert (Hexp : adjusted a - adjusted b - prec c - 1 <= K - prec c - 1).
  { pose proof (mag_R_digits a ltac:(lia)) as [Hlo _].
    pose proof (mag_R_digits b Hb) as [_ Hhi].
    assert (adjusted a < K + (adjusted b + 1)); [|lia].
    apply p10_lt_inv. rewrite p10_add.
    apply Rle_lt_trans with (1 := Hlo). apply Rlt_trans with (1 := Hmag).
    apply Rmult_lt_compat_l; [apply p10_pos|assumption]. }
  apply p10_le in Hexp.
  assert (Hsmall : (p10 (K - prec c - 1) <= / 100 * p10 (K + 1 - prec c))%R).
  { replace (K + 1 - prec c) with ((K - prec c - 1) + 1 + 1) by lia.
    rewrite !p10_succ. pose proof (p10_pos (K - prec c - 1)). lra. }
  assert (Hle1 : (p10 (K + 1 - prec c) <= p10 K)%R) by (apply p10_le; lia).
  assert (HQ0 : (0 <= mag_R a / mag_R b)%R).
  { apply Rmult_le_pos; [apply mag_R_nonneg; assumption|].
    apply Rlt_le, Rinv_0_lt_compat. assumption. }
  assert (Hvmag : (mag_R v < p10 (K + 1))%R).
  { apply Rabs_bounds in Hqerr. rewrite p10_succ. pose proof (p10_pos K). lra. }
  destruct (fix_value c v r (K + 1) Hp Hq0 Hdiv Hvmag Het) as (Hs & Hr & Herr).
  split; [assumption|].
  unfold to_R at 1. rewrite Hs. unfold v at 1; cbn [d_sign].
  replace (to_R a / to_R b)%R
    with (sgn_R (xorb (d_sign a) (d_sign b)) * (mag_R a / mag_R b))%R.
  2:{ rewrite sgn_R_xorb. unfold to_R, sgn_R.
      destruct (d_sign a), (d_sign b); field; lra. }
  rewrite to_R_diff_same_sign.
  replace (mag_R r - mag_R a / mag_R b)%R
    with ((mag_R r - mag_R v) + (mag_R v - mag_R a / mag_R b))%R by ring.
  apply Rle_trans with (1 := Rabs_triang _ _). lra.
Qed.

(** [_normalize] keeps the operand with the larger exponent and moves the
    other by less than a unit of the digit after the last one of the
    precision. *)
Lemma normalize_value (p : Z) (a b : Decimal) :
  1 <= p -> 0 < d_int a -> 0 < d_int b ->
  (Rabs (mag_R (fst (_normalize a b p)) - mag_R a)
   + Rabs (mag_R (snd (_normalize a b p)) - mag_R b)
   <= p10 (Z.max (adjusted a) (adjusted b) - p - 1))%R.
Proof.
  intros Hp Ha Hb.
  assert (Hcore : forall t o : Decimal,
             0 < d_int t -> 0 < d_int o -> d_exp o <= d_exp t ->
             let exp := d_exp t + Z.min (-1) (ndigits (d_int t) - p - 2) in
             let o' := if ndigits (d_int o) + d_exp o - 1 <? exp
                       then {| d_sign := d_sign o; d_int := 1; d_exp := exp |}
                       else o in
             let t' := {| d_sign := d_sign t;
                          d_int := d_int t * 10 ^ (d_exp t - d_exp o');
                          d_exp := d_exp o' |} in
             (mag_R t' = mag_R t /\
              Rabs (mag_R o' - mag_R o) <= p10 (adjusted t - p - 1))%R).
  { intros t o Ht Ho Hexp exp o' t'.
    pose proof (ndigits_pos (d_int t)) as Hnt.
    pose proof (p10_pos (adjusted t - p - 1)) as Hpos.
    assert (Hexp' : exp <= adjusted t - p - 1) by (unfold exp, adjusted; lia).
    assert (Ho' : d_exp o' <= d_exp t).
    { unfold o'. destruct (Z.ltb_spec (ndigits (d_int o) + d_exp o - 1) exp);
        cbn [d_exp]; [unfold exp|]; lia. }
    split.
    - unfold t', mag_R; cbn [d_int d_exp]. symmetry. apply scaled. assumption.
    - unfold o'. destruct (Z.ltb_spec (ndigits (d_int o) + d_exp o - 1) exp) as [Hrep|Hrep].
      + pose proof (mag_R_digits o Ho) as [Hlo Hhi].
        assert (Hle : (p10 (adjusted o + 1) <= p10 exp)%R)
          by (apply p10_le; unfold adjusted; lia).
        pose proof (p10_pos (adjusted o)).
        pose proof (p10_le exp _ Hexp').
        unfold mag_R at 1; cbn [d_int d_exp]. rewrite Rmult_1_l.
        apply Rabs_le. lra.
      + rewrite Rminus_diag, Rabs_R0. lra. }
  unfold _normalize.
  destruct (Z.ltb_spec (d_exp a) (d_exp b)) as [Hsw|Hsw]; cbv zeta.
  - destruct (Hcore b a Hb Ha ltac:(lia)) as [Ht Ho]. cbv zeta in Ht, Ho.
    cbn [fst snd]. rewrite Ht, Rminus_diag, Rabs_R0, Rplus_0_r.
    apply Rle_trans with (1 := Ho). apply p10_le. lia.
  - destruct (Hcore a b Ha Hb ltac:(lia)) as [Ht Ho]. cbv zeta in Ht, Ho.
    cbn [fst snd]. rewrite Ht, Rminus_diag, Rabs_R0, Rplus_0_l.
    apply Rle_trans with (1 := Ho). apply p10_le. lia.
Qed.

(** The number [__add__] hands to [_fix] is the sum, up to that unit. *)
Lemma add_fix_value (c : Context) (a b : Decimal) (K : Z) :
  1 <= prec c -> 0 <= d_int a -> 0 <= d_int b ->
  (mag_R a <= p10 K)%R -> (mag_R b <= p10 K)%R ->
  exists v, __add__ c a b = _fix c v /\ 0 <= d_int v /\
            (Rabs (to_R v - (to_R a + to_R b)) <= p10 (K - prec c - 1))%R.
Proof.
  intros Hp Ha Hb Hma Hmb.
  pose proof (p10_pos (K - prec c - 1)) as Hpk.
  unfold __add__, is_zero.
  destruct (Z.eqb_spec (d_int a) 0) as [Ha0|Ha0];
    destruct (Z.eqb_spec (d_int b) 0) as [Hb0|Hb0]; cbn [andb].
  - eexists; split; [reflexivity|]. cbn [d_int]. split; [lia|].
    unfold to_R, mag_R; cbn [d_int d_exp]. rewrite Ha0, Hb0.
    rewrite !Rmult_0_l, !Rmult_0_r, Rplus_0_l, Rminus_diag, Rabs_R0. lra.
  - set (exp := Z.max (Z.min (d_exp a) (d_exp b)) (d_exp b - prec c - 1)).
    assert (Hexp : exp <= d_exp b) by (unfold exp; lia). clearbody exp.
    eexists; split; [reflexivity|].
    unfold _rescale, is_zero.
    destruct (Z.eqb_spec (d_int b) 0); [contradiction|].
    destruct (Z.leb_spec exp (d_exp b)); [|lia]. cbn [d_int].
    pose proof (pow10_pos (d_exp b - exp) ltac:(lia)).
    split; [nia|].
    unfold to_R, mag_R; cbn [d_sign d_int d_exp].
    rewrite <- (scaled (d_int b) (d_exp b) exp Hexp), Ha0.
    rewrite !Rmult_0_l, !Rmult_0_r, Rplus_0_l, Rminus_diag, Rabs_R0. lra.
  - set (exp := Z.max (Z.min (d_exp a) (d_exp b)) (d_exp a - prec c - 1)).
    assert (Hexp : exp <= d_exp a) by (unfold exp; lia). clearbody exp.
    eexists; split; [reflexivity|].
    unfold _rescale, is_zero.
    destruct (Z.eqb_spec (d_int a) 0); [contradiction|].
    destruct (Z.leb_spec exp (d_exp a)); [|lia]. cbn [d_int].
    pose proof (pow10_pos (d_exp a - exp) ltac:(lia)).
    split; [nia|].
    unfold to_R, mag_R; cbn [d_sign d_int d_exp].
    rewrite <- (scaled (d_int a) (d_exp a) exp Hexp), Hb0.
    rewrite !Rmult_0_l, !Rmult_0_r, Rplus_0_r, Rminus_diag, Rabs_R0. lra.
  - (* both nonzero *)
    pose proof (normalize_sum (prec c) a b Hp ltac:(lia) ltac:(lia))
      as (He & Hs1 & Hs2 & H1 & H2 & _).
    pose proof (normalize_value (prec c) a b Hp ltac:(lia) ltac:(lia)) as Hval.
    destruct (_normalize a b (prec c)) as [op1 op2].
    cbn [fst snd] in *.
    (* the error of the operands *)
    assert (Hadj : Z.max (adjusted a) (adjusted b) <= K).
    { pose proof (mag_R_digits a ltac:(lia)) as [Hla _].
      pose proof (mag_R_digits b ltac:(lia)) as [Hlb _].
      assert (adjusted a <= K) by (apply p10_le_inv; lra).
      assert (adjusted b <= K) by (apply p10_le_inv; lra). lia. }
    assert (Hth : (Rabs (mag_R op1 - mag_R a) + Rabs (mag_R op2 - mag_R b)
                   <= p10 (K - prec c - 1))%R).
    { apply Rle_trans with (1 := Hval). apply p10_le. lia. }
    assert (Hops : (Rabs (to_R op1 + to_R op2 - (to_R a + to_R b))
                    <= p10 (K - prec c - 1))%R).
    { replace (to_R op1 + to_R op2 - (to_R a + to_R b))%R
        with ((to_R op1 - to_R a) + (to_R op2 - to_R b))%R by ring.
      apply Rle_trans with (1 := Rabs_triang _ _).
      unfold to_R. rewrite Hs1, Hs2, !to_R_diff_same_sign. exact Hth. }
    assert (Hm1 : mag_R op1 = (IZR (d_int op1) * p10 (d_exp op1))%R) by reflexivity.
    assert (Hm2 : mag_R op2 = (IZR (d_int op2) * p10 (d_exp op1))%R)
      by (rewrite He; reflexivity).
    destruct (d_sign op1) eqn:E1, (d_sign op2) eqn:E2; cbn [Bool.eqb negb].
    + eexists; split; [reflexivity|]. cbn [d_int]. split; [lia|].
      replace (to_R _) with (to_R op1 + to_R op2)%R; [exact Hops|].
      unfold to_R, sgn_R at 3, mag_R at 3; cbn [d_sign d_int d_exp].
      rewrite E1, E2, Hm1, Hm2, plus_IZR. unfold sgn_R. ring.
    + destruct (Z.eqb_spec (d_int op1) (d_int op2)) as [Heq|Hne].
      * eexists; split; [reflexivity|]. cbn [d_int]. split; [lia|].
        replace (to_R _) with (to_R op1 + to_R op2)%R; [exact Hops|].
        unfold to_R, sgn_R at 3, mag_R at 3; cbn [d_sign d_int d_exp].
        rewrite E1, E2, Hm1, Hm2, Heq. unfold sgn_R. ring.
      * destruct (Z.ltb_spec (d_int op1) (d_int op2)).
        -- eexists; split; [reflexivity|]. cbn [d_int]. split; [lia|].
           replace (to_R _) with (to_R op1 + to_R op2)%R; [exact Hops|].
           unfold to_R, mag_R at 3; cbn [d_sign d_int d_exp].
           rewrite E1, E2, Hm1, Hm2, minus_IZR, <- He. unfold sgn_R. ring.
        -- eexists; split; [reflexivity|]. cbn [d_int]. split; [lia|].
           replace (to_R _) with (to_R op1 + to_R op2)%R; [exact Hops|].
           unfold to_R, mag_R at 3; cbn [d_sign d_int d_exp].
           rewrite E1, E2, Hm1, Hm2, minus_IZR. unfold sgn_R. ring.
    + destruct (Z.eqb_spec (d_int op1) (d_int op2)) as [Heq|Hne].
      * eexists; split; [reflexivity|]. cbn [d_int]. split; [lia|].
        replace (to_R _) with (to_R op1 + to_R op2)%R; [exact Hops|].
        unfold to_R, sgn_R at 3, mag_R at 3; cbn [d_sign d_int d_exp].
        rewrite E1, E2, Hm1, Hm2, Heq. unfold sgn_R. ring.
      * destruct (Z.ltb_spec (d_int op1) (d_int op2)).
        -- eexists; split; [reflexivity|]. cbn [d_int]. split; [lia|].
           replace (to_R _) with (to_R op1 + to_R op2)%R; [exact Hops|].
           unfold to_R, mag_R at 3; cbn [d_sign d_int d_exp].
           rewrite E1, E2, Hm1, Hm2, minus_IZR, <- He. unfold sgn_R. ring.
        -- eexists; split; [reflexivity|]. cbn [d_int]. split; [lia|].
           replace (to_R _) with (to_R op1 + to_R op2)%R; [exact Hops|].
           unfold to_R, mag_R at 3; cbn [d_sign d_int d_exp].
           rewrite E1, E2, Hm1, Hm2, minus_IZR. unfold sgn_R. ring.
    + eexists; split; [reflexivity|]. cbn [d_int]. split; [lia|].
      replace (to_R _) with (to_R op1 + to_R op2)%R; [exact Hops|].
      unfold to_R, sgn_R at 3, mag_R at 3; cbn [d_sign d_int d_exp].
      rewrite E1, E2, Hm1, Hm2, plus_IZR. unfold sgn_R. ring.
Qed.

(** [__add__]: the sum of two numbers of at most [10^K], moved by at most
    [10^(K + 1 - prec)]. *)
Lemma add_value (c : Context) (a b r : Decimal) (K : Z) :
  1 <= prec c -> 0 <= d_int a -> 0 <= d_int b ->
  __add__ c a b = Return r ->
  (mag_R a <= p10 K)%R -> (mag_R b <= p10 K)%R -> Etiny c <= K + 1 - prec c ->
  0 <= d_int r /\
  (Rabs (to_R r - (to_R a + to_R b)) <= p10 (K + 1 - prec c))%R.
Proof.
  intros Hp Ha Hb Hadd Hma Hmb Het.
  destruct (add_fix_value c a b K Hp Ha Hb Hma Hmb) as (v & Hv & Hv0 & Herr).
  rewrite Hv in Hadd.
  pose proof (p10_pos (K - prec c - 1)) as Hpk.
  pose proof (p10_pos K) as HpK.
  assert (Hsmall : (p10 (K - prec c - 1) <= / 100 * p10 (K + 1 - prec c))%R).
  { replace (K + 1 - prec c) with ((K - prec c - 1) + 1 + 1) by lia.
    rewrite !p10_succ. lra. }
  assert (Hle1 : (p10 (K + 1 - prec c) <= p10 K)%R) by (apply p10_le; lia).
  assert (Hvmag : (mag_R v < p10 (K + 1))%R).
  { rewrite <- (Rabs_to_R v Hv0). rewrite p10_succ.
    apply Rabs_bounds in Herr.
    pose proof (Rabs_to_R a Ha) as Ea. pose proof (Rabs_to_R b Hb) as Eb.
    assert (Hta : (Rabs (to_R a) <= p10 K)%R) by lra.
    assert (Htb : (Rabs (to_R b) <= p10 K)%R) by lra.
    apply Rabs_bounds in Hta. apply Rabs_bounds in Htb.
    apply Rabs_def1; lra. }
  destruct (fix_value c v r (K + 1) Hp Hv0 Hadd Hvmag Het) as (Hs & Hr & Hfix).
  split; [assumption|].
  replace (to_R r - (to_R a + to_R b))%R
    with ((to_R r - to_R v) + (to_R v - (to_R a + to_R b)))%R by ring.
  apply Rle_trans with (1 := Rabs_triang _ _).
  unfold to_R at 1 2. rewrite Hs, to_R_diff_same_sign. lra.
Qed.

Lemma to_R_copy_negate (a : Decimal) : to_R (copy_negate a) = (- to_R a)%R.
Proof.
  unfold to_R, copy_negate, mag_R, sgn_R; cbn [d_sign d_int d_exp].
  destruct (d_sign a); cbn [negb]; ring.
Qed.

Lemma mag_R_copy_negate (a : Decimal) : mag_R (copy_negate a) = mag_R a.
Proof. reflexivity. Qed.

(** [__sub__]. *)
Lemma sub_value (c : Context) (a b r : Decimal) (K : Z) :
  1 <= prec c -> 0 <= d_int a -> 0 <= d_int b ->
  __sub__ c a b = Return r ->
  (mag_R a <= p10 K)%R -> (mag_R b <= p10 K)%R -> Etiny c <= K + 1 - prec c ->
  0 <= d_int r /\
  (Rabs (to_R r - (to_R a - to_R b)) <= p10 (K + 1 - prec c))%R.
Proof.
  intros Hp Ha Hb Hsub Hma Hmb Het. rewrite sub_add in Hsub.
  destruct (add_value c a (copy_negate b) r K Hp Ha Hb Hsub Hma Hmb Het)
    as (Hr & Herr).
  split; [assumption|]. rewrite to_R_copy_negate in Herr.
  replace (to_R a - to_R b)%R with (to_R a + - to_R b)%R by ring. exact Herr.
Qed.

(** [+a]: a number below [10^K] moves by at most [10^(K - prec) / 2]. *)
Lemma pos_value (c : Context) (a r : Decimal) (K : Z) :
  1 <= prec c -> 0 <= d_int a -> __pos__ c a = Return r ->
  (mag_R a < p10 K)%R -> Etiny c <= K - prec c ->
  0 <= d_int r /\
  (Rabs (to_R r - to_R a) <= / 2 * p10 (K - prec c))%R.
Proof.
  intros Hp Ha Hpos Hmag Het. rewrite pos_fix in Hpos.
  set (v := {| d_sign := if is_zero a then false else d_sign a;
               d_int := d_int a; d_exp := d_exp a |}) in *.
  destruct (fix_value c v r K Hp Ha Hpos Hmag Het) as (Hs & Hr & Herr).
  split; [assumption|].
  assert (Hv : to_R v = to_R a).
  { unfold to_R, v, mag_R, is_zero; cbn [d_sign d_int d_exp].
    destruct (Z.eqb_spec (d_int a) 0) as [->|]; [|reflexivity].
    rewrite !Rmult_0_l, !Rmult_0_r. reflexivity. }
  rewrite <- Hv. unfold to_R. rewrite Hs, to_R_diff_same_sign. exact Herr.
Qed.

Lemma to_R_of_int (n : Z) : to_R (of_int n) = IZR n.
Proof.
  unfold to_R, mag_R, of_int, sgn_R; cbn [d_sign d_int d_exp].
  rewrite p10_0, Rmult_1_r.
  destruct (Z.ltb_spec n 0).
  - rewrite Z.abs_neq by lia. rewrite opp_IZR. ring.
  - rewrite Z.abs_eq by lia. ring.
Qed.

Lemma to_R_sci (k m : Z) : to_R (sci k m) = (IZR k * p10 m)%R.
Proof. unfold to_R, mag_R, sci, sgn_R; cbn [d_sign d_int d_exp]. ring. Qed.

Lemma mag_R_sci (k m : Z) : mag_R (sci k m) = (IZR k * p10 m)%R.
Proof. reflexivity. Qed.

(** ** The series of the arctangent *)

Lemma atan_sum_limit (x : R) :
  (0 < x < 1)%R -> Un_cv (atan_sum x) (atan x).
Proof.
  intros Hx. rewrite (atan_eq_ps_atan x Hx). unfold ps_atan.
  destruct (Ratan.in_int x) as [Hin|Hout]; [|exfalso; apply Hout; lra].
  destruct (ps_atan_exists_1 x Hin) as [v Hv]. exact Hv.
Qed.

(** The remainder of the alternating series is at most the first term left
    out. *)
Lemma atan_remainder (x : R) (n : nat) :
  (0 < x < 1)%R ->
  (Rabs (atan x - atan_sum x n) <= Ratan_seq x (S n))%R.
Proof.
  intros Hx.
  assert (Hx' : (0 <= x <= 1)%R) by lra.
  pose proof (atan_sum_limit x Hx) as Hcv.
  assert (Hineq : forall N : nat,
             (atan_sum x (S (2 * N)) <= atan x <= atan_sum x (2 * N))%R).
  { intros N. apply alternated_series_ineq.
    - apply Ratan_seq_decreasing. exact Hx'.
    - apply Ratan_seq_converging. exact Hx'.
    - exact Hcv. }
  assert (Hstep : forall m : nat,
             atan_sum x (S m) = (atan_sum x m + (-1) ^ S m * Ratan_seq x (S m))%R).
  { intros m. reflexivity. }
  destruct (Nat.Even_or_Odd n) as [[N ->]|[N ->]].
  - pose proof (Hineq N) as [Hlo Hhi].
    rewrite Hstep in Hlo.
    assert (Hsign : ((-1) ^ S (2 * N) = -1)%R).
    { rewrite <- tech_pow_Rmult, pow_1_even. ring. }
    rewrite Hsign in Hlo. apply Rabs_le. lra.
  - replace (2 * N + 1)%nat with (S (2 * N)) by lia.
    pose proof (Hineq N) as [Hlo _]. pose proof (Hineq (S N)) as [_ Hhi].
    replace (2 * S N)%nat with (S (S (2 * N))) in Hhi by lia.
    rewrite (Hstep (S (2 * N))) in Hhi.
    assert (Hsign : ((-1) ^ S (S (2 * N)) = 1)%R).
    { rewrite <- !tech_pow_Rmult, pow_1_even. ring. }
    rewrite Hsign in Hhi. apply Rabs_le. lra.
Qed.

Lemma atan_term_0 (x : R) : atan_term x 0 = x.
Proof. unfold atan_term. simpl. ring. Qed.

Lemma atan_term_S (x : R) (n : nat) :
  atan_term x (S n) = (- (x * x) * atan_term x n)%R.
Proof.
  unfold atan_term.
  replace (2 * S n + 1)%nat with (S (S (2 * n + 1))) by lia.
  rewrite <- !tech_pow_Rmult. ring.
Qed.

Lemma atan_sum_0 (x : R) : atan_sum x 0 = x.
Proof. unfold atan_sum, tg_alt, Ratan_seq. simpl. field. Qed.

Lemma atan_sum_S (x : R) (n : nat) :
  atan_sum x (S n) = (atan_sum x n + atan_term x (S n) / INR (2 * S n + 1))%R.
Proof.
  unfold atan_sum. cbn [sum_f_R0]. unfold tg_alt at 2, Ratan_seq, atan_term.
  unfold Rdiv. ring.
Qed.

Lemma Ratan_seq_term (x : R) (n : nat) :
  (0 <= x)%R ->
  Ratan_seq x n = (Rabs (atan_term x n) / INR (2 * n + 1))%R.
Proof.
  intros Hx. unfold Ratan_seq, atan_term.
  rewrite Rabs_mult, pow_1_abs, Rmult_1_l.
  rewrite Rabs_pos_eq by (apply pow_le; assumption). reflexivity.
Qed.

Lemma atan_term_bound (x : R) (n : nat) :
  (0 <= x <= 1)%R -> (Rabs (atan_term x n) <= x)%R.
Proof.
  intros Hx. unfold atan_term.
  rewrite Rabs_mult, pow_1_abs, Rmult_1_l.
  rewrite Rabs_pos_eq by (apply pow_le; lra).
  replace (2 * n + 1)%nat with (S (2 * n)) by lia.
  rewrite <- tech_pow_Rmult.
  assert (H : (0 <= x ^ (2 * n) <= 1)%R).
  { split; [apply pow_le; lra|].
    rewrite <- (pow1 (2 * n)). apply pow_incr. lra. }
  nra.
Qed.

(** ** The loop, operation by operation *)

(** What one iteration computes. *)
Lemma body_inv (c : Context) (scale : Z) (x_squared : Decimal)
    (st : loop_state) (o : Decimal + loop_state) :
  arctan_body c scale x_squared st = Return o ->
  exists divisor minus_x_squared term term_to_add magnitude threshold,
    __add__ c (st_divisor st) (of_int 2) = Return divisor /\
    __mul__ c x_squared (of_int (-1)) = Return minus_x_squared /\
    __mul__ c (st_term st) minus_x_squared = Return term /\
    __truediv__ c term divisor = Return term_to_add /\
    __abs__ c term_to_add = Return magnitude /\
    of_string ("1e-" ++ pystr.str scale) = Return threshold /\
    ((__lt__ magnitude threshold = true /\ o = inl (st_result st)) \/
     (__lt__ magnitude threshold = false /\
      exists result,
        __add__ c (st_result st) term_to_add = Return result /\
        o = inr {| st_result := result; st_term := term; st_divisor := divisor |})).
Proof.
  unfold arctan_body. cbn [mbind ret Monad_outcome].
  destruct (__add__ c (st_divisor st) (of_int 2)) as [d| | |] eqn:Hd;
    cbn [py.bind]; try discriminate.
  destruct (__mul__ c x_squared (of_int (-1))) as [m| | |] eqn:Hm;
    cbn [py.bind]; try discriminate.
  destruct (__mul__ c (st_term st) m) as [t| | |] eqn:Ht;
    cbn [py.bind]; try discriminate.
  destruct (__truediv__ c t d) as [tta| | |] eqn:Htta;
    cbn [py.bind]; try discriminate.
  destruct (__abs__ c tta) as [mag| | |] eqn:Hmag; cbn [py.bind]; try discriminate.
  destruct (of_string _) as [thr| | |] eqn:Hthr; cbn [py.bind]; try discriminate.
  destruct (__lt__ mag thr) eqn:Hlt.
  - intros [= <-]. exists d, m, t, tta, mag, thr.
    repeat (split; [first [reflexivity|assumption]|]).
    left. split; [assumption|reflexivity].
  - destruct (__add__ c (st_result st) tta) as [r| | |] eqn:Hr;
      cbn [py.bind]; try discriminate.
    intros [= <-]. exists d, m, t, tta, mag, thr.
    repeat (split; [first [reflexivity|assumption]|]).
    right. split; [assumption|].
    exists r. split; [assumption|reflexivity].
Qed.

(** A loop that returns has reached a state in which the body breaks. *)
Lemma loop_breaks (c : Context) (scale : Z) (x_squared : Decimal)
    (st0 : loop_state) (fuel : nat) :
  forall (j : nat) (st : loop_state) (r : Decimal) (c' : Context),
    reaches c scale x_squared st0 j st ->
    arctan_loop fuel scale x_squared (st_result st) (st_term st) (st_divisor st) c
    = Return (r, c') ->
    exists (j' : nat) (st' : loop_state),
      reaches c scale x_squared st0 j' st' /\
      arctan_body c scale x_squared st' = Return (inl r).
Proof.
  induction fuel as [|fuel IH]; intros j st r c' Hreach Hloop; [discriminate|].
  rewrite arctan_loop_body in Hloop.
  replace {| st_result := st_result st; st_term := st_term st;
             st_divisor := st_divisor st |} with st in Hloop
    by (destruct st; reflexivity).
  destruct (arctan_body c scale x_squared st) as [[res|st1]| | |] eqn:Hbody;
    cbn [py.bind] in Hloop; try discriminate.
  - injection Hloop as <- _. exists j, st. split; assumption.
  - apply (IH (S j) st1 r c'); [|exact Hloop].
    apply (reaches_next _ _ _ _ j st st1); assumption.
Qed.

(** The variables of the loop when it starts. *)
Lemma start_inv_ops (c : Context) (x_inv x_squared : Decimal) (st0 : loop_state) :
  arctan_start c x_inv = Return (x_squared, st0) ->
  exists x,
    __truediv__ c (of_int 1) x_inv = Return x /\
    __mul__ c x x = Return x_squared /\
    st0 = {| st_result := x; st_term := x; st_divisor := of_int 1 |}.
Proof.
  unfold arctan_start. cbn [mbind ret Monad_outcome].
  destruct (__truediv__ c (of_int 1) x_inv) as [x| | |] eqn:Hx;
    cbn [py.bind]; try discriminate.
  destruct (__mul__ c x x) as [x2| | |] eqn:Hx2; cbn [py.bind]; try discriminate.
  intros [= <- <-]. exists x. split; [reflexivity|]. split; [assumption|reflexivity].
Qed.

(** ** Real arithmetic of one iteration *)

Lemma Rabs_mul_le (a b A B : R) :
  (Rabs a <= A -> Rabs b <= B -> Rabs (a * b) <= A * B)%R.
Proof.
  intros Ha Hb. rewrite Rabs_mult.
  apply Rmult_le_compat; [apply Rabs_pos|apply Rabs_pos|assumption|assumption].
Qed.

(** The error of the next term. *)
Lemma term_step (Th T Xh x u eps : R) :
  (0 <= u)%R -> (0 <= x <= / 4)%R ->
  (Rabs Th <= 1)%R -> (Rabs (Xh - x * x) <= 6 / 5 * u)%R ->
  (Rabs (Th - T) <= 2 * u)%R -> (Rabs eps <= / 20 * u)%R ->
  (Rabs ((Th * - Xh + eps) - (- (x * x) * T)) <= 2 * u)%R.
Proof.
  intros Hu Hx HTh HX HT He.
  replace (Th * - Xh + eps - - (x * x) * T)%R
    with (- (Th * (Xh - x * x)) + (- ((x * x) * (Th - T)) + eps))%R by ring.
  pose proof (Rabs_mul_le _ _ _ _ HTh HX) as H1.
  assert (Hxx : (Rabs (x * x) <= / 16)%R).
  { rewrite Rabs_pos_eq by nra. nra. }
  pose proof (Rabs_mul_le _ _ _ _ Hxx HT) as H2.
  apply Rle_trans with (1 := Rabs_triang _ _). rewrite Rabs_Ropp.
  apply Rle_trans with (Rabs (Th * (Xh - x * x))
                        + (Rabs (- (x * x * (Th - T))) + Rabs eps))%R.
  { apply Rplus_le_compat_l. apply Rabs_triang. }
  rewrite Rabs_Ropp. lra.
Qed.

(** The error of the term divided by the divisor. *)
Lemma quotient_step (tta t T' d u : R) :
  (0 <= u)%R -> (3 <= d)%R ->
  (Rabs (tta - t / d) <= u)%R -> (Rabs (t - T') <= 2 * u)%R ->
  (Rabs (tta - T' / d) <= 2 * u)%R.
Proof.
  intros Hu Hd H1 H2.
  replace (tta - T' / d)%R with ((tta - t / d) + (t - T') * / d)%R by (field; lra).
  apply Rle_trans with (1 := Rabs_triang _ _).
  assert (Hinv : (Rabs (/ d) <= / 3)%R).
  { rewrite Rabs_pos_eq.
    - apply Rinv_le_contravar; lra.
    - apply Rlt_le, Rinv_0_lt_compat. lra. }
  pose proof (Rabs_mul_le _ _ _ _ H2 Hinv). lra.
Qed.

(** ** The values in the loop

    The loop of [arctan(str(b), scale)] from its first state on, with
    [x = 1/b] and [u] the unit of the last but one digit. *)

Section SeriesValue.

Variable c : Context.
Variables scale b : Z.
Variables xh x_squared : Decimal.
Hypothesis Hprec : prec c = scale.
Hypothesis Hrange : 1 <= scale <= MAX_PREC.
Hypothesis Hb : 4 <= b.
Hypothesis Hdiv : __truediv__ c (of_int 1) (of_int b) = Return xh.
Hypothesis Hmul : __mul__ c xh xh = Return x_squared.
Hypothesis Hxc : canonical c x_squared.
Hypothesis Hxb : mag_le x_squared (sci 1 (-1)).
Hypothesis Hinv0 :
  series_inv c 0 {| st_result := xh; st_term := xh; st_divisor := of_int 1 |}.

Let x : R := (/ IZR b)%R.
Let u : R := p10 (1 - scale).

Lemma x_range : (0 < x <= / 4)%R.
Proof.
  unfold x. assert (H : (4 <= IZR b)%R) by (apply IZR_le; assumption).
  split.
  - apply Rinv_0_lt_compat. lra.
  - apply Rinv_le_contravar; lra.
Qed.

Lemma u_range : (0 < u <= 1)%R.
Proof.
  unfold u. split; [apply p10_pos|].
  rewrite <- p10_0. apply p10_le. lia.
Qed.

Lemma u_tenth : p10 (- scale) = (/ 10 * u)%R.
Proof.
  unfold u. replace (1 - scale) with (- scale + 1) by lia.
  rewrite p10_succ. field.
Qed.

Lemma Etiny_low (K : Z) : -999998 <= K -> Etiny c <= K - prec c.
Proof. unfold Etiny, Emin. lia. Qed.

Lemma xh_value :
  (Rabs (to_R xh - x) <= u)%R /\ (mag_R xh <= 9 / 10)%R /\ 0 <= d_int xh.
Proof.
  destruct Hinv0 as (_ & _ & _ & Hct & _ & _ & Hmr).
  cbn [st_term st_result] in Hct, Hmr.
  assert (Hp : 1 <= prec c) by lia.
  destruct (truediv_value c (of_int 1) (of_int b) xh 0 Hp) as (_ & Herr).
  - vm_compute. discriminate.
  - unfold of_int; cbn [d_int]. lia.
  - exact Hdiv.
  - unfold mag_R, of_int; cbn [d_int d_exp]. rewrite p10_0.
    rewrite (Z.abs_eq b) by lia. change (Z.abs 1) with 1.
    assert (H : (4 <= IZR b)%R) by (apply IZR_le; assumption). lra.
  - replace (0 + 1 - prec c) with (1 - prec c) by lia. apply Etiny_low. lia.
  - rewrite !to_R_of_int in Herr.
    replace (0 + 1 - prec c) with (1 - scale) in Herr by lia.
    split; [|split; [|apply Hct]].
    + unfold x, u. replace (/ IZR b)%R with (1 / IZR b)%R by (unfold Rdiv; ring).
      exact Herr.
    + apply mag_le_R in Hmr.
      assert (H9 : mag_R (sum_bound 0) = (9 / 10)%R).
      { unfold sum_bound. rewrite mag_R_sci.
        change (10 ^ (0 + 1) - 1) with 9. change (- (0 + 1)) with (-1).
        unfold p10. simpl. field. }
      lra.
Qed.

Lemma x2_value :
  (Rabs (to_R x_squared - x * x) <= 6 / 5 * u)%R /\ (mag_R x_squared <= / 10)%R.
Proof.
  destruct xh_value as (Hxe & Hxm & Hx0).
  pose proof x_range as Hx. pose proof u_range as Hu.
  assert (Hp : 1 <= prec c) by lia.
  assert (Hm2 : (mag_R x_squared <= / 10)%R).
  { apply mag_le_R in Hxb. rewrite mag_R_sci in Hxb.
    assert (H10 : p10 (-1) = (/ 10)%R) by (unfold p10; simpl; field).
    rewrite H10 in Hxb. lra. }
  split; [|exact Hm2].
  pose proof (mag_R_nonneg xh Hx0) as Hm0.
  destruct (mul_value c xh xh x_squared 0 Hp Hx0 Hx0 Hmul) as (_ & Herr).
  - rewrite p10_0. nra.
  - apply Etiny_low. lia.
  - replace (0 - prec c) with (- scale) in Herr by lia.
    rewrite u_tenth in Herr.
    replace (to_R x_squared - x * x)%R
      with ((to_R x_squared - to_R xh * to_R xh)
            + (to_R xh - x) * (to_R xh + x))%R by ring.
    apply Rle_trans with (1 := Rabs_triang _ _).
    assert (Hsum : (Rabs (to_R xh + x) <= 23 / 20)%R).
    { apply Rle_trans with (1 := Rabs_triang _ _).
      rewrite (Rabs_to_R xh Hx0), (Rabs_pos_eq x) by lra. lra. }
    pose proof (Rabs_mul_le _ _ _ _ Hxe Hsum). lra.
Qed.

(** The values one iteration computes. *)
Lemma body_values (j : nat) (st : loop_state) (divisor m term tta : Decimal) :
  series_inv c (Z.of_nat j) st -> value_inv x u j st ->
  __add__ c (st_divisor st) (of_int 2) = Return divisor ->
  __mul__ c x_squared (of_int (-1)) = Return m ->
  __mul__ c (st_term st) m = Return term ->
  __truediv__ c term divisor = Return tta ->
  0 <= d_int tta /\ canonical c tta /\ (mag_R tta <= 1)%R /\
  (Rabs (to_R term - atan_term x (S j)) <= 2 * u)%R /\
  (Rabs (to_R tta - atan_term x (S j) / INR (2 * S j + 1)) <= 2 * u)%R.
Proof.
  intros Hinv [HvT HvR] Hd Hm Ht Htta.
  pose proof Hinv as (Hj & Hjp & Hdv & Hct & Hmt & Hcr & Hmr).
  pose proof x_range as Hx. pose proof u_range as Hu.
  destruct x2_value as (HX & HXm).
  assert (Hp : 1 <= prec c) by lia.
  assert (HpM : 1 <= prec c <= MAX_PREC) by lia.
  (* the divisor and the factor *)
  destruct (divisor_of_iteration c (Z.of_nat j) st HpM Hinv) as [Hd' _].
  rewrite Hd' in Hd. injection Hd as <-.
  rewrite (mul_neg_one c x_squared Hp Hxc) in Hm. injection Hm as <-.
  (* the term *)
  assert (HTm : (mag_R (st_term st) <= 1)%R).
  { apply mag_le_R in Hmt. rewrite mag_R_sci, Rmult_1_l in Hmt.
    apply Rle_trans with (1 := Hmt). rewrite <- p10_0. apply p10_le. lia. }
  pose proof (mag_R_nonneg (st_term st) (proj1 Hct)) as HT0.
  pose proof (mag_R_nonneg x_squared (proj1 Hxc)) as HX0.
  destruct (mul_value c (st_term st) (copy_negate x_squared) term 0 Hp
              (proj1 Hct) (proj1 Hxc) Ht) as (Hterm0 & Hterr).
  { rewrite mag_R_copy_negate, p10_0. nra. }
  { apply Etiny_low. lia. }
  replace (0 - prec c) with (- scale) in Hterr by lia.
  rewrite u_tenth, to_R_copy_negate in Hterr.
  assert (HTerm : (Rabs (to_R term - atan_term x (S j)) <= 2 * u)%R).
  { rewrite atan_term_S.
    replace (to_R term)
      with (to_R (st_term st) * - to_R x_squared
            + (to_R term - to_R (st_term st) * - to_R x_squared))%R by ring.
    apply term_step; try lra.
    rewrite (Rabs_to_R _ (proj1 Hct)). exact HTm. }
  (* the term divided by the divisor *)
  assert (Hmterm : (mag_R term <= 9 / 4)%R).
  { rewrite <- (Rabs_to_R term Hterm0).
    pose proof (atan_term_bound x (S j) ltac:(lra)) as Hb1.
    replace (to_R term)
      with ((to_R term - atan_term x (S j)) + atan_term x (S j))%R by ring.
    apply Rle_trans with (1 := Rabs_triang _ _). lra. }
  assert (Hdr : mag_R (sci (2 * Z.of_nat j + 3) 0) = INR (2 * S j + 1)).
  { rewrite mag_R_sci, p10_0, Rmult_1_r, INR_IZR_INZ. f_equal. lia. }
  assert (Hd3 : (3 <= INR (2 * S j + 1))%R).
  { rewrite INR_IZR_INZ. apply IZR_le. lia. }
  destruct (truediv_value c term (sci (2 * Z.of_nat j + 3) 0) tta 0 Hp Hterm0
              ltac:(cbn [sci d_int]; lia) Htta) as (Htta0 & Hqerr).
  { rewrite Hdr, p10_0. lra. }
  { replace (0 + 1 - prec c) with (1 - prec c) by lia. apply Etiny_low. lia. }
  replace (0 + 1 - prec c) with (1 - scale) in Hqerr by lia. fold u in Hqerr.
  rewrite (to_R_sci (2 * Z.of_nat j + 3) 0) in Hqerr.
  change (IZR (2 * Z.of_nat j + 3) * p10 0)%R
    with (mag_R (sci (2 * Z.of_nat j + 3) 0)) in Hqerr.
  rewrite Hdr in Hqerr.
  split; [exact Htta0|].
  split.
  { apply (truediv_canonical c term (sci (2 * Z.of_nat j + 3) 0) tta Hp Hterm0
             ltac:(cbn [sci d_int]; lia) Htta). }
  split.
  { destruct (truediv_le c term (sci (2 * Z.of_nat j + 3) 0) (sci 1 0) Hp Hterm0
                ltac:(cbn [sci d_int]; lia)) as (r0 & Hr0 & _ & _ & Hle).
    - apply canonical_sci_wide; [assumption|lia|].
      unfold Etiny, Emin, Emax. lia.
    - apply vle_R. cbn [sci d_int d_exp]. fold (mag_R term).
      replace (IZR (1 * (2 * Z.of_nat j + 3)) * p10 (0 + 0))%R
        with (mag_R (sci (2 * Z.of_nat j + 3) 0))
        by (rewrite mag_R_sci, Z.mul_1_l; reflexivity).
      rewrite Hdr. lra.
    - pose proof (eq_trans (eq_sym Hr0) Htta) as E. injection E as ->.
      apply mag_le_R in Hle. rewrite mag_R_sci, p10_0 in Hle. lra. }
  split; [exact HTerm|].
  apply (quotient_step _ (to_R term)); try lra; assumption.
Qed.

(** An iteration that goes on keeps the values in their bounds. *)
Lemma value_step (j : nat) (st st' : loop_state) :
  series_inv c (Z.of_nat j) st -> value_inv x u j st ->
  arctan_body c scale x_squared st = Return (inr st') ->
  value_inv x u (S j) st'.
Proof.
  intros Hinv Hv Hbody.
  destruct (body_inv _ _ _ _ _ Hbody)
    as (d & m & t & tta & mag & thr & Hd & Hm & Ht & Htta & _ & _ & Hcases).
  destruct Hcases as [[_ Habs]|(_ & r & Hr & Hst)]; [discriminate|].
  injection Hst as ->.
  destruct (body_values j st d m t tta Hinv Hv Hd Hm Ht Htta)
    as (Htta0 & _ & Hmtta & HT & HA).
  pose proof Hinv as (_ & _ & _ & _ & _ & Hcr & Hmr).
  destruct Hv as [_ HvR].
  pose proof u_range as Hu.
  assert (Hp : 1 <= prec c) by lia.
  assert (HRm : (mag_R (st_result st) <= 1)%R).
  { pose proof (sum_bound_le_one (Z.of_nat j) ltac:(lia)) as H1.
    apply mag_le_R in Hmr. apply mag_le_R in H1.
    rewrite mag_R_sci, p10_0 in H1. lra. }
  destruct (add_value c (st_result st) tta r 0 Hp (proj1 Hcr) Htta0 Hr)
    as (_ & Herr).
  { rewrite p10_0. exact HRm. }
  { rewrite p10_0. exact Hmtta. }
  { replace (0 + 1 - prec c) with (1 - prec c) by lia. apply Etiny_low. lia. }
  replace (0 + 1 - prec c) with (1 - scale) in Herr by lia. fold u in Herr.
  split; cbn [st_term st_result]; [exact HT|].
  rewrite atan_sum_S, S_INR.
  replace (to_R r - (atan_sum x j + atan_term x (S j) / INR (2 * S j + 1)))%R
    with ((to_R r - (to_R (st_result st) + to_R tta))
          + ((to_R (st_result st) - atan_sum x j)
             + (to_R tta - atan_term x (S j) / INR (2 * S j + 1))))%R by ring.
  apply Rle_trans with (1 := Rabs_triang _ _).
  apply Rle_trans with (Rabs (to_R r - (to_R (st_result st) + to_R tta))
     + (Rabs (to_R (st_result st) - atan_sum x j)
        + Rabs (to_R tta - atan_term x (S j) / INR (2 * S j + 1))))%R.
  { apply Rplus_le_compat_l. apply Rabs_triang. }
  lra.
Qed.

(** The value the loop breaks with. *)
Lemma value_break (j : nat) (st : loop_state) (r : Decimal) :
  series_inv c (Z.of_nat j) st -> value_inv x u j st ->
  arctan_body c scale x_squared st = Return (inl r) ->
  (Rabs (to_R r - atan x) <= (3 * INR j + 4) * u)%R.
Proof.
  intros Hinv Hv Hbody.
  destruct (body_inv _ _ _ _ _ Hbody)
    as (d & m & t & tta & mag & thr & Hd & Hm & Ht & Htta & Hmag & Hthr & Hcases).
  destruct Hcases as [[Hlt Hres]|(_ & r' & _ & Habs)]; [|discriminate].
  injection Hres as ->.
  destruct (body_values j st d m t tta Hinv Hv Hd Hm Ht Htta)
    as (Htta0 & Hctta & _ & _ & HA).
  destruct Hv as [_ HvR].
  pose proof u_range as Hu. pose proof x_range as Hx.
  assert (Hp : 1 <= prec c) by lia.
  rewrite (abs_canonical c tta Hp Hctta) in Hmag. injection Hmag as <-.
  rewrite (of_string_threshold scale ltac:(lia)) in Hthr. injection Hthr as <-.
  apply (lt_threshold tta (- scale) Htta0) in Hlt.
  rewrite u_tenth in Hlt.
  (* the remainder of the series *)
  pose proof (atan_remainder x j ltac:(lra)) as Hrem.
  rewrite (Ratan_seq_term x (S j)) in Hrem by lra.
  assert (Hd3 : (3 <= INR (2 * S j + 1))%R).
  { rewrite INR_IZR_INZ. apply IZR_le. lia. }
  assert (Hlast : (Rabs (atan_term x (S j)) / INR (2 * S j + 1) <= 21 / 10 * u)%R).
  { replace (Rabs (atan_term x (S j)) / INR (2 * S j + 1))%R
      with (Rabs (atan_term x (S j) / INR (2 * S j + 1)))%R.
    2:{ unfold Rdiv. rewrite Rabs_mult. f_equal.
        apply Rabs_pos_eq. apply Rlt_le, Rinv_0_lt_compat. lra. }
    replace (atan_term x (S j) / INR (2 * S j + 1))%R
      with (to_R tta - (to_R tta - atan_term x (S j) / INR (2 * S j + 1)))%R by ring.
    apply Rle_trans with (1 := Rabs_triang _ _). rewrite Rabs_Ropp.
    rewrite (Rabs_to_R tta Htta0). lra. }
  replace (to_R (st_result st) - atan x)%R
    with ((to_R (st_result st) - atan_sum x j) + - (atan x - atan_sum x j))%R by ring.
  apply Rle_trans with (1 := Rabs_triang _ _). rewrite Rabs_Ropp. lra.
Qed.

(** Every state the loop reaches has its values in their bounds. *)
Lemma reaches_value (j : nat) (st : loop_state) :
  reaches c scale x_squared
          {| st_result := xh; st_term := xh; st_divisor := of_int 1 |} j st ->
  series_inv c (Z.of_nat j) st /\ value_inv x u j st.
Proof.
  intros Hreach.
  induction Hreach as [|j st st' Hreach [IHs IHv] Hbody].
  - split; [exact Hinv0|].
    destruct xh_value as (Hxe & _ & _). pose proof u_range as Hu.
    split; cbn [st_term st_result].
    + rewrite atan_term_0. lra.
    + rewrite atan_sum_0. cbn [INR]. lra.
  - split.
    + apply (reaches_inv c scale x_squared Hprec Hrange Hxc Hxb _ (S j) st' Hinv0).
      apply (reaches_next _ _ _ _ j st st'); assumption.
    + apply (value_step j st st'); assumption.
Qed.

(** The value of the loop: the arctangent, up to [(3 scale + 1) u]. *)
Lemma loop_value (fuel : nat) (r : Decimal) (c' : Context) :
  arctan_loop fuel scale x_squared xh xh (of_int 1) c = Return (r, c') ->
  (Rabs (to_R r - atan x) <= (3 * IZR scale + 1) * u)%R.
Proof.
  intros Hloop.
  destruct (loop_breaks c scale x_squared
              {| st_result := xh; st_term := xh; st_divisor := of_int 1 |}
              fuel 0 _ r c' (reaches_start _ _ _ _) Hloop)
    as (j & st & Hreach & Hbody).
  destruct (reaches_value j st Hreach) as [Hs Hv].
  pose proof (value_break j st r Hs Hv Hbody) as Hbr.
  destruct Hs as (_ & Hjp & _).
  pose proof u_range as Hu.
  assert (Hj : (INR j + 1 <= IZR scale)%R).
  { rewrite INR_IZR_INZ, <- plus_IZR. apply IZR_le. lia. }
  apply Rle_trans with (1 := Hbr).
  apply Rmult_le_compat_r; lra.
Qed.

End SeriesValue.

(** ** The value of [arctan] and of [calculate_pi] *)

(** [arctan] returns the arctangent of [1/b] up to [(3 scale + 1)] units of
    the last but one digit. *)
Lemma arctan_value (fuel : nat) (x_inv_str : string) (b scale : Z)
    (c : Context) (r : Decimal) (c' : Context) :
  of_string x_inv_str = Return (of_int b) -> 4 <= b ->
  1 <= scale <= MAX_PREC ->
  arctan fuel x_inv_str scale c = Return (r, c') ->
  (Rabs (to_R r - atan (/ IZR b)) <= (3 * IZR scale + 1) * p10 (1 - scale))%R.
Proof.
  intros Hstr Hb Hs. rewrite arctan_unfold.
  destruct (Z.ltb_spec scale 1); [lia|].
  destruct (Z.ltb_spec MAX_PREC scale); [lia|].
  rewrite Hstr. cbn [orb py.bind].
  assert (Hp : 1 <= prec {| prec := scale |} <= MAX_PREC) by (cbn [prec]; lia).
  destruct (start_inv {| prec := scale |} b Hp Hb)
    as (x & x_squared & Hstart & Hxc & Hxb & Hinv).
  rewrite Hstart. cbn [py.bind fst snd st_result st_term st_divisor].
  destruct (start_inv_ops _ _ _ _ Hstart) as (x' & Hdiv & Hmul & Hst).
  injection Hst as <-.
  intros Hloop.
  exact (loop_value {| prec := scale |} scale b x x_squared eq_refl Hs Hb
           Hdiv Hmul Hxc Hxb Hinv fuel r c' Hloop).
Qed.

Lemma linear_le_pow10 (s : Z) : 11 <= s -> 60 * s + 126 <= 10 ^ (s - 1).
Proof.
  intros Hs.
  pose proof (linear_lt_pow10 (s - 3) ltac:(lia)) as Hlin.
  assert (H8 : 10 ^ 8 <= 10 ^ (s - 3)) by (apply pow10_le; lia).
  change (10 ^ 8) with 100000000 in H8.
  replace (s - 1) with ((s - 3) + 1 + 1) by lia.
  rewrite !pow10_succ by lia. lia.
Qed.

(** The value of [calculate_pi(digits)]: Pi, up to half a unit of the last
    of the [digits] digits and [60 digits + 726] units of the tenth digit
    after it. *)
Lemma calculate_pi_value (fuel : nat) (digits : Z) (c : Context) :
  1 <= digits <= MAX_PREC - 10 -> (Z.to_nat (digits + 10) <= fuel)%nat ->
  exists pi,
    calculate_pi fuel digits c = Return (pi, {| prec := digits |}) /\
    (Rabs (to_R pi - PI)
     <= / 2 * p10 (1 - digits) + (60 * IZR digits + 726) * p10 (- 9 - digits))%R.
Proof.
  intros Hd Hf.
  set (scale := digits + 10).
  assert (Hs : 1 <= scale <= MAX_PREC) by (unfold scale; lia).
  set (cs := {| prec := scale |}).
  assert (Hp : 1 <= prec cs) by (unfold cs; cbn [prec]; lia).
  assert (HpM : 1 <= prec cs <= MAX_PREC) by (unfold cs; cbn [prec]; lia).
  set (u := p10 (1 - scale)).
  assert (Hu : (0 < u)%R) by apply p10_pos.
  assert (HE : ((60 * IZR scale + 126) * u <= 1)%R).
  { pose proof (linear_le_pow10 scale ltac:(unfold scale; lia)) as Hlin.
    apply IZR_le in Hlin.
    rewrite plus_IZR, mult_IZR, p10_IZR in Hlin by (unfold scale; lia).
    assert (H1 : (p10 (scale - 1) * u = 1)%R).
    { unfold u. rewrite <- p10_add. replace (scale - 1 + (1 - scale)) with 0 by lia.
      apply p10_0. }
    rewrite <- H1. apply Rmult_le_compat_r; lra. }
  (* the two series *)
  destruct (arctan_returns fuel "5" 5 scale cs of_string_5 ltac:(lia) Hs Hf)
    as (t1 & Ht1 & Hc1 & Hm1).
  destruct (arctan_returns fuel "239" 239 scale cs of_string_239 ltac:(lia) Hs Hf)
    as (t2 & Ht2 & Hc2 & Hm2).
  pose proof (arctan_value fuel "5" 5 scale cs t1 _ of_string_5 ltac:(lia) Hs Ht1)
    as Hv1.
  pose proof (arctan_value fuel "239" 239 scale cs t2 _ of_string_239 ltac:(lia) Hs Ht2)
    as Hv2.
  fold u in Hv1, Hv2.
  apply mag_le_R in Hm1. apply mag_le_R in Hm2.
  rewrite mag_R_sci, p10_0 in Hm1, Hm2.
  pose proof (mag_R_nonneg t1 (proj1 Hc1)) as H10.
  pose proof (mag_R_nonneg t2 (proj1 Hc2)) as H20.
  assert (HEt : forall K : Z, -999998 <= K -> Etiny cs <= K - prec cs).
  { intros K HK. unfold Etiny, Emin, cs. cbn [prec]. lia. }
  (* the combination *)
  destruct (machin_combination_returns cs t1 t2 HpM Hc1
              ltac:(apply mag_le_R; rewrite mag_R_sci, p10_0; lra) Hc2
              ltac:(apply mag_le_R; rewrite mag_R_sci, p10_0; lra))
    as (a & b & pi0 & Ha & Hb & Hpi0 & Hcpi0 & _).
  destruct (mul_value cs t1 (of_int 16) a 2 Hp (proj1 Hc1)
              ltac:(vm_compute; discriminate) Ha) as (Ha0 & Haerr).
  { unfold mag_R at 2, of_int; cbn [d_int d_exp Z.abs]. rewrite p10_0.
    change (p10 2) with (10 * (10 * 1))%R. lra. }
  { apply HEt. lia. }
  destruct (mul_value cs t2 (of_int 4) b 1 Hp (proj1 Hc2)
              ltac:(vm_compute; discriminate) Hb) as (Hb0 & Hberr).
  { unfold mag_R at 2, of_int; cbn [d_int d_exp Z.abs]. rewrite p10_0.
    change (p10 1) with (10 * 1)%R. lra. }
  { apply HEt. lia. }
  rewrite !to_R_of_int in Haerr, Hberr.
  assert (Hu2 : p10 (2 - prec cs) = (10 * u)%R).
  { unfold u, cs. cbn [prec]. replace (2 - scale) with ((1 - scale) + 1) by lia.
    apply p10_succ. }
  assert (Hu1 : p10 (1 - prec cs) = u) by reflexivity.
  assert (Hu3 : p10 (2 + 1 - prec cs) = (100 * u)%R).
  { unfold u, cs. cbn [prec]. replace (2 + 1 - scale) with ((1 - scale) + 1 + 1) by lia.
    rewrite !p10_succ. ring. }
  rewrite Hu2 in Haerr. rewrite Hu1 in Hberr.
  assert (Hu_le : (u <= 1)%R).
  { unfold u. rewrite <- p10_0. apply p10_le. lia. }
  assert (Hta : (Rabs (to_R t1) <= 1)%R) by (rewrite (Rabs_to_R t1 (proj1 Hc1)); lra).
  assert (Htb : (Rabs (to_R t2) <= 1)%R) by (rewrite (Rabs_to_R t2 (proj1 Hc2)); lra).
  apply Rabs_bounds in Hta. apply Rabs_bounds in Htb.
  pose proof (Rabs_bounds _ _ Haerr) as Ha'.
  pose proof (Rabs_bounds _ _ Hberr) as Hb'.
  destruct (sub_value cs a b pi0 2 Hp Ha0 Hb0 Hpi0) as (Hpi00 & Hperr).
  { rewrite <- (Rabs_to_R a Ha0). change (p10 2) with (10 * (10 * 1))%R.
    apply Rabs_le. lra. }
  { rewrite <- (Rabs_to_R b Hb0). change (p10 2) with (10 * (10 * 1))%R.
    apply Rabs_le. lra. }
  { replace (2 + 1 - prec cs) with (3 - prec cs) by lia. apply HEt. lia. }
  rewrite Hu3 in Hperr.
  (* against Pi *)
  assert (HPI : PI = (16 * atan (/ 5) - 4 * atan (/ 239))%R).
  { pose proof Machin_4_5_239. lra. }
  pose proof (Rabs_bounds _ _ Hv1) as Hv1'.
  pose proof (Rabs_bounds _ _ Hv2) as Hv2'.
  pose proof (Rabs_bounds _ _ Hperr) as Hp'.
  assert (Hpi0err : (Rabs (to_R pi0 - PI) <= (60 * IZR scale + 126) * u)%R).
  { rewrite HPI. apply Rabs_le. nra. }
  (* the last rounding *)
  assert (Hcalc : calculate_pi fuel digits c
                  = py.bind (__pos__ {| prec := digits |} pi0)
                            (fun pi => Return (pi, {| prec := digits |}))).
  { unfold cs in Ht1, Ht2, Ha, Hb, Hpi0.
    unfold calculate_pi. cbn [mbind Monad_Prog]. unfold set_prec at 1.
    fold scale.
    destruct (Z.ltb_spec scale 1); [lia|].
    destruct (Z.ltb_spec MAX_PREC scale); [lia|].
    cbn [orb py.bind fst snd].
    rewrite Ht1. cbn [py.bind fst snd]. rewrite Ht2. cbn [py.bind fst snd].
    unfold with_context. rewrite Ha. cbn [py.bind fst snd].
    rewrite Hb. cbn [py.bind fst snd]. rewrite Hpi0. cbn [py.bind fst snd].
    unfold set_prec.
    destruct (Z.ltb_spec digits 1); [lia|].
    destruct (Z.ltb_spec MAX_PREC digits); [unfold MAX_PREC in *; lia|].
    cbn [orb py.bind fst snd].
    destruct (__pos__ _ pi0); reflexivity. }
  destruct (calculate_pi_returns fuel digits c Hd Hf) as (pi & Hpi & _).
  exists pi. split; [exact Hpi|].
  rewrite Hcalc in Hpi.
  destruct (__pos__ {| prec := digits |} pi0) as [pi'| | |] eqn:Hpos;
    cbn [py.bind] in Hpi; try discriminate.
  injection Hpi as ->.
  assert (Hmag : (mag_R pi0 < p10 1)%R).
  { rewrite <- (Rabs_to_R pi0 Hpi00). change (p10 1) with (10 * 1)%R.
    pose proof PI_4. pose proof PI_RGT_0.
    pose proof (Rabs_bounds _ _ Hpi0err).
    apply Rabs_def1; lra. }
  destruct (pos_value {| prec := digits |} pi0 pi 1 ltac:(cbn [prec]; lia)
              Hpi00 Hpos Hmag) as (_ & Hfinal).
  { unfold Etiny, Emin. cbn [prec]. lia. }
  cbn [prec] in Hfinal.
  replace (to_R pi - PI)%R with ((to_R pi - to_R pi0) + (to_R pi0 - PI))%R by ring.
  apply Rle_trans with (1 := Rabs_triang _ _).
  assert (Hconst : ((60 * IZR scale + 126) * u
                    = (60 * IZR digits + 726) * p10 (- 9 - digits))%R).
  { unfold u, scale. rewrite plus_IZR.
    replace (1 - (digits + 10)) with (- 9 - digits) by lia. ring. }
  rewrite <- Hconst. lra.
Qed.

(** X12: [arctan(str(b), scale)] returns, for every base [b >= 4], the
    arctangent of [1/b] up to [(3 scale + 1) * 10^(1 - scale)]: the
    rounding errors of the [scale]-digit operations of the loop and the
    part of the series it leaves out add up to that many units of the last
    but one digit at most. *)
Theorem arctan_is_close_to_atan (fuel : nat) (b scale : Z) (c : Context) :
  4 <= b -> 1 <= scale <= MAX_PREC -> (Z.to_nat scale <= fuel)%nat ->
  exists r,
    arctan fuel (pystr.str b) scale c = Return (r, {| prec := scale |}) /\
    (Rabs (to_R r - atan (/ IZR b)) <= (3 * IZR scale + 1) * p10 (1 - scale))%R.
Proof.
  intros Hb Hs Hf.
  assert (Hstr : of_string (pystr.str b) = Return (of_int b))
    by (apply of_string_str; lia).
  destruct (arctan_returns fuel (pystr.str b) b scale c Hstr Hb Hs Hf)
    as (r & Hr & _).
  exists r. split; [exact Hr|].
  exact (arctan_value fuel (pystr.str b) b scale c r _ Hstr Hb Hs Hr).
Qed.

Lemma arctan_is_close_to_atan_7 :
  exists r,
    arctan 30 (pystr.str 7) 30 DefaultContext = Return (r, {| prec := 30 |}) /\
    (Rabs (to_R r - atan (/ IZR 7)) <= (3 * IZR 30 + 1) * p10 (1 - 30))%R.
Proof.
  apply (arctan_is_close_to_atan 30 7 30 DefaultContext).
  - lia.
  - unfold MAX_PREC. lia.
  - vm_compute. lia.
Defined.

(** X13: [calculate_pi(digits)] returns Pi, the number of the real
    numbers, up to half a unit of the last of its [digits] digits, which
    the final rounding costs, and [(60 digits + 726) * 10^(-9 - digits)],
    which the two series cost; up to [digits = 80000000] that is less than
    one unit of the last digit. *)
Theorem calculate_pi_is_close_to_PI (fuel : nat) (digits : Z) (c : Context) :
  1 <= digits <= MAX_PREC - 10 -> (Z.to_nat (digits + 10) <= fuel)%nat ->
  exists pi,
    calculate_pi fuel digits c = Return (pi, {| prec := digits |}) /\
    (Rabs (to_R pi - PI)
     <= / 2 * p10 (1 - digits) + (60 * IZR digits + 726) * p10 (- 9 - digits))%R /\
    (digits <= 80000000 -> (Rabs (to_R pi - PI) < p10 (1 - digits))%R).
Proof.
  intros Hd Hf.
  destruct (calculate_pi_value fuel digits c Hd Hf) as (pi & Hpi & Hbound).
  exists pi. split; [exact Hpi|]. split; [exact Hbound|].
  intros Hsmall.
  replace (- 9 - digits) with ((1 - digits) + (- 10)) in Hbound by lia.
  rewrite p10_add in Hbound.
  assert (H10 : p10 (- 10) = (/ 10000000000)%R) by (unfold p10; simpl; field).
  rewrite H10 in Hbound.
  assert (HD : (IZR digits <= 80000000)%R) by (apply IZR_le; exact Hsmall).
  pose proof (p10_pos (1 - digits)) as HP.
  set (P := p10 (1 - digits)) in *.
  assert (Hs : ((60 * IZR digits + 726) * (P * / 10000000000)
                <= (60 * 80000000 + 726) * (P * / 10000000000))%R).
  { apply Rmult_le_compat_r; lra. }
  lra.
Qed.

Lemma calculate_pi_is_close_to_PI_10 :
  exists pi,
    calculate_pi 20 10 DefaultContext = Return (pi, {| prec := 10 |}) /\
    (Rabs (to_R pi - PI)
     <= / 2 * p10 (1 - 10) + (60 * IZR 10 + 726) * p10 (- 9 - 10))%R /\
    (10 <= 80000000 -> (Rabs (to_R pi - PI) < p10 (1 - 10))%R).
Proof.
  apply (calculate_pi_is_close_to_PI 20 10 DefaultContext).
  - unfold MAX_PREC. lia.
  - vm_compute. lia.
Defined.
